(** * Flappy-bird neural network: network model and trainer

    A shallow embedding of [neuralNetwork.ts] (class [NeuralNetwork]) and
    [trainer.ts] (class [Trainer]), with the properties of the design
    document stated and proved over it; then of [game.ts] (classes [Bird],
    [Pipe] and [Game], without their drawing) and of the two colour
    functions of [visualizer.ts], with further properties of all four.

    Numbers.  A JavaScript [number] is modelled by a real number: the design
    document calls the parameters real-valued, and rounding, overflow and
    the special values of binary64 are left out.  A run that would leave the
    reals does not continue in the model; it ends in one of the outcomes
    [Undefined] or [DivisionByZero] below.  So [Ok a] in the model says that
    the run returns [a], computed in exact arithmetic; [Throw e] that it
    throws [e]; the two other outcomes say nothing about what JavaScript
    does next.  Where a property turns on rounding, on whether an output of
    the sigmoid reaches 1, it is stated over module [Binary64], which
    rounds every operation of the sigmoid and of the forward pass to 53
    significant bits.

    Arrays.  A [number[]] is a [list R], a [number[][]] a [list (list R)];
    positions are read with stdpp's lookup [l !! i] and written with
    [<[i:=x]> l].  Module [Heap] adds the store of arrays for [copy], whose
    contract is about which arrays two networks share.

    Randomness.  [Math.random()] is a [source] of numbers of [0, 1) that a
    run reads in order.

    Layout.  The classes come first, then the vocabulary of the statements,
    then the properties. *)

From Stdlib Require Import Reals Lra Lia String Ascii.
From stdpp Require Import base list gmap.
From Equations Require Import Equations.

(** ** Outcomes of a call *)

(** What a method can throw.  The texts are those of the source. *)
Inductive exn : Type :=
| DimensionMismatch (expected got : nat)
    (* Error(`Expected ${this.inputSize} inputs, got ${inputs.length}`) *)
| InvalidGameState (what : string).
    (* Error('Invalid game state for ' + what) *)

(** [Ok a]: the call returns [a].
    [Throw e]: the call throws [e].
    [Undefined]: the run uses, where a number or an array of numbers is
      due, something else: an array position that holds nothing (a read past
      the end, a missing row, a write that leaves holes) or an imported
      value of another shape; JavaScript goes on with [undefined] and [NaN],
      or throws a [TypeError].
    [DivisionByZero]: the run divides by zero; JavaScript goes on with [NaN]
      or an infinity.
    The model stops at the first outcome that is not [Ok]. *)
Inductive outcome (A : Type) : Type :=
| Ok (a : A)
| Throw (e : exn)
| Undefined
| DivisionByZero.
Arguments Ok {A} a.
Arguments Throw {A} e.
Arguments Undefined {A}.
Arguments DivisionByZero {A}.

Global Instance outcome_bind : MBind outcome := fun A B k m =>
  match m with
  | Ok a => k a
  | Throw e => Throw e
  | Undefined => Undefined
  | DivisionByZero => DivisionByZero
  end.

(** [for (let i = 0; i < n; i++) s = body(s, i)] *)
Fixpoint foldM {A S} (body : S -> A -> outcome S) (xs : list A) (s : S)
  : outcome S :=
  match xs with
  | [] => Ok s
  | x :: xs' => s' ← body s x ; foldM body xs' s'
  end.

(** [out = []; for (let i = 0; i < n; i++) out[i] = f(i)] : every write is at
    the current length of [out], so it appends. *)
Fixpoint buildM {A B} (f : A -> outcome B) (xs : list A) : outcome (list B) :=
  match xs with
  | [] => Ok []
  | x :: xs' => y ← f x ; ys ← buildM f xs' ; Ok (y :: ys)
  end.

(** The index range [0, 1, ..., n-1] of a counting loop. *)
Definition range (n : nat) : list nat := seq 0 n.

(** ** Arrays of numbers *)

(** [a[i]] used as a number. *)
Definition read (a : list R) (i : nat) : outcome R :=
  match a !! i with
  | Some x => Ok x
  | None => Undefined
  end.

(** [m[i]] used as a row, as in [m[i][j]]. *)
Definition row (m : list (list R)) (i : nat) : outcome (list R) :=
  match m !! i with
  | Some r => Ok r
  | None => Undefined
  end.

(** [m[i][j]] *)
Definition read2 (m : list (list R)) (i j : nat) : outcome R :=
  r ← row m i ; read r j.

(** [m[i][j] += d] *)
Definition add_at2 (m : list (list R)) (i j : nat) (d : R)
  : outcome (list (list R)) :=
  r ← row m i ;
  x ← read r j ;
  Ok (<[i := <[j := (x + d)%R]> r]> m).

(** [a[i] += d] *)
Definition add_at (a : list R) (i : nat) (d : R) : outcome (list R) :=
  x ← read a i ;
  Ok (<[i := (x + d)%R]> a).

(** [x / y] *)
Definition divide (x y : R) : outcome R :=
  if Req_dec_T y 0 then DivisionByZero else Ok (x / y)%R.

(** [x > y] *)
Definition gtb (x y : R) : bool :=
  if Rlt_dec y x then true else false.

(** [a[i] = v]: inside the array it replaces, at its end it appends, beyond
    its end it would leave holes, which hold no number. *)
Definition write (a : list R) (i : nat) (v : R) : outcome (list R) :=
  if (i <? length a)%nat then Ok (<[i := v]> a)
  else if (i =? length a)%nat then Ok (a ++ [v])
  else Undefined.

(** [m[i][j] = v] *)
Definition write2 (m : list (list R)) (i j : nat) (v : R)
  : outcome (list (list R)) :=
  r ← row m i ;
  r' ← write r j v ;
  Ok (<[i := r']> m).

(** ** [Math.random()] *)

(** The numbers a run draws, in the order it draws them; each lies in
    [0, 1).  A function that draws takes the source and the number of draws
    made so far, and returns the count after its own draws. *)
Record source : Type := {
  draw : nat -> R;
  draw_unit : forall k, (0 <= draw k < 1)%R
}.

(** ** The game state handed over by [Game.getGameState()] *)

(** [getGameState] returns [null] when there is no bird: callers receive an
    [option GameState]. *)
Record GameState : Type := {
  birdY : R;
  birdVelocity : R;
  pipeDistance : R;
  pipeGapY : R
}.

(** ** JSON texts *)

(** A JSON text is represented by the value it denotes; a number literal by
    the number it stands for.  Texts that do not parse, and the digits of
    number literals, are not represented. *)
#[warnings="-register-all"] Inductive json : Type :=
| JNull
| JNumber (x : R)
| JString (s : string)
| JArray (items : list json)
| JObject (members : list (string * json)).

(** ** The network *)

Module NeuralNetwork.

Record t : Type := mk {
  inputSize : nat;
  hiddenSize : nat;
  outputSize : nat;
  weightsIH : list (list R);  (* Weights from Input to Hidden layer *)
  weightsHO : list (list R);  (* Weights from Hidden to Output layer *)
  biasH : list R;             (* Biases for Hidden layer *)
  biasO : list R;             (* Biases for Output layer *)
  lastInputs : option (list R);
  lastHidden : option (list R);
  lastOutput : option (list R)
}.

Local Open Scope R_scope.

(** [1 / (1 + Math.exp(-Math.max(-500, Math.min(500, x))))] *)
Definition sigmoid (x : R) : R :=
  1 / (1 + exp (- Rmax (-500) (Rmin 500 x))).

(** [x * (1 - x)] *)
Definition sigmoidDerivative (x : R) : R := x * (1 - x).

(** One unit of a layer: [sum = bias[u]; for i < n: sum += xs[i] * w[i][u];
    sigmoid(sum)]. *)
Definition unit_activation (n : nat) (xs : list R) (w : list (list R))
    (bias : list R) (u : nat) : outcome R :=
  sum0 ← read bias u ;
  sum ← foldM (fun sum i =>
                  x ← read xs i ;
                  wiu ← read2 w i u ;
                  Ok (sum + x * wiu))
               (range n) sum0 ;
  Ok (sigmoid sum).

Definition forwardPass (this : t) (inputs : list R) : outcome (t * list R) :=
  if negb (length inputs =? inputSize this)%nat then
    Throw (DimensionMismatch (inputSize this) (length inputs))
  else
    let lastInputs' := inputs in
    (* Input to Hidden *)
    lastHidden' ← buildM (unit_activation (inputSize this) inputs
                             (weightsIH this) (biasH this))
                          (range (hiddenSize this)) ;
    (* Hidden to Output *)
    lastOutput' ← buildM (unit_activation (hiddenSize this) lastHidden'
                             (weightsHO this) (biasO this))
                          (range (outputSize this)) ;
    Ok (mk (inputSize this) (hiddenSize this) (outputSize this)
           (weightsIH this) (weightsHO this) (biasH this) (biasO this)
           (Some lastInputs') (Some lastHidden') (Some lastOutput'),
        lastOutput').

(** [this.lastHidden![h]]: the cache is [null] until the first forward
    pass. *)
Definition read_cached (cache : option (list R)) (i : nat) : outcome R :=
  match cache with
  | Some a => read a i
  | None => Undefined
  end.

(** Backpropagation training step; returns the mean squared error.  (The
    default of [learningRate], 0.1, is left to the caller.) *)
Definition train (this : t) (inputs targets : list R) (learningRate : R)
  : outcome (t * R) :=
  (* Forward pass *)
  '(this, outputs) ← forwardPass this inputs ;
  (* Calculate output layer errors *)
  '(outputErrors, mse) ←
    foldM (fun '(outputErrors, mse) o =>
             target ← read targets o ;
             out ← read outputs o ;
             let error := target - out in
             Ok (outputErrors ++ [error * sigmoidDerivative out],
                 mse + error * error))
          (range (outputSize this)) ([], 0) ;
  mse ← divide mse (INR (outputSize this)) ;
  (* Calculate hidden layer errors *)
  hiddenErrors ←
    buildM (fun h =>
              error ← foldM (fun error o =>
                               oe ← read outputErrors o ;
                               who ← read2 (weightsHO this) h o ;
                               Ok (error + oe * who))
                            (range (outputSize this)) 0 ;
              hid ← read_cached (lastHidden this) h ;
              Ok (error * sigmoidDerivative hid))
           (range (hiddenSize this)) ;
  (* Update weights: Hidden -> Output *)
  weightsHO' ←
    foldM (fun w h =>
             foldM (fun w o =>
                      oe ← read outputErrors o ;
                      hid ← read_cached (lastHidden this) h ;
                      add_at2 w h o (learningRate * oe * hid))
                   (range (outputSize this)) w)
          (range (hiddenSize this)) (weightsHO this) ;
  (* Update biases: Output *)
  biasO' ←
    foldM (fun b o =>
             oe ← read outputErrors o ;
             add_at b o (learningRate * oe))
          (range (outputSize this)) (biasO this) ;
  (* Update weights: Input -> Hidden *)
  weightsIH' ←
    foldM (fun w i =>
             foldM (fun w h =>
                      he ← read hiddenErrors h ;
                      x ← read_cached (lastInputs this) i ;
                      add_at2 w i h (learningRate * he * x))
                   (range (hiddenSize this)) w)
          (range (inputSize this)) (weightsIH this) ;
  (* Update biases: Hidden *)
  biasH' ←
    foldM (fun b h =>
             he ← read hiddenErrors h ;
             add_at b h (learningRate * he))
          (range (hiddenSize this)) (biasH this) ;
  Ok (mk (inputSize this) (hiddenSize this) (outputSize this)
         weightsIH' weightsHO' biasH' biasO'
         (lastInputs this) (lastHidden this) (lastOutput this),
      mse).

(** The four features read from a game state, in the order both [predict]
    and [Trainer.addSample] list them. *)
Definition features (gameState : GameState) : list R :=
  [birdY gameState; birdVelocity gameState;
   pipeDistance gameState; pipeGapY gameState].

(** Predict whether to flap. *)
Definition predict (this : t) (gameState : option GameState)
  : outcome (t * bool) :=
  match gameState with
  | None => Throw (InvalidGameState "prediction")
  | Some gameState =>
      let inputs := features gameState in
      '(this, output) ← forwardPass this inputs ;
      (* output[0] > 0.5, and [undefined > 0.5] is false *)
      Ok (this, match output !! 0%nat with
                | Some y => gtb y 0.5
                | None => false
                end)
  end.

(** [for j < cols: row[j] = Math.random() * 2 - 1] *)
Fixpoint random_row (g : source) (cols k : nat) : list R * nat :=
  match cols with
  | O => ([], k)
  | S cols' =>
      let '(r, k') := random_row g cols' (S k) in
      ((draw g k * 2 - 1) :: r, k')
  end.

Fixpoint initializeWeights (g : source) (rows cols k : nat)
  : list (list R) * nat :=
  match rows with
  | O => ([], k)
  | S rows' =>
      let '(r, k1) := random_row g cols k in
      let '(w, k2) := initializeWeights g rows' cols k1 in
      (r :: w, k2)
  end.

(** [new NeuralNetwork(inputSize, hiddenSize, outputSize)] *)
Definition new (g : source) (k : nat) (inputSize hiddenSize outputSize : nat)
  : t * nat :=
  let '(wih, k1) := initializeWeights g inputSize hiddenSize k in
  let '(who, k2) := initializeWeights g hiddenSize outputSize k1 in
  (mk inputSize hiddenSize outputSize wih who
      (replicate hiddenSize 0) (replicate outputSize 0)
      None None None,
   k2).

(** Network weights for visualization. *)
Definition getWeights (this : t)
  : list (list R) * list (list R) * list R * list R :=
  (weightsIH this, weightsHO this, biasH this, biasO this).

(** Last activations for visualization. *)
Definition getActivations (this : t) : list R * list R * list R :=
  (default (replicate (inputSize this) 0) (lastInputs this),
   default (replicate (hiddenSize this) 0) (lastHidden this),
   default (replicate (outputSize this) 0) (lastOutput this)).

(** [for i < rows: for j < cols: dst[i][j] = src[i][j]] *)
Definition copy_entries (rows cols : nat) (src dst : list (list R))
  : outcome (list (list R)) :=
  foldM (fun dst i =>
           foldM (fun dst j =>
                    v ← read2 src i j ;
                    write2 dst i j v)
                 (range cols) dst)
        (range rows) dst.

(** Copy the network. *)
Definition copy (this : t) (g : source) (k : nat) : outcome (t * nat) :=
  let '(nn, k') :=
    new g k (inputSize this) (hiddenSize this) (outputSize this) in
  (* Deep copy weights *)
  wih ← copy_entries (inputSize this) (hiddenSize this)
         (weightsIH this) (weightsIH nn) ;
  who ← copy_entries (hiddenSize this) (outputSize this)
         (weightsHO this) (weightsHO nn) ;
  Ok (mk (inputSize nn) (hiddenSize nn) (outputSize nn)
         wih who (biasH this) (biasO this)
         (lastInputs nn) (lastHidden nn) (lastOutput nn),
      k').

(** *** Export and import *)

Definition json_vector (a : list R) : json := JArray (map JNumber a).
Definition json_matrix (m : list (list R)) : json :=
  JArray (map json_vector m).

(** Export weights as JSON. *)
Definition toJSON (this : t) : json :=
  JObject [("weightsIH"%string, json_matrix (weightsIH this));
           ("weightsHO"%string, json_matrix (weightsHO this));
           ("biasH"%string, json_vector (biasH this));
           ("biasO"%string, json_vector (biasO this))].

(** [data.name] on the parsed text; of a key written twice, [JSON.parse]
    keeps the last. *)
Definition member (name : string) (data : json) : option json :=
  match data with
  | JObject members =>
      snd <$> (snd <$> list_find (fun m => String.eqb (fst m) name)
                                 (reverse members))
  | _ => None
  end.

(** A field of the network holds what its type says only if the value
    assigned is an array of numbers, or of rows of numbers. *)
Definition as_number (v : json) : outcome R :=
  match v with
  | JNumber x => Ok x
  | _ => Undefined
  end.

Definition as_vector (v : option json) : outcome (list R) :=
  match v with
  | Some (JArray items) => buildM as_number items
  | _ => Undefined
  end.

Definition as_matrix (v : option json) : outcome (list (list R)) :=
  match v with
  | Some (JArray rows) => buildM (fun r => as_vector (Some r)) rows
  | _ => Undefined
  end.

(** Import weights from JSON: the four fields are assigned as they come,
    the sizes and the cached activations stay. *)
Definition fromJSON (this : t) (data : json) : outcome t :=
  wih ← as_matrix (member "weightsIH" data) ;
  who ← as_matrix (member "weightsHO" data) ;
  bh ← as_vector (member "biasH" data) ;
  bo ← as_vector (member "biasO" data) ;
  Ok (mk (inputSize this) (hiddenSize this) (outputSize this)
         wih who bh bo
         (lastInputs this) (lastHidden this) (lastOutput this)).

End NeuralNetwork.

(** ** The trainer *)

Module Trainer.

Local Open Scope R_scope.

Record sample : Type := {
  inputs : list R;
  target : list R
}.

Record stats : Type := {
  totalSamples : nat;
  currentLoss : R;
  trainedEpochs : nat
}.

(** The observer [onStatsUpdate] is not part of the state: [updateStats]
    hands it the statistics and is otherwise without effect. *)
Record t : Type := mk {
  nn : NeuralNetwork.t;
  trainingData : list sample;
  isTraining : bool;
  trainingStats : stats
}.

(** The two private fields that are never assigned after their
    initialisation. *)
#[warnings="-abstract-large-number"] Definition maxSamples : nat := 10000.
Definition batchSize : nat := 32.

(** [new Trainer(neuralNetwork)] *)
Definition new (neuralNetwork : NeuralNetwork.t) : t :=
  mk neuralNetwork [] false
     {| totalSamples := 0; currentLoss := 0; trainedEpochs := 0 |}.

Definition addSample (this : t) (gameState : option GameState)
    (optimalAction : R) : outcome t :=
  match gameState with
  | None => Throw (InvalidGameState "adding sample")
  | Some gameState =>
      let sample := {| inputs := NeuralNetwork.features gameState;
                       target := [optimalAction] |} in
      (* push *)
      let data := trainingData this ++ [sample] in
      (* Keep dataset manageable: shift *)
      let data := if (maxSamples <? length data)%nat then tail data
                  else data in
      Ok (mk (nn this) data (isTraining this)
             {| totalSamples := length data;
                currentLoss := currentLoss (trainingStats this);
                trainedEpochs := trainedEpochs (trainingStats this) |})
  end.

(** Heuristic: flap if the bird is below the gap center. *)
Definition calculateOptimalAction (gameState : option GameState)
  : outcome R :=
  match gameState with
  | None => Throw (InvalidGameState "calculating optimal action")
  | Some gameState =>
      let birdY := birdY gameState in
      let gapY := pipeGapY gameState in
      let velocity := birdVelocity gameState in
      let velocityFactor := (velocity - 0.5) * 0.1 in
      Ok (if gtb birdY (gapY - velocityFactor) then 1 else 0)
  end.

(** [Math.floor(x)] used as an array index. *)
Definition floor (x : R) : nat := Z.to_nat (Int_part x).

(** [[array[i], array[j]] = [array[j], array[i]]]; both positions exist
    wherever [shuffle] swaps. *)
Definition swap {A} (array : list A) (i j : nat) : list A :=
  match array !! i, array !! j with
  | Some x, Some y => <[j := x]> (<[i := y]> array)
  | _, _ => array
  end.

(** [for (let i = start; i > 0; i--)] of the Fisher-Yates shuffle. *)
Fixpoint shuffle_from {A} (g : source) (i : nat) (array : list A) (k : nat)
  : list A * nat :=
  match i with
  | O => (array, k)
  | S i' =>
      let j := floor (draw g k * INR (i + 1)) in
      shuffle_from g i' (swap array i j) (S k)
  end.

(** Shuffle array (Fisher-Yates). *)
Definition shuffle {A} (g : source) (array : list A) (k : nat)
  : list A * nat :=
  shuffle_from g (length array - 1) array k.

(** [array.slice(from, to)] for [from <= to]. *)
Definition slice {A} (array : list A) (from to : nat) : list A :=
  take (to - from) (drop from array).

(** [for (const sample of batch)]: one call of the network's [train] per
    sample, its loss added to [totalLoss]. *)
Definition train_batch (learningRate : R) (batch : list sample)
    (st : NeuralNetwork.t * R * nat) : outcome (NeuralNetwork.t * R * nat) :=
  foldM (fun '(net, totalLoss, samplesTrained) sample =>
           '(net', loss) ← NeuralNetwork.train net (inputs sample)
                             (target sample) learningRate ;
           Ok (net', totalLoss + loss, S samplesTrained))
        batch st.

(** [for (let i = from; i < shuffled.length; i += this.batchSize)] *)
Equations? train_batches (learningRate : R) (shuffled : list sample)
    (i : nat) (st : NeuralNetwork.t * R * nat)
  : outcome (NeuralNetwork.t * R * nat)
  by wf (length shuffled - i)%nat lt :=
  train_batches learningRate shuffled i st
    with decide (i < length shuffled)%nat := {
    | left _ =>
        let batch := slice shuffled i (i + batchSize) in
        match train_batch learningRate batch st with
        | Ok st' => train_batches learningRate shuffled (i + batchSize) st'
        | Throw e => Throw e
        | Undefined => Undefined
        | DivisionByZero => DivisionByZero
        end
    | right _ => Ok st
    }.
Proof. unfold batchSize. lia. Qed.

(** One epoch: shuffle a copy of the data, then train on its batches. *)
Definition train_epoch (learningRate : R) (data : list sample) (g : source)
    (st : NeuralNetwork.t * R * nat * nat)
  : outcome (NeuralNetwork.t * R * nat * nat) :=
  let '(net, totalLoss, samplesTrained, k) := st in
  let '(shuffled, k') := shuffle g data k in
  '(net', totalLoss', samplesTrained') ←
    train_batches learningRate shuffled 0 (net, totalLoss, samplesTrained) ;
  Ok (net', totalLoss', samplesTrained', k').

(** [for (let epoch = 0; epoch < epochs; epoch++)] *)
Definition train_epochs (learningRate : R) (data : list sample) (g : source)
    (epochs : nat) (st : NeuralNetwork.t * R * nat * nat)
  : outcome (NeuralNetwork.t * R * nat * nat) :=
  foldM (fun st (epoch : nat) => train_epoch learningRate data g st)
        (range epochs) st.

Definition train (this : t) (learningRate : R) (epochs : nat)
    (g : source) (k : nat) : outcome (t * R * nat) :=
  if (length (trainingData this) <? batchSize)%nat then
    (* console.log('Not enough training data') *)
    Ok (this, 0, k)
  else
    let totalLoss := 0 in
    let samplesTrained := 0%nat in
    '(net, totalLoss, samplesTrained, k') ←
      train_epochs learningRate (trainingData this) g epochs
        (nn this, totalLoss, samplesTrained, k) ;
    loss ← divide totalLoss (INR samplesTrained) ;
    Ok (mk net (trainingData this) (isTraining this)
           {| totalSamples := totalSamples (trainingStats this);
              currentLoss := loss;
              trainedEpochs := trainedEpochs (trainingStats this) + epochs |},
        loss, k').

(** Stop continuous training. *)
Definition stopTraining (this : t) : t :=
  mk (nn this) (trainingData this) false (trainingStats this).

(** One animation frame of continuous training, the closure [trainStep] of
    [startTraining]: [None] when training has been stopped and the loop
    ends, otherwise ten epochs and another frame. *)
Definition trainStep (this : t) (learningRate : R) (g : source) (k : nat)
  : outcome (option (t * nat)) :=
  if negb (isTraining this) then Ok None
  else
    '(this', _, k') ← train this learningRate 10 g k ;
    Ok (Some (this', k')).

(** Start continuous training mode: the flag is set; the frames follow. *)
Definition startTraining (this : t) : t :=
  mk (nn this) (trainingData this) true (trainingStats this).

(** Clear all training data. *)
Definition reset (this : t) : t :=
  mk (nn this) [] (isTraining this)
     {| totalSamples := 0; currentLoss := 0; trainedEpochs := 0 |}.

(** Training statistics. *)
Definition getStats (this : t) : stats := trainingStats this.

(** Collect training data during gameplay. *)
Definition collectFromGameState (this : t) (gameState : option GameState)
  : outcome t :=
  optimalAction ← calculateOptimalAction gameState ;
  addSample this gameState optimalAction.

End Trainer.

(** ** Arrays as objects *)

(** The modules above treat an array as the list of its elements.  In
    JavaScript an array is an object that variables and other arrays refer
    to, and a write through one reference is seen through all.  This module
    says where the arrays of a network live, for the one method whose
    contract is about that: [copy]. *)
Module Heap.

Abbreviation ref := nat (only parsing).

Inductive cell : Type :=
| Numbers (a : list R)     (* a [number[]] *)
| Rows (rs : list ref).    (* a [number[][]]: references to its rows *)

Abbreviation store := (list cell) (only parsing).

(** A new array; its reference is one that no array has had before. *)
Definition alloc (sto : store) (c : cell) : ref * store :=
  (length sto, sto ++ [c]).

Record object : Type := mk {
  inputSize : nat;
  hiddenSize : nat;
  outputSize : nat;
  weightsIH : ref;
  weightsHO : ref;
  biasH : ref;
  biasO : ref;
  lastInputs : option ref;
  lastHidden : option ref;
  lastOutput : option ref
}.

(** The array of numbers, and the matrix, that a reference leads to. *)
Definition vector (sto : store) (r : ref) : option (list R) :=
  match sto !! r with
  | Some (Numbers a) => Some a
  | _ => None
  end.

Definition row_refs (sto : store) (w : ref) : option (list ref) :=
  match sto !! w with
  | Some (Rows rs) => Some rs
  | _ => None
  end.

Definition matrix (sto : store) (w : ref) : option (list (list R)) :=
  rs ← row_refs sto w ; mapM (vector sto) rs.

Definition cache (sto : store) (c : option ref) : option (option (list R)) :=
  match c with
  | None => Some None
  | Some r => Some <$> vector sto r
  end.

(** The network of the modules above that an object stands for. *)
Definition value (sto : store) (o : object) : option NeuralNetwork.t :=
  wih ← matrix sto (weightsIH o) ;
  who ← matrix sto (weightsHO o) ;
  bh ← vector sto (biasH o) ;
  bo ← vector sto (biasO o) ;
  li ← cache sto (lastInputs o) ;
  lh ← cache sto (lastHidden o) ;
  lo ← cache sto (lastOutput o) ;
  Some (NeuralNetwork.mk (inputSize o) (hiddenSize o) (outputSize o)
          wih who bh bo li lh lo).

(** The arrays an object reaches. *)
Definition footprint (sto : store) (o : object) : list ref :=
  [weightsIH o; weightsHO o; biasH o; biasO o]
  ++ default [] (row_refs sto (weightsIH o))
  ++ default [] (row_refs sto (weightsHO o))
  ++ option_list (lastInputs o) ++ option_list (lastHidden o)
  ++ option_list (lastOutput o).

Definition of_option {A} (x : option A) : outcome A :=
  match x with
  | Some a => Ok a
  | None => Undefined
  end.

(** [w[i][j]] *)
Definition read2 (sto : store) (w : ref) (i j : nat) : outcome R :=
  rs ← of_option (row_refs sto w) ;
  r ← of_option (rs !! i) ;
  a ← of_option (vector sto r) ;
  read a j.

(** [w[i][j] = v] *)
Definition write2 (sto : store) (w : ref) (i j : nat) (v : R)
  : outcome store :=
  rs ← of_option (row_refs sto w) ;
  r ← of_option (rs !! i) ;
  a ← of_option (vector sto r) ;
  a' ← write a j v ;
  Ok (<[r := Numbers a']> sto).

(** [weights[i] = []; ...] for every row: each row is a new array. *)
Fixpoint alloc_rows (sto : store) (m : list (list R)) : list ref * store :=
  match m with
  | [] => ([], sto)
  | a :: m' =>
      let '(r, sto1) := alloc sto (Numbers a) in
      let '(rs, sto2) := alloc_rows sto1 m' in
      (r :: rs, sto2)
  end.

(** [initializeWeights]: a new array [weights], then its rows, filled as in
    [NeuralNetwork.initializeWeights]. *)
Definition initializeWeights (g : source) (rows cols k : nat) (sto : store)
  : ref * nat * store :=
  let '(w, sto0) := alloc sto (Rows []) in
  let '(m, k') := NeuralNetwork.initializeWeights g rows cols k in
  let '(rs, sto1) := alloc_rows sto0 m in
  (w, k', <[w := Rows rs]> sto1).

(** [new NeuralNetwork(inputSize, hiddenSize, outputSize)] *)
Definition new (g : source) (k : nat) (inputSize hiddenSize outputSize : nat)
    (sto : store) : object * nat * store :=
  let '(wih, k1, sto1) := initializeWeights g inputSize hiddenSize k sto in
  let '(who, k2, sto2) := initializeWeights g hiddenSize outputSize k1 sto1 in
  let '(bh, sto3) := alloc sto2 (Numbers (replicate hiddenSize 0%R)) in
  let '(bo, sto4) := alloc sto3 (Numbers (replicate outputSize 0%R)) in
  (mk inputSize hiddenSize outputSize wih who bh bo None None None, k2, sto4).

(** [for i < rows: for j < cols: dst[i][j] = src[i][j]] *)
Definition copy_entries (rows cols : nat) (src dst : ref) (sto : store)
  : outcome store :=
  foldM (fun sto i =>
           foldM (fun sto j =>
                    v ← read2 sto src i j ;
                    write2 sto dst i j v)
                 (range cols) sto)
        (range rows) sto.

(** Copy the network. *)
Definition copy (sto : store) (this : object) (g : source) (k : nat)
  : outcome (object * nat * store) :=
  let '(nn, k', sto1) :=
    new g k (inputSize this) (hiddenSize this) (outputSize this) sto in
  (* Deep copy weights *)
  sto2 ← copy_entries (inputSize this) (hiddenSize this)
           (weightsIH this) (weightsIH nn) sto1 ;
  sto3 ← copy_entries (hiddenSize this) (outputSize this)
           (weightsHO this) (weightsHO nn) sto2 ;
  (* nn.biasH = [...this.biasH] *)
  bh ← of_option (vector sto3 (biasH this)) ;
  let '(biasH', sto4) := alloc sto3 (Numbers bh) in
  (* nn.biasO = [...this.biasO] *)
  bo ← of_option (vector sto4 (biasO this)) ;
  let '(biasO', sto5) := alloc sto4 (Numbers bo) in
  Ok (mk (inputSize nn) (hiddenSize nn) (outputSize nn)
         (weightsIH nn) (weightsHO nn) biasH' biasO'
         (lastInputs nn) (lastHidden nn) (lastOutput nn),
      k', sto5).

End Heap.

(** ** The game *)

(** [x < y] *)
Definition ltb (x y : R) : bool :=
  if Rlt_dec x y then true else false.

(** The rectangle [{ x, y, width, height }] that [Bird.getBounds]
    returns. *)
Module Rect.

Record t : Type := mk {
  x : R;
  y : R;
  width : R;
  height : R
}.

End Rect.

Module Bird.

Local Open Scope R_scope.

Record t : Type := mk {
  x : R;
  y : R;
  velocity : R;
  alive : bool;
  height : R;
  width : R;
  gravity : R;
  flapForce : R;
  rotation : R
}.

(** [new Bird(x, y)] *)
Definition new (x y : R) : t :=
  {| x := x; y := y; width := 34; height := 24; gravity := 0.6;
     velocity := 0; flapForce := -8; rotation := 0; alive := true |}.

Definition flap (this : t) : t :=
  if alive this then
    {| x := x this; y := y this; width := width this;
       height := height this; gravity := gravity this;
       velocity := flapForce this; flapForce := flapForce this;
       rotation := rotation this; alive := alive this |}
  else this.

Definition update (this : t) : t :=
  if negb (alive this) then this
  else
    (* Apply gravity *)
    let velocity1 := velocity this + gravity this in
    (* Terminal velocity *)
    let velocity2 := Rmin velocity1 12 in
    let y' := y this + velocity2 in
    (* Update rotation based on velocity *)
    let rotation' := Rmin (Rmax (velocity2 * 3) (-30)) 90 in
    {| x := x this; y := y'; width := width this;
       height := height this; gravity := gravity this;
       velocity := velocity2; flapForce := flapForce this;
       rotation := rotation'; alive := alive this |}.

Definition getBounds (this : t) : Rect.t :=
  {| Rect.x := x this + 4;
     Rect.y := y this + 4;
     Rect.width := width this - 8;
     Rect.height := height this - 8 |}.

(** [this.bird.alive = false], by [Game.gameOver]. *)
Definition kill (this : t) : t :=
  {| x := x this; y := y this; width := width this;
     height := height this; gravity := gravity this;
     velocity := velocity this; flapForce := flapForce this;
     rotation := rotation this; alive := false |}.

End Bird.

Module Pipe.

Local Open Scope R_scope.

Record t : Type := mk {
  x : R;
  width : R;
  gapY : R;
  gapHeight : R;
  canvasHeight : R;
  speed : R;
  passed : bool
}.

(** [new Pipe(x, gapY, gapHeight, canvasHeight)] *)
Definition new (x gapY gapHeight canvasHeight : R) : t :=
  {| x := x; width := 60; gapY := gapY; gapHeight := gapHeight;
     canvasHeight := canvasHeight; speed := 3; passed := false |}.

Definition update (this : t) : t :=
  {| x := x this - speed this; width := width this; gapY := gapY this;
     gapHeight := gapHeight this; canvasHeight := canvasHeight this;
     speed := speed this; passed := passed this |}.

Definition getGapCenter (this : t) : R :=
  gapY this + gapHeight this / 2.

Definition isOffScreen (this : t) : bool :=
  ltb (x this + width this) 0.

Definition checkCollision (this : t) (bird : Bird.t) : bool :=
  let b := Bird.getBounds bird in
  (* Check collision with top pipe *)
  if ltb (Rect.x b) (x this + width this)
     && gtb (Rect.x b + Rect.width b) (x this)
     && ltb (Rect.y b) (gapY this)
  then true
  else
    (* Check collision with bottom pipe *)
    let bottomY := gapY this + gapHeight this in
    if ltb (Rect.x b) (x this + width this)
       && gtb (Rect.x b + Rect.width b) (x this)
       && gtb (Rect.y b + Rect.height b) bottomY
    then true
    else false.

(** [pipe.passed = true], by [Game.update]. *)
Definition pass (this : t) : t :=
  {| x := x this; width := width this; gapY := gapY this;
     gapHeight := gapHeight this; canvasHeight := canvasHeight this;
     speed := speed this; passed := true |}.

End Pipe.

Module Game.

Local Open Scope R_scope.

Inductive phase : Type := idle | playing | gameover.

(** The callbacks [onScore], [onGameOver] and [onStateCapture], in the
    order a call makes them and with their arguments.  They are the
    calls made when all three are registered, as the application does. *)
Inductive event : Type :=
| onScore (score : nat)
| onGameOver (score : nat)
| onStateCapture (state : option GameState).

(** The canvas context is used by [draw] only and is left out. *)
Record t : Type := mk {
  bestScore : nat;
  gameState : phase;
  width : R;
  height : R;
  bird : option Bird.t;
  pipes : list Pipe.t;
  score : nat;
  frameCount : nat;
  groundY : R
}.

(** The two private fields that are never assigned after their
    initialisation. *)
Definition pipeSpawnInterval : nat := 100.
Definition gapHeight : R := 150.

(** [new Game(canvas)], for a canvas of the given size. *)
Definition new (canvasWidth canvasHeight : R) : t :=
  {| bestScore := 0; gameState := idle;
     width := canvasWidth; height := canvasHeight;
     bird := None; pipes := []; score := 0; frameCount := 0;
     groundY := canvasHeight - 50 |}.

Definition reset (this : t) : t :=
  {| bestScore := bestScore this; gameState := idle;
     width := width this; height := height this;
     bird := Some (Bird.new 80 (height this / 2));
     pipes := []; score := 0; frameCount := 0;
     groundY := groundY this |}.

Definition spawnPipes (this : t) (g : source) (k : nat) : t * nat :=
  let minGapY := 80 in
  let maxGapY := groundY this - gapHeight - 80 in
  let gapY := draw g k * (maxGapY - minGapY) + minGapY in
  ({| bestScore := bestScore this; gameState := gameState this;
      width := width this; height := height this;
      bird := bird this;
      pipes := pipes this
               ++ [Pipe.new (width this) gapY gapHeight (height this)];
      score := score this; frameCount := frameCount this;
      groundY := groundY this |},
   S k).

Definition start (this : t) (g : source) (k : nat) : t * nat :=
  let this := reset this in
  let this :=
    {| bestScore := bestScore this; gameState := playing;
       width := width this; height := height this;
       bird := bird this; pipes := pipes this;
       score := score this; frameCount := frameCount this;
       groundY := groundY this |} in
  spawnPipes this g k.

Definition flap (this : t) : t :=
  match gameState this with
  | playing =>
      {| bestScore := bestScore this; gameState := gameState this;
         width := width this; height := height this;
         bird := Bird.flap <$> bird this; pipes := pipes this;
         score := score this; frameCount := frameCount this;
         groundY := groundY this |}
  | _ => this
  end.

Definition gameOver (this : t) : t * list event :=
  match bird this with
  | None => (this, [])
  | Some bird =>
      ({| bestScore := bestScore this; gameState := gameover;
          width := width this; height := height this;
          bird := Some (Bird.kill bird); pipes := pipes this;
          score := score this; frameCount := frameCount this;
          groundY := groundY this |},
       [onGameOver (score this)])
  end.

Definition getGameState (this : t) : outcome (option GameState) :=
  match bird this with
  | None => Ok None
  | Some bird =>
      let nextPipe :=
        find (fun pipe => gtb (Pipe.x pipe + Pipe.width pipe) (Bird.x bird))
             (pipes this) in
      normalizedY ← divide (Bird.y bird) (height this) ;
      let normalizedVelocity := (Bird.velocity bird + 15) / 30 in
      normalizedDistance ←
        match nextPipe with
        | Some nextPipe =>
            divide (Pipe.x nextPipe - Bird.x bird) (width this)
        | None => Ok 1
        end ;
      normalizedPipeGapY ←
        match nextPipe with
        | Some nextPipe => divide (Pipe.getGapCenter nextPipe) (height this)
        | None => Ok 0.5
        end ;
      Ok (Some {| birdY := normalizedY;
                  birdVelocity := normalizedVelocity;
                  pipeDistance := normalizedDistance;
                  pipeGapY := normalizedPipeGapY |})
  end.

(** What the loop over the pipes of [update] changes: the array, the
    score, the best score, and the callbacks made. *)
Abbreviation loop := (list Pipe.t * nat * nat * list event)%type
  (only parsing).

(** The body of [for (const pipe of this.pipes)] for the pipe found at
    position [i]; [true] when the bird hit the pipe, where [update] ends
    the game and returns.  The pipe is an object of the array: what the
    body assigns to it is seen at its position. *)
Definition visit (bird : Bird.t) (i : nat) (pipe : Pipe.t) (st : loop)
  : loop * bool :=
  let '(pipes, score, bestScore, events) := st in
  let pipe := Pipe.update pipe in
  if Pipe.checkCollision pipe bird then
    ((<[i := pipe]> pipes, score, bestScore, events), true)
  else
    (* Check if bird passed the pipe *)
    let '(pipe, score, bestScore, events) :=
      if negb (Pipe.passed pipe)
         && ltb (Pipe.x pipe + Pipe.width pipe) (Bird.x bird)
      then
        let score := S score in
        (Pipe.pass pipe, score,
         if (bestScore <? score)%nat then score else bestScore,
         events ++ [onScore score])
      else (pipe, score, bestScore, events) in
    let pipes := <[i := pipe]> pipes in
    (* Remove off-screen pipes: [this.pipes.shift()] *)
    let pipes := if Pipe.isOffScreen pipe then tail pipes else pipes in
    ((pipes, score, bestScore, events), false).

(** [for (const pipe of this.pipes)]: the iterator of an array keeps a
    position, reads the array anew at every step and ends when the
    position is past the end; [i] is that position. *)
Equations? update_pipes (bird : Bird.t) (i : nat) (st : loop) : loop * bool
  by wf (length st.1.1.1 - i)%nat lt :=
  update_pipes bird i st with Equations.Prop.Logic.inspect (st.1.1.1 !! i) := {
    | exist _ None _ => (st, false)
    | exist _ (Some pipe) Hpipe =>
        if (visit bird i pipe st).2 then visit bird i pipe st
        else update_pipes bird (S i) (visit bird i pipe st).1
  }.
Proof.
  apply lookup_lt_Some in Hpipe.
  destruct (Pipe.checkCollision _ _); simpl.
  - rewrite length_insert. lia.
  - destruct (negb _ && _); simpl;
      destruct (Pipe.isOffScreen _); simpl;
      rewrite ?length_tl, ?length_insert; lia.
Qed.

Definition update (this : t) (g : source) (k : nat)
  : outcome (t * nat * list event) :=
  match gameState this, bird this with
  | playing, Some bird =>
      let frameCount := S (frameCount this) in
      let bird := Bird.update bird in
      let this :=
        {| bestScore := bestScore this; gameState := gameState this;
           width := width this; height := height this;
           bird := Some bird; pipes := pipes this;
           score := score this; frameCount := frameCount;
           groundY := groundY this |} in
      (* Check ground/ceiling collision *)
      if gtb (Bird.y bird + Bird.height bird) (groundY this)
         || ltb (Bird.y bird) 0
      then
        let '(this, events) := gameOver this in
        Ok (this, k, events)
      else
        (* Update pipes *)
        let '(pipes, score, bestScore, events, hit) :=
          update_pipes bird 0 (pipes this, score this, bestScore this, []) in
        let this :=
          {| bestScore := bestScore; gameState := gameState this;
             width := width this; height := height this;
             bird := Some bird; pipes := pipes;
             score := score; frameCount := frameCount;
             groundY := groundY this |} in
        if hit then
          let '(this, events') := gameOver this in
          Ok (this, k, events ++ events')
        else
          (* Spawn new pipes *)
          let '(this, k) :=
            if (frameCount mod pipeSpawnInterval =? 0)%nat
            then spawnPipes this g k
            else (this, k) in
          state ← getGameState this ;
          Ok (this, k, events ++ [onStateCapture state])
  | _, _ => Ok (this, k, [])
  end.

Definition isPlaying (this : t) : bool :=
  match gameState this with playing => true | _ => false end.

Definition isGameOver (this : t) : bool :=
  match gameState this with gameover => true | _ => false end.

End Game.

(** ** The colours of the visualizer *)

Module Visualizer.

Local Open Scope R_scope.

(** [{ r, g, b }] *)
Record rgb : Type := mk {
  r : nat;
  g : nat;
  b : nat
}.

(** The text [rgb(r, g, b)] of three whole numbers. *)
Inductive css : Type :=
| Rgb (r g b : Z).

(** One character of the class [[a-f\d]] of the pattern, matched without
    regard to case, with its value as a digit in base 16. *)
Definition hex_digit (c : Ascii.ascii) : option nat :=
  let n := Ascii.nat_of_ascii c in
  if (48 <=? n)%nat && (n <=? 57)%nat then Some (n - 48)%nat
  else if (97 <=? n)%nat && (n <=? 102)%nat then Some (n - 87)%nat
  else if (65 <=? n)%nat && (n <=? 70)%nat then Some (n - 55)%nat
  else None.

(** Convert hex to RGB: the pattern
    [/^#?([a-f\d]{2})([a-f\d]{2})([a-f\d]{2})$/i] matches an optional [#]
    followed by exactly six digits in base 16; each group is read by
    [parseInt(group, 16)]. *)
Definition hexToRgb (hex : string) : rgb :=
  let digits :=
    match hex with
    | String "#"%char rest => rest
    | _ => hex
    end in
  match hex_digit <$> list_ascii_of_string digits with
  | [Some r1; Some r0; Some g1; Some g0; Some b1; Some b0] =>
      {| r := 16 * r1 + r0; g := 16 * g1 + g0; b := 16 * b1 + b0 |}
  | _ => {| r := 0; g := 0; b := 0 |}
  end.

(** [Math.round(x)]: the nearest whole number, halves upwards. *)
Definition round (x : R) : Z := Int_part (x + 0.5).

(** Linear interpolation between two colors. *)
Definition lerpColor (color1 color2 : string) (t : R) : css :=
  let c1 := hexToRgb color1 in
  let c2 := hexToRgb color2 in
  let r := round (INR (r c1) + (INR (r c2) - INR (r c1)) * t) in
  let g := round (INR (g c1) + (INR (g c2) - INR (g c1)) * t) in
  let b := round (INR (b c1) + (INR (b c2) - INR (b c1)) * t) in
  Rgb r g b.

End Visualizer.

(** ** Numbers as the machine has them *)

(** A JavaScript [number] is a binary64 floating-point number, and every
    operation on numbers returns the exact result rounded to the nearest
    such number, to the one with even significand when two are equally
    near.  This module keeps the values real and adds that rounding, with
    53 significant bits and no bound on the exponent: overflow, underflow
    and the special values are not represented.  It has the sigmoid, its
    derivative and the forward pass with every operation rounded, for the
    properties that rounding decides: whether an output can reach 1, and
    what follows when it does. *)
Module Binary64.

Local Open Scope R_scope.

(** The exponent [e] of a number other than zero:
    [2^e <= |x| < 2^(e+1)]. *)
Definition exponent (x : R) : Z := Int_part (ln (Rabs x) / ln 2).

(** The whole number nearest to [m], the even one of the two when [m] is
    half way between them. *)
Definition nearest_even (m : R) : Z :=
  let f := Int_part m in
  if Rlt_dec (m - IZR f) (1 / 2) then f
  else if Rlt_dec (1 / 2) (m - IZR f) then (f + 1)%Z
  else if Z.even f then f else (f + 1)%Z.

(** Rounding to 53 significant bits, to nearest, ties to even. *)
Definition round (x : R) : R :=
  if Req_dec_T x 0 then 0
  else IZR (nearest_even (x * powerRZ 2 (52 - exponent x)))
       * powerRZ 2 (exponent x - 52).

(** [x + y], [x - y], [x * y] and [x / y] on numbers. *)
Definition add (x y : R) : R := round (x + y).
Definition sub (x y : R) : R := round (x - y).
Definition mul (x y : R) : R := round (x * y).
Definition div (x y : R) : R := round (x / y).

(** [Math.exp(x)].  The language leaves its accuracy to the
    implementation; it is taken here as the exponential rounded
    correctly. *)
Definition Math_exp (x : R) : R := round (exp x).

(** [1 / (1 + Math.exp(-Math.max(-500, Math.min(500, x))))]: the minimum,
    the maximum and the negation are exact. *)
Definition sigmoid (x : R) : R :=
  div 1 (add 1 (Math_exp (- Rmax (-500) (Rmin 500 x)))).

(** [x * (1 - x)] *)
Definition sigmoidDerivative (x : R) : R := mul x (sub 1 x).

(** [sum = bias[u]; for i < n: sum += xs[i] * w[i][u]; sigmoid(sum)] *)
Definition unit_activation (n : nat) (xs : list R) (w : list (list R))
    (bias : list R) (u : nat) : outcome R :=
  sum0 ← read bias u ;
  sum ← foldM (fun sum i =>
                  x ← read xs i ;
                  wiu ← read2 w i u ;
                  Ok (add sum (mul x wiu)))
               (range n) sum0 ;
  Ok (sigmoid sum).

Definition forwardPass (this : NeuralNetwork.t) (inputs : list R)
  : outcome (NeuralNetwork.t * list R) :=
  if negb (length inputs =? NeuralNetwork.inputSize this)%nat then
    Throw (DimensionMismatch (NeuralNetwork.inputSize this) (length inputs))
  else
    let lastInputs' := inputs in
    (* Input to Hidden *)
    lastHidden' ← buildM (unit_activation (NeuralNetwork.inputSize this)
                             inputs (NeuralNetwork.weightsIH this)
                             (NeuralNetwork.biasH this))
                          (range (NeuralNetwork.hiddenSize this)) ;
    (* Hidden to Output *)
    lastOutput' ← buildM (unit_activation (NeuralNetwork.hiddenSize this)
                             lastHidden' (NeuralNetwork.weightsHO this)
                             (NeuralNetwork.biasO this))
                          (range (NeuralNetwork.outputSize this)) ;
    Ok (NeuralNetwork.mk
          (NeuralNetwork.inputSize this) (NeuralNetwork.hiddenSize this)
          (NeuralNetwork.outputSize this)
          (NeuralNetwork.weightsIH this) (NeuralNetwork.weightsHO this)
          (NeuralNetwork.biasH this) (NeuralNetwork.biasO this)
          (Some lastInputs') (Some lastHidden') (Some lastOutput'),
        lastOutput').

End Binary64.

(** * Vocabulary of the statements *)

Local Open Scope R_scope.

(** [sigma n f] is the sum of [f i] over [i < n]. *)
Fixpoint sigma (n : nat) (f : nat -> R) : R :=
  match n with
  | O => 0
  | S n' => sigma n' f + f n'
  end.

(** [a[i]] and [m[i][j]] as plain numbers, for positions that exist. *)
Definition at_ (a : list R) (i : nat) : R := nth i a 0.
Definition entry (m : list (list R)) (i j : nat) : R :=
  nth j (nth i m []) 0.

(** [covers rows cols m]: the matrix [m] has the positions [m[i][j]] for
    all [i < rows] and [j < cols]. *)
Definition covers (rows cols : nat) (m : list (list R)) : bool :=
  forallb (fun i => match m !! i with
                    | Some r => (cols <=? length r)%nat
                    | None => false
                    end)
          (range rows).

(** The parameters reach as far as the declared sizes: every position the
    loops of [forwardPass] and [train] touch exists.  The constructor
    establishes this; an import may break it. *)
Definition in_bounds (nn : NeuralNetwork.t) : bool :=
  covers (NeuralNetwork.inputSize nn) (NeuralNetwork.hiddenSize nn)
         (NeuralNetwork.weightsIH nn)
  && covers (NeuralNetwork.hiddenSize nn) (NeuralNetwork.outputSize nn)
            (NeuralNetwork.weightsHO nn)
  && (NeuralNetwork.hiddenSize nn <=? length (NeuralNetwork.biasH nn))%nat
  && (NeuralNetwork.outputSize nn <=? length (NeuralNetwork.biasO nn))%nat.

(** The clamp of the design document: the argument brought into
    [-500, 500]. *)
Definition clamp (x : R) : R :=
  if Rlt_dec x (-500) then -500 else if Rlt_dec 500 x then 500 else x.

(** One unit of a layer as the design document writes it:
    [sigmoid(bias[u] + sum_i xs[i] * w[i][u])]. *)
Definition unit_value (n : nat) (xs : list R) (w : list (list R))
    (bias : list R) (u : nat) : R :=
  NeuralNetwork.sigmoid
    (at_ bias u + sigma n (fun i => at_ xs i * entry w i u)).

(** The hidden and the output layer of a network on an input. *)
Definition hidden_layer (nn : NeuralNetwork.t) (x : list R) : list R :=
  map (unit_value (NeuralNetwork.inputSize nn) x
         (NeuralNetwork.weightsIH nn) (NeuralNetwork.biasH nn))
      (range (NeuralNetwork.hiddenSize nn)).

Definition output_layer (nn : NeuralNetwork.t) (x : list R) : list R :=
  map (unit_value (NeuralNetwork.hiddenSize nn) (hidden_layer nn x)
         (NeuralNetwork.weightsHO nn) (NeuralNetwork.biasO nn))
      (range (NeuralNetwork.outputSize nn)).

(** The network with its three caches replaced. *)
Definition with_caches (nn : NeuralNetwork.t) (x h y : list R)
  : NeuralNetwork.t :=
  NeuralNetwork.mk
    (NeuralNetwork.inputSize nn) (NeuralNetwork.hiddenSize nn)
    (NeuralNetwork.outputSize nn)
    (NeuralNetwork.weightsIH nn) (NeuralNetwork.weightsHO nn)
    (NeuralNetwork.biasH nn) (NeuralNetwork.biasO nn)
    (Some x) (Some h) (Some y).

(** The network of the boundary case: sizes 4/8/1, every weight and every
    bias zero, no forward pass made yet. *)
Definition zero_network : NeuralNetwork.t :=
  NeuralNetwork.mk 4 8 1
    (replicate 4 (replicate 8 0)) (replicate 8 (replicate 1 0))
    (replicate 8 0) (replicate 1 0)
    None None None.

(** [update_prefix n g a]: the array [a] after
    [for (j = 0; j < n; j++) a[j] = g(j, a[j])].
    [update_block rows cols f m]: the matrix [m] after
    [for i < rows: for j < cols: m[i][j] = f(i, j, m[i][j])]. *)
Definition update_prefix (n : nat) (g : nat -> R -> R) (a : list R)
  : list R :=
  imap (fun j x => if (j <? n)%nat then g j x else x) a.

Definition update_block (rows cols : nat) (f : nat -> nat -> R -> R)
    (m : list (list R)) : list (list R) :=
  imap (fun i r => if (i <? rows)%nat then update_prefix cols (f i) r else r)
       m.

(** One assignment of such a loop. *)
Definition set_entry (g : nat -> R -> R) (a : list R) (j : nat) : list R :=
  <[j := g j (at_ a j)]> a.

Definition set_entry2 (f : nat -> nat -> R -> R) (m : list (list R))
    (i j : nat) : list (list R) :=
  <[i := set_entry (f i) (nth i m []) j]> m.

(** What one call of [NeuralNetwork.train] computes, in closed form and in
    the order of operations of the source: the output errors, the hidden
    errors, the state left behind and the value returned. *)
Definition output_errors (nn : NeuralNetwork.t) (x targets : list R)
  : list R :=
  let y := output_layer nn x in
  map (fun o => (at_ targets o - at_ y o)
                * NeuralNetwork.sigmoidDerivative (at_ y o))
      (range (NeuralNetwork.outputSize nn)).

Definition hidden_errors (nn : NeuralNetwork.t) (x targets : list R)
  : list R :=
  let h := hidden_layer nn x in
  let oes := output_errors nn x targets in
  map (fun j => sigma (NeuralNetwork.outputSize nn)
                  (fun o => at_ oes o
                            * entry (NeuralNetwork.weightsHO nn) j o)
                * NeuralNetwork.sigmoidDerivative (at_ h j))
      (range (NeuralNetwork.hiddenSize nn)).

Definition trained (nn : NeuralNetwork.t) (x targets : list R) (lr : R)
  : NeuralNetwork.t :=
  let h := hidden_layer nn x in
  let y := output_layer nn x in
  let oes := output_errors nn x targets in
  let hes := hidden_errors nn x targets in
  NeuralNetwork.mk
    (NeuralNetwork.inputSize nn) (NeuralNetwork.hiddenSize nn)
    (NeuralNetwork.outputSize nn)
    (update_block (NeuralNetwork.inputSize nn) (NeuralNetwork.hiddenSize nn)
       (fun i j w => w + lr * at_ hes j * at_ x i)
       (NeuralNetwork.weightsIH nn))
    (update_block (NeuralNetwork.hiddenSize nn) (NeuralNetwork.outputSize nn)
       (fun j o w => w + lr * at_ oes o * at_ h j)
       (NeuralNetwork.weightsHO nn))
    (update_prefix (NeuralNetwork.hiddenSize nn)
       (fun j b => b + lr * at_ hes j) (NeuralNetwork.biasH nn))
    (update_prefix (NeuralNetwork.outputSize nn)
       (fun o b => b + lr * at_ oes o) (NeuralNetwork.biasO nn))
    (Some x) (Some h) (Some y).

Definition sample_loss (nn : NeuralNetwork.t) (x targets : list R) : R :=
  let y := output_layer nn x in
  sigma (NeuralNetwork.outputSize nn)
        (fun o => (at_ targets o - at_ y o) * (at_ targets o - at_ y o))
  / INR (NeuralNetwork.outputSize nn).

(** The quantities of backpropagation as the design document writes them. *)
Definition output_error (targets y : list R) (o : nat) : R :=
  (at_ targets o - at_ y o) * at_ y o * (1 - at_ y o).

Definition hidden_error (nn : NeuralNetwork.t) (targets h y : list R)
    (j : nat) : R :=
  sigma (NeuralNetwork.outputSize nn)
        (fun o => output_error targets y o
                  * entry (NeuralNetwork.weightsHO nn) j o)
  * at_ h j * (1 - at_ h j).

Definition mean_squared_error (targets y : list R) (n : nat) : R :=
  sigma n (fun o => (at_ targets o - at_ y o) ^ 2) / INR n.

(** The sample [Trainer.addSample] builds. *)
Definition sample_of (gameState : GameState) (optimalAction : R)
  : Trainer.sample :=
  {| Trainer.inputs := [birdY gameState; birdVelocity gameState;
                        pipeDistance gameState; pipeGapY gameState];
     Trainer.target := [optimalAction] |}.

(** Samples added one after the other. *)
Definition add_samples (this : Trainer.t) (news : list (GameState * R))
  : outcome Trainer.t :=
  foldM (fun this '(gameState, a) => Trainer.addSample this (Some gameState) a)
        news this.

(** The trainer with another network, as [App.reset] assigns
    [this.trainer.nn]. *)
Definition with_nn (this : Trainer.t) (nn : NeuralNetwork.t) : Trainer.t :=
  Trainer.mk nn (Trainer.trainingData this) (Trainer.isTraining this)
             (Trainer.trainingStats this).

(** One operation on a trainer, by any of its methods. *)
Inductive step : Trainer.t -> Trainer.t -> Prop :=
| step_addSample this gameState a this' :
    Trainer.addSample this gameState a = Ok this' -> step this this'
| step_collect this gameState this' :
    Trainer.collectFromGameState this gameState = Ok this' -> step this this'
| step_train this lr epochs g k this' loss k' :
    Trainer.train this lr epochs g k = Ok (this', loss, k') -> step this this'
| step_trainStep this lr g k this' k' :
    Trainer.trainStep this lr g k = Ok (Some (this', k')) -> step this this'
| step_startTraining this : step this (Trainer.startTraining this)
| step_stopTraining this : step this (Trainer.stopTraining this)
| step_reset this : step this (Trainer.reset this)
| step_nn this nn : step this (with_nn this nn).

(** A sample fits a network when its input has the declared length and
    its target an entry for every output unit.  A trainer is trainable when
    its network's parameters reach as far as the declared sizes, there is
    an output unit, and every sample of the buffer fits. *)
Definition sample_fits (nn : NeuralNetwork.t) (s : Trainer.sample) : bool :=
  (length (Trainer.inputs s) =? NeuralNetwork.inputSize nn)%nat
  && (NeuralNetwork.outputSize nn <=? length (Trainer.target s))%nat.

Definition trainable (nn : NeuralNetwork.t) (data : list Trainer.sample)
  : bool :=
  in_bounds nn && (0 <? NeuralNetwork.outputSize nn)%nat
  && forallb (sample_fits nn) data.

(** The contiguous chunks of [size] elements of a list, the last one
    possibly shorter. *)
Definition chunks {A} (size : nat) (l : list A) : list (list A) :=
  map (fun b => take size (drop (b * size) l))
      (range ((length l + size - 1) / size)).

(** The shuffled copies of the data that [epochs] epochs train on, in
    order, and the number of draws after the last. *)
Fixpoint epoch_orders (g : source) (data : list Trainer.sample) (k : nat)
    (epochs : nat) : list (list Trainer.sample) * nat :=
  match epochs with
  | O => ([], k)
  | S epochs' =>
      let '(shuffled, k1) := Trainer.shuffle g data k in
      let '(orders, k2) := epoch_orders g data k1 epochs' in
      (shuffled :: orders, k2)
  end.

(** The network after training on the samples of a list in turn, and the
    loss each of these steps returns. *)
Fixpoint trained_on (nn : NeuralNetwork.t) (lr : R)
    (samples : list Trainer.sample) : NeuralNetwork.t :=
  match samples with
  | [] => nn
  | s :: rest =>
      trained_on (trained nn (Trainer.inputs s) (Trainer.target s) lr) lr rest
  end.

Fixpoint losses_on (nn : NeuralNetwork.t) (lr : R)
    (samples : list Trainer.sample) : list R :=
  match samples with
  | [] => []
  | s :: rest =>
      sample_loss nn (Trainer.inputs s) (Trainer.target s)
      :: losses_on (trained nn (Trainer.inputs s) (Trainer.target s) lr)
                   lr rest
  end.

Definition total (xs : list R) : R := foldr Rplus 0 xs.

(** A game state, a source of random numbers and two small networks for
    the examples. *)
Definition still : GameState :=
  {| birdY := 0; birdVelocity := 0; pipeDistance := 0; pipeGapY := 0 |}.

Definition zeros : source :=
  {| draw := fun _ => 0;
     draw_unit := fun _ => conj (Rle_refl 0) Rlt_0_1 |}.

Definition tiny_network : NeuralNetwork.t :=
  NeuralNetwork.mk 1 1 1 [[0]] [[0]] [0] [0] None None None.

Definition full_buffer_trainer : Trainer.t :=
  Trainer.mk zero_network (replicate 32 (sample_of still 1)) false
    {| Trainer.totalSamples := 32; Trainer.currentLoss := 0;
       Trainer.trainedEpochs := 0 |}.

(** The network with the parameters of another. *)
Definition with_parameters (nn src : NeuralNetwork.t) : NeuralNetwork.t :=
  NeuralNetwork.mk
    (NeuralNetwork.inputSize nn) (NeuralNetwork.hiddenSize nn)
    (NeuralNetwork.outputSize nn)
    (NeuralNetwork.weightsIH src) (NeuralNetwork.weightsHO src)
    (NeuralNetwork.biasH src) (NeuralNetwork.biasO src)
    (NeuralNetwork.lastInputs nn) (NeuralNetwork.lastHidden nn)
    (NeuralNetwork.lastOutput nn).

(** The [rows] by [cols] block at the top left of a matrix, and what it is
    for a matrix to be exactly [rows] by [cols]. *)
Definition block (rows cols : nat) (m : list (list R)) : list (list R) :=
  map (fun i => map (fun j => entry m i j) (range cols)) (range rows).

Definition exact (rows cols : nat) (m : list (list R)) : Prop :=
  length m = rows /\ Forall (fun r => length r = cols) m.

(** The clone of a network, whatever the random numbers drawn for the
    initial weights that the copy overwrites. *)
Definition clone_of (nn : NeuralNetwork.t) : NeuralNetwork.t :=
  NeuralNetwork.mk
    (NeuralNetwork.inputSize nn) (NeuralNetwork.hiddenSize nn)
    (NeuralNetwork.outputSize nn)
    (block (NeuralNetwork.inputSize nn) (NeuralNetwork.hiddenSize nn)
       (NeuralNetwork.weightsIH nn))
    (block (NeuralNetwork.hiddenSize nn) (NeuralNetwork.outputSize nn)
       (NeuralNetwork.weightsHO nn))
    (NeuralNetwork.biasH nn) (NeuralNetwork.biasO nn)
    None None None.

(** A store in which a matrix [m] was made after the arrays of [pre] and
    before those of [post]: the array of its rows, then the rows. *)
Definition layout (pre : Heap.store) (m : list (list R)) (post : Heap.store)
  : Heap.store :=
  pre ++ Heap.Rows (seq (S (length pre)) (length m))
      :: (Heap.Numbers <$> m) ++ post.

(** The object [copy] returns and the arrays it makes, for a network [v]
    copied when [n] arrays exist: the matrix input-hidden and its rows, the
    matrix hidden-output and its rows, the two bias arrays of the
    constructor, and the two copies of the source's biases that replace
    them. *)
Definition clone_object (n : nat) (v : NeuralNetwork.t) : Heap.object :=
  let i := NeuralNetwork.inputSize v in
  let h := NeuralNetwork.hiddenSize v in
  Heap.mk i h (NeuralNetwork.outputSize v)
    n (n + S i) (n + S i + S h + 2) (n + S i + S h + 3)
    None None None.

Definition clone_cells (n : nat) (v : NeuralNetwork.t) : Heap.store :=
  let i := NeuralNetwork.inputSize v in
  let h := NeuralNetwork.hiddenSize v in
  let o := NeuralNetwork.outputSize v in
  Heap.Rows (seq (S n) i)
  :: (Heap.Numbers <$> block i h (NeuralNetwork.weightsIH v))
  ++ Heap.Rows (seq (S (n + S i)) h)
  :: (Heap.Numbers <$> block h o (NeuralNetwork.weightsHO v))
  ++ [Heap.Numbers (replicate h 0); Heap.Numbers (replicate o 0);
      Heap.Numbers (NeuralNetwork.biasH v);
      Heap.Numbers (NeuralNetwork.biasO v)].

(** The number of draws after a network of the sizes of [nn] has been
    constructed. *)
Definition draws_after (nn : NeuralNetwork.t) (g : source) (k : nat) : nat :=
  (NeuralNetwork.initializeWeights g
     (NeuralNetwork.hiddenSize nn) (NeuralNetwork.outputSize nn)
     (NeuralNetwork.initializeWeights g
        (NeuralNetwork.inputSize nn) (NeuralNetwork.hiddenSize nn) k).2).2.

(** ** Vocabulary of the further properties *)

(** Two networks with the same declared sizes and the same parameters. *)
Definition same_parameters (a b : NeuralNetwork.t) : Prop :=
  NeuralNetwork.inputSize a = NeuralNetwork.inputSize b /\
  NeuralNetwork.hiddenSize a = NeuralNetwork.hiddenSize b /\
  NeuralNetwork.outputSize a = NeuralNetwork.outputSize b /\
  NeuralNetwork.weightsIH a = NeuralNetwork.weightsIH b /\
  NeuralNetwork.weightsHO a = NeuralNetwork.weightsHO b /\
  NeuralNetwork.biasH a = NeuralNetwork.biasH b /\
  NeuralNetwork.biasO a = NeuralNetwork.biasO b.

(** *** The game *)

(** What a bird made by [Game.reset] keeps for life: its place across
    the screen, its size, its gravity and the force of its flap; and a
    velocity between that force and the terminal velocity. *)
Definition standard_bird (b : Bird.t) : Prop :=
  Bird.x b = 80 /\ Bird.width b = 34 /\ Bird.height b = 24 /\
  Bird.gravity b = 0.6 /\ Bird.flapForce b = -8 /\
  -8 <= Bird.velocity b <= 12.

(** What a pipe made by [Game.spawnPipes] on a canvas of [w] by [h]
    keeps: its size, its speed, the height of its gap, a place that is not
    right of the canvas and, on a canvas at least 360 high, a gap that
    starts between 80 and [h - 280]. *)
Definition standard_pipe (w h : R) (p : Pipe.t) : Prop :=
  Pipe.width p = 60 /\ Pipe.speed p = 3 /\ Pipe.gapHeight p = 150 /\
  Pipe.canvasHeight p = h /\ Pipe.x p <= w /\
  (360 <= h -> 80 <= Pipe.gapY p <= h - 280).

Definition game_invariant (w h : R) (this : Game.t) : Prop :=
  Game.width this = w /\ Game.height this = h /\
  Game.groundY this = h - 50 /\
  (Game.score this <= Game.bestScore this)%nat /\
  (forall b, Game.bird this = Some b -> standard_bird b) /\
  (Game.gameState this = Game.playing ->
   exists b, Game.bird this = Some b /\ Bird.alive b = true) /\
  (Game.gameState this = Game.gameover ->
   exists b, Game.bird this = Some b /\ Bird.alive b = false) /\
  Forall (standard_pipe w h) (Game.pipes this).

(** One operation on a bird, and one on a game, by any of their
    methods. *)
Inductive bird_step : Bird.t -> Bird.t -> Prop :=
| bird_flap b : bird_step b (Bird.flap b)
| bird_update b : bird_step b (Bird.update b)
| bird_kill b : bird_step b (Bird.kill b).

Inductive game_step : Game.t -> Game.t -> Prop :=
| game_reset this : game_step this (Game.reset this)
| game_start this g k : game_step this (Game.start this g k).1
| game_flap this : game_step this (Game.flap this)
| game_gameOver this : game_step this (Game.gameOver this).1
| game_update this g k this' k' events :
    Game.update this g k = Ok (this', k', events) -> game_step this this'.

(** A pipe that the bird passes in this frame, and the pipe as a frame
    leaves it when the bird does not hit it. *)
Definition passes (bird : Bird.t) (pipe : Pipe.t) : bool :=
  negb (Pipe.passed pipe)
  && ltb (Pipe.x (Pipe.update pipe) + Pipe.width pipe) (Bird.x bird).

Definition moved (bird : Bird.t) (pipe : Pipe.t) : Pipe.t :=
  if passes bird pipe then Pipe.pass (Pipe.update pipe)
  else Pipe.update pipe.

(** A pipe that, once moved, the bird does not hit and that is still on
    the screen. *)
Definition calm (bird : Bird.t) (pipe : Pipe.t) : Prop :=
  Pipe.checkCollision (Pipe.update pipe) bird = false /\
  Pipe.isOffScreen (Pipe.update pipe) = false.

(** The number of pipes of a list that the bird passes in this frame. *)
Definition scored (bird : Bird.t) (pipes : list Pipe.t) : nat :=
  length (List.filter (passes bird) pipes).

(** A game in play for the examples: a canvas of 400 by 600, the bird in
    the middle, no pipe. *)
Definition game_in_play : Game.t :=
  {| Game.bestScore := 0; Game.gameState := Game.playing;
     Game.width := 400; Game.height := 600;
     Game.bird := Some (Bird.new 80 300); Game.pipes := [];
     Game.score := 0; Game.frameCount := 0; Game.groundY := 550 |}.

(** A callback that reports a score. *)
Definition is_score (ev : Game.event) : Prop :=
  exists n, ev = Game.onScore n.

(** The source [g] with the number [r] at position [k]. *)
Definition with_draw (g : source) (k : nat) (r : R) (Hr : 0 <= r < 1)
  : source :=
  {| draw := fun m => if (m =? k)%nat then r else draw g m;
     draw_unit := fun m =>
       match (m =? k)%nat as b
         return 0 <= (if b then r else draw g m) < 1 with
       | true => Hr
       | false => draw_unit g m
       end |}.

(** *** The forward pass as the machine computes it *)





(** The margin of the label: one part in [2^40] of the gap centre and of
    the velocity above one half, taken without their signs. *)
Definition label_margin (gs : GameState) : R :=
  (Rabs (pipeGapY gs) + Rabs (birdVelocity gs - 1 / 2)) / powerRZ 2 40.

(** * Properties *)

(** ** Loops that do not fail *)

Lemma foldM_Ok {A S} (P : S -> Prop) (body : S -> A -> outcome S)
    (step : S -> A -> S) (xs : list A) (s : S) :
  P s ->
  (forall s x, x ∈ xs -> P s -> body s x = Ok (step s x) /\ P (step s x)) ->
  foldM body xs s = Ok (foldl step s xs) /\ P (foldl step s xs).
Proof.
  revert s. induction xs as [|x xs IH]; intros s Hs Hbody; simpl.
  - split; [reflexivity | exact Hs].
  - destruct (Hbody s x) as [-> Hs']; [left | exact Hs |].
    simpl. apply IH; [exact Hs' |].
    intros s0 x0 Hx0. apply Hbody. right. exact Hx0.
Qed.

Lemma foldM_Ok' {A S} (body : S -> A -> outcome S) (step : S -> A -> S)
    (xs : list A) (s : S) :
  (forall s x, x ∈ xs -> body s x = Ok (step s x)) ->
  foldM body xs s = Ok (foldl step s xs).
Proof.
  intros H. apply (foldM_Ok (fun _ => True)); [exact I |].
  intros s0 x Hx _. split; [apply H, Hx | exact I].
Qed.

Lemma buildM_Ok {A B} (f : A -> outcome B) (g : A -> B) (xs : list A) :
  (forall x, x ∈ xs -> f x = Ok (g x)) ->
  buildM f xs = Ok (map g xs).
Proof.
  induction xs as [|x xs IH]; intros H; simpl; [reflexivity |].
  rewrite (H x) by left. simpl.
  rewrite IH; [reflexivity |].
  intros y Hy. apply H. right. exact Hy.
Qed.

Lemma elem_of_range (n i : nat) : i ∈ range n <-> (i < n)%nat.
Proof. unfold range. rewrite elem_of_seq. lia. Qed.

Lemma range_S (n : nat) : range (S n) = range n ++ [n].
Proof. unfold range. rewrite seq_S. reflexivity. Qed.

Lemma length_range (n : nat) : length (range n) = n.
Proof. apply length_seq. Qed.

Lemma nth_map_range {B} (f : nat -> B) (n i : nat) (d : B) :
  (i < n)%nat -> nth i (map f (range n)) d = f i.
Proof.
  intros Hi. unfold range.
  rewrite nth_lookup, list_lookup_fmap, lookup_seq_lt by exact Hi.
  reflexivity.
Qed.

(** ** Sums *)

Lemma foldl_sum (f : nat -> R) (n : nat) (s0 : R) :
  foldl (fun s i => s + f i) s0 (range n) = s0 + sigma n f.
Proof.
  induction n as [|n IH].
  - unfold range. simpl. lra.
  - rewrite range_S, foldl_app. simpl. rewrite IH. lra.
Qed.

Lemma sigma_ext (n : nat) (f g : nat -> R) :
  (forall i, (i < n)%nat -> f i = g i) -> sigma n f = sigma n g.
Proof.
  induction n as [|n IH]; intros H; simpl; [reflexivity |].
  rewrite IH, H by (intros; try apply H; lia). reflexivity.
Qed.

Lemma sigma_nonneg (n : nat) (f : nat -> R) :
  (forall i, (i < n)%nat -> 0 <= f i) -> 0 <= sigma n f.
Proof.
  induction n as [|n IH]; intros H; simpl; [lra |].
  specialize (H n ltac:(lia)) as Hn.
  assert (0 <= sigma n f) by (apply IH; intros; apply H; lia).
  lra.
Qed.

(** ** Reads inside an array *)

Lemma read_Ok (a : list R) (i : nat) :
  (i < length a)%nat -> read a i = Ok (nth i a 0).
Proof.
  intros Hi. unfold read.
  destruct (lookup_lt_is_Some_2 a i Hi) as [x Hx].
  rewrite Hx. erewrite nth_lookup_Some by exact Hx. reflexivity.
Qed.

Lemma read2_Ok (m : list (list R)) (i j : nat) (r : list R) :
  m !! i = Some r -> (j < length r)%nat -> read2 m i j = Ok (entry m i j).
Proof.
  intros Hr Hj. unfold read2, row, entry. rewrite Hr. simpl.
  erewrite (nth_lookup_Some m i [] r) by exact Hr.
  apply read_Ok, Hj.
Qed.

Lemma covers_spec (rows cols : nat) (m : list (list R)) :
  covers rows cols m = true <->
  forall i, (i < rows)%nat ->
    exists r, m !! i = Some r /\ (cols <= length r)%nat.
Proof.
  unfold covers. rewrite forallb_forall. split.
  - intros H i Hi.
    specialize (H i). rewrite <- list_elem_of_In, elem_of_range in H.
    specialize (H Hi). destruct (m !! i) as [r|]; [|discriminate].
    exists r. split; [reflexivity | apply Nat.leb_le, H].
  - intros H i. rewrite <- list_elem_of_In, elem_of_range. intros Hi.
    destruct (H i Hi) as (r & -> & Hr). apply Nat.leb_le, Hr.
Qed.

Lemma covers_read2 (rows cols : nat) (m : list (list R)) (i j : nat) :
  covers rows cols m = true -> (i < rows)%nat -> (j < cols)%nat ->
  read2 m i j = Ok (entry m i j).
Proof.
  intros Hm Hi Hj. destruct (proj1 (covers_spec _ _ _) Hm i Hi) as (r & Hr & Hl).
  eapply read2_Ok; [exact Hr | lia].
Qed.

Lemma in_bounds_spec (nn : NeuralNetwork.t) :
  in_bounds nn = true <->
  covers (NeuralNetwork.inputSize nn) (NeuralNetwork.hiddenSize nn)
         (NeuralNetwork.weightsIH nn) = true /\
  covers (NeuralNetwork.hiddenSize nn) (NeuralNetwork.outputSize nn)
         (NeuralNetwork.weightsHO nn) = true /\
  (NeuralNetwork.hiddenSize nn <= length (NeuralNetwork.biasH nn))%nat /\
  (NeuralNetwork.outputSize nn <= length (NeuralNetwork.biasO nn))%nat.
Proof.
  unfold in_bounds. rewrite !andb_true_iff, !Nat.leb_le. tauto.
Qed.

(** ** The forward pass *)

Lemma unit_activation_Ok (n : nat) (xs : list R) (w : list (list R))
    (bias : list R) (cols u : nat) :
  (n <= length xs)%nat -> covers n cols w = true -> (u < cols)%nat ->
  (u < length bias)%nat ->
  NeuralNetwork.unit_activation n xs w bias u = Ok (unit_value n xs w bias u).
Proof.
  intros Hxs Hw Hu Hb. unfold NeuralNetwork.unit_activation, unit_value.
  rewrite (read_Ok bias u Hb). simpl.
  rewrite (foldM_Ok' _ (fun s i => s + at_ xs i * entry w i u)).
  - simpl. rewrite foldl_sum. reflexivity.
  - intros s i Hi. apply elem_of_range in Hi.
    rewrite read_Ok by lia. simpl.
    rewrite (covers_read2 n cols) by assumption. reflexivity.
Qed.

Lemma length_hidden_layer (nn : NeuralNetwork.t) (x : list R) :
  length (hidden_layer nn x) = NeuralNetwork.hiddenSize nn.
Proof. unfold hidden_layer. rewrite length_map. apply length_range. Qed.

Lemma length_output_layer (nn : NeuralNetwork.t) (x : list R) :
  length (output_layer nn x) = NeuralNetwork.outputSize nn.
Proof. unfold output_layer. rewrite length_map. apply length_range. Qed.

Lemma forwardPass_Ok (nn : NeuralNetwork.t) (x : list R) :
  in_bounds nn = true -> length x = NeuralNetwork.inputSize nn ->
  NeuralNetwork.forwardPass nn x =
    Ok (with_caches nn x (hidden_layer nn x) (output_layer nn x),
        output_layer nn x).
Proof.
  intros Hnn Hx. apply in_bounds_spec in Hnn as (Hih & Hho & Hbh & Hbo).
  unfold NeuralNetwork.forwardPass.
  rewrite Hx, Nat.eqb_refl. simpl.
  rewrite (buildM_Ok _ (unit_value (NeuralNetwork.inputSize nn) x
                          (NeuralNetwork.weightsIH nn) (NeuralNetwork.biasH nn))).
  2:{ intros h Hh. apply elem_of_range in Hh.
      apply (unit_activation_Ok _ _ _ _ (NeuralNetwork.hiddenSize nn));
        [lia | assumption | assumption | lia]. }
  simpl. fold (hidden_layer nn x).
  rewrite (buildM_Ok _ (unit_value (NeuralNetwork.hiddenSize nn)
                          (hidden_layer nn x)
                          (NeuralNetwork.weightsHO nn) (NeuralNetwork.biasO nn))).
  2:{ intros o Ho. apply elem_of_range in Ho.
      apply (unit_activation_Ok _ _ _ _ (NeuralNetwork.outputSize nn));
        [rewrite length_hidden_layer; lia | assumption | assumption | lia]. }
  reflexivity.
Qed.

(** ** Loops that assign to the positions of an array in turn *)

Lemma at_lookup (a : list R) (i : nat) (x : R) :
  a !! i = Some x -> at_ a i = x.
Proof. apply nth_lookup_Some. Qed.

Lemma at_update_prefix (n : nat) (g : nat -> R -> R) (a : list R) (j : nat) :
  (j < length a)%nat ->
  at_ (update_prefix n g a) j
  = if (j <? n)%nat then g j (at_ a j) else at_ a j.
Proof.
  intros Hj. destruct (lookup_lt_is_Some_2 a j Hj) as [x Hx].
  rewrite (at_lookup a j x Hx). apply at_lookup.
  unfold update_prefix. rewrite list_lookup_imap, Hx. reflexivity.
Qed.

Lemma length_update_prefix (n : nat) (g : nat -> R -> R) (a : list R) :
  length (update_prefix n g a) = length a.
Proof. apply length_imap. Qed.

Lemma foldl_set_entry (g : nat -> R -> R) (a : list R) (n : nat) :
  foldl (set_entry g) a (range n) = update_prefix n g a.
Proof.
  induction n as [|n IH].
  - apply list_eq. intros i. unfold update_prefix.
    rewrite list_lookup_imap. simpl. destruct (a !! i); reflexivity.
  - rewrite range_S, foldl_app, IH. simpl. unfold set_entry.
    apply list_eq. intros i.
    rewrite list_lookup_insert, length_update_prefix.
    unfold update_prefix at 2 3. rewrite !list_lookup_imap.
    destruct (decide (n = i /\ (n < length a)%nat)) as [[-> Hn]|Hne].
    + rewrite at_update_prefix by exact Hn.
      rewrite Nat.ltb_irrefl.
      destruct (lookup_lt_is_Some_2 a i Hn) as [x Hx].
      rewrite Hx, (at_lookup a i x Hx). simpl.
      replace (i <? S i)%nat with true by (symmetry; apply Nat.ltb_lt; lia).
      reflexivity.
    + destruct (a !! i) as [x|] eqn:Hx; [|reflexivity]. simpl.
      apply lookup_lt_Some in Hx as Hi.
      assert (n <> i) by (intros ->; apply Hne; split; [reflexivity | exact Hi]).
      destruct (Nat.ltb_spec i n), (Nat.ltb_spec i (S n));
        try reflexivity; lia.
Qed.

Lemma nth_insert_eq (m : list (list R)) (i : nat) (r : list R) :
  (i < length m)%nat -> nth i (<[i := r]> m) [] = r.
Proof.
  intros Hi. apply nth_lookup_Some, list_lookup_insert_eq, Hi.
Qed.

Lemma foldl_set_entry2_row (f : nat -> nat -> R -> R) (m : list (list R))
    (i n : nat) :
  (i < length m)%nat ->
  foldl (fun m j => set_entry2 f m i j) m (range n)
  = <[i := update_prefix n (f i) (nth i m [])]> m.
Proof.
  intros Hi. rewrite <- foldl_set_entry.
  induction n as [|n IH].
  - simpl. symmetry. apply list_insert_id.
    destruct (lookup_lt_is_Some_2 m i Hi) as [r Hr].
    rewrite Hr. f_equal. symmetry. apply nth_lookup_Some, Hr.
  - rewrite range_S, !foldl_app, IH. simpl. unfold set_entry2.
    rewrite nth_insert_eq by exact Hi.
    apply list_insert_insert_eq.
Qed.

Lemma length_update_block (rows cols : nat) (f : nat -> nat -> R -> R)
    (m : list (list R)) :
  length (update_block rows cols f m) = length m.
Proof. apply length_imap. Qed.

Lemma foldl_set_entry2 (f : nat -> nat -> R -> R) (m : list (list R))
    (rows cols : nat) :
  foldl (fun m i => foldl (fun m j => set_entry2 f m i j) m (range cols))
        m (range rows)
  = update_block rows cols f m.
Proof.
  induction rows as [|rows IH].
  - apply list_eq. intros i. unfold update_block.
    rewrite list_lookup_imap. simpl. destruct (m !! i); reflexivity.
  - rewrite range_S, foldl_app, IH. simpl.
    destruct (decide (rows < length m)%nat) as [Hr|Hr].
    + rewrite foldl_set_entry2_row by (rewrite length_update_block; exact Hr).
      apply list_eq. intros i.
      rewrite list_lookup_insert, length_update_block.
      unfold update_block. rewrite !list_lookup_imap.
      destruct (lookup_lt_is_Some_2 m rows Hr) as [r Hrow].
      destruct (decide (rows = i /\ (rows < length m)%nat)) as [[-> _]|Hne].
      * rewrite Hrow. simpl.
        replace (i <? S i)%nat with true by (symmetry; apply Nat.ltb_lt; lia).
        f_equal. f_equal. apply nth_lookup_Some.
        rewrite list_lookup_imap, Hrow. simpl.
        rewrite Nat.ltb_irrefl. reflexivity.
      * destruct (m !! i) as [x|] eqn:Hx; [|reflexivity]. simpl.
        assert (rows <> i) by (intros ->; apply Hne; split; [reflexivity | exact Hr]).
        destruct (Nat.ltb_spec i rows), (Nat.ltb_spec i (S rows));
          try reflexivity; lia.
    + assert (Hsame : forall m' : list (list R), length m' = length m ->
                forall n, foldl (fun m j => set_entry2 f m rows j) m' (range n)
                          = m').
      { intros m' Hm' n. induction n as [|n IHn]; [reflexivity |].
        rewrite range_S, foldl_app, IHn. simpl. unfold set_entry2.
        apply list_insert_ge. lia. }
      rewrite Hsame by apply length_update_block.
      apply list_eq. intros i. unfold update_block.
      rewrite !list_lookup_imap.
      destruct (m !! i) as [x|] eqn:Hx; [|reflexivity]. simpl.
      apply lookup_lt_Some in Hx.
      destruct (Nat.ltb_spec i rows), (Nat.ltb_spec i (S rows));
        try reflexivity; lia.
Qed.

Lemma entry_update_block (rows cols : nat) (f : nat -> nat -> R -> R)
    (m : list (list R)) (i j : nat) :
  covers rows cols m = true -> (i < rows)%nat -> (j < cols)%nat ->
  entry (update_block rows cols f m) i j = f i j (entry m i j).
Proof.
  intros Hm Hi Hj.
  destruct (proj1 (covers_spec _ _ _) Hm i Hi) as (r & Hr & Hl).
  unfold entry.
  rewrite (nth_lookup_Some m i [] r Hr).
  rewrite (nth_lookup_Some _ i [] (update_prefix cols (f i) r)).
  - fold (at_ (update_prefix cols (f i) r) j).
    rewrite at_update_prefix by lia.
    replace (j <? cols)%nat with true by (symmetry; apply Nat.ltb_lt; lia).
    reflexivity.
  - unfold update_block. rewrite list_lookup_imap, Hr. simpl.
    replace (i <? rows)%nat with true by (symmetry; apply Nat.ltb_lt; lia).
    reflexivity.
Qed.

Lemma row_lengths_update_block (rows cols : nat) (f : nat -> nat -> R -> R)
    (m : list (list R)) :
  length <$> update_block rows cols f m = length <$> m.
Proof.
  apply list_eq. intros i. unfold update_block.
  rewrite !list_lookup_fmap, list_lookup_imap.
  destruct (m !! i) as [r|]; [|reflexivity]. simpl.
  destruct (i <? rows)%nat; [|reflexivity].
  rewrite length_update_prefix. reflexivity.
Qed.

Lemma covers_row_lengths (rows cols : nat) (m m' : list (list R)) :
  length <$> m' = length <$> m -> covers rows cols m' = covers rows cols m.
Proof.
  intros H. unfold covers.
  induction (range rows) as [|i l IH]; simpl; [reflexivity |].
  rewrite IH. f_equal.
  assert (Hi : (length <$> m') !! i = (length <$> m) !! i) by (rewrite H; reflexivity).
  rewrite !list_lookup_fmap in Hi.
  destruct (m' !! i), (m !! i); simpl in Hi; try discriminate; [|reflexivity].
  injection Hi as ->. reflexivity.
Qed.

(** ** Loops of the source against their closed forms *)

Lemma row_lengths_set_entry2 (f : nat -> nat -> R -> R) (m : list (list R))
    (i j : nat) :
  length <$> set_entry2 f m i j = length <$> m.
Proof.
  unfold set_entry2, set_entry. rewrite list_fmap_insert, length_insert.
  apply list_insert_id'. intros Hi. rewrite length_fmap in Hi.
  destruct (lookup_lt_is_Some_2 m i Hi) as [r Hr].
  rewrite list_lookup_fmap, Hr. simpl.
  rewrite (nth_lookup_Some m i [] r Hr). reflexivity.
Qed.

Lemma foldM_block (body : list (list R) -> nat -> nat -> outcome (list (list R)))
    (f : nat -> nat -> R -> R) (rows cols : nat) (m : list (list R)) :
  covers rows cols m = true ->
  (forall m' i j, covers rows cols m' = true ->
     (i < rows)%nat -> (j < cols)%nat ->
     body m' i j = Ok (set_entry2 f m' i j)) ->
  foldM (fun m i => foldM (fun m j => body m i j) (range cols) m)
        (range rows) m
  = Ok (update_block rows cols f m).
Proof.
  intros Hm Hbody. rewrite <- foldl_set_entry2.
  apply (foldM_Ok (fun m' => covers rows cols m' = true)); [exact Hm |].
  intros m1 i Hi Hm1. apply elem_of_range in Hi.
  apply (foldM_Ok (fun m' => covers rows cols m' = true)); [exact Hm1 |].
  intros m2 j Hj Hm2. apply elem_of_range in Hj.
  split; [apply Hbody; assumption |].
  rewrite (covers_row_lengths _ _ m2); [exact Hm2 |].
  apply row_lengths_set_entry2.
Qed.

Lemma foldM_prefix (body : list R -> nat -> outcome (list R))
    (g : nat -> R -> R) (n : nat) (a : list R) :
  (n <= length a)%nat ->
  (forall a' j, (n <= length a')%nat -> (j < n)%nat ->
     body a' j = Ok (set_entry g a' j)) ->
  foldM body (range n) a = Ok (update_prefix n g a).
Proof.
  intros Ha Hbody. rewrite <- foldl_set_entry.
  apply (foldM_Ok (fun a' => (n <= length a')%nat)); [exact Ha |].
  intros a1 j Hj Ha1. apply elem_of_range in Hj.
  split; [apply Hbody; assumption |].
  unfold set_entry. rewrite length_insert. exact Ha1.
Qed.

Lemma add_at_Ok (g : nat -> R -> R) (a : list R) (j : nat) (d : R) :
  (j < length a)%nat -> (forall w, g j w = w + d) ->
  add_at a j d = Ok (set_entry g a j).
Proof.
  intros Hj Hg. unfold add_at, set_entry.
  rewrite read_Ok by exact Hj. simpl. fold (at_ a j). rewrite Hg. reflexivity.
Qed.

Lemma add_at2_Ok (f : nat -> nat -> R -> R) (rows cols : nat)
    (m : list (list R)) (i j : nat) (d : R) :
  covers rows cols m = true -> (i < rows)%nat -> (j < cols)%nat ->
  (forall w, f i j w = w + d) ->
  add_at2 m i j d = Ok (set_entry2 f m i j).
Proof.
  intros Hm Hi Hj Hf.
  destruct (proj1 (covers_spec _ _ _) Hm i Hi) as (r & Hr & Hl).
  unfold add_at2, row, set_entry2, set_entry. rewrite Hr. simpl.
  rewrite read_Ok by lia. simpl.
  rewrite (nth_lookup_Some m i [] r Hr). fold (at_ r j).
  rewrite Hf. reflexivity.
Qed.

Lemma write2_Ok (f : nat -> nat -> R -> R) (rows cols : nat)
    (m : list (list R)) (i j : nat) (v : R) :
  covers rows cols m = true -> (i < rows)%nat -> (j < cols)%nat ->
  (forall w, f i j w = v) ->
  write2 m i j v = Ok (set_entry2 f m i j).
Proof.
  intros Hm Hi Hj Hf.
  destruct (proj1 (covers_spec _ _ _) Hm i Hi) as (r & Hr & Hl).
  unfold write2, row, write, set_entry2, set_entry. rewrite Hr. simpl.
  replace (j <? length r)%nat with true by (symmetry; apply Nat.ltb_lt; lia).
  simpl. rewrite (nth_lookup_Some m i [] r Hr), Hf. reflexivity.
Qed.

Lemma divide_Ok (x y : R) : y <> 0 -> divide x y = Ok (x / y).
Proof.
  intros Hy. unfold divide. destruct (Req_dec_T y 0); [contradiction | reflexivity].
Qed.

Lemma foldl_errors (oe sq : nat -> R) (n : nat) :
  foldl (fun (s : list R * R) o => (s.1 ++ [oe o], s.2 + sq o)) ([], 0)
        (range n)
  = (map oe (range n), sigma n sq).
Proof.
  induction n as [|n IH]; [reflexivity |].
  rewrite range_S, foldl_app, IH, map_app. simpl. reflexivity.
Qed.

(** ** The sigmoid *)

Lemma sigmoid_clamp (x : R) : Rmax (-500) (Rmin 500 x) = clamp x.
Proof.
  unfold Rmax, Rmin, clamp.
  repeat (destruct (Rle_dec _ _) || destruct (Rlt_dec _ _)); lra.
Qed.

Lemma clamp_range (x : R) : -500 <= clamp x <= 500.
Proof. unfold clamp. repeat destruct (Rlt_dec _ _); lra. Qed.

Lemma clamp_inside (x : R) : -500 <= x <= 500 -> clamp x = x.
Proof. unfold clamp. repeat destruct (Rlt_dec _ _); lra. Qed.

Lemma sigmoid_range (x : R) : 0 < NeuralNetwork.sigmoid x < 1.
Proof.
  unfold NeuralNetwork.sigmoid.
  pose proof (exp_pos (- Rmax (-500) (Rmin 500 x))) as He.
  set (e := exp _) in *.
  assert (H0 : 0 < / (1 + e)) by (apply Rinv_0_lt_compat; lra).
  assert (H1 : / (1 + e) < / 1).
  { apply Rinv_lt_contravar; lra. }
  rewrite Rinv_1 in H1. unfold Rdiv. lra.
Qed.

Lemma sigmoid_0 : NeuralNetwork.sigmoid 0 = 1 / 2.
Proof.
  unfold NeuralNetwork.sigmoid.
  rewrite sigmoid_clamp, clamp_inside by lra.
  rewrite Ropp_0, exp_0. lra.
Qed.

(** ** C2: what the forward pass computes *)

(** C2.  On an input of the declared length, to a network whose parameters
    reach as far as its declared sizes, [forwardPass] returns the vector
    [y] with [y_o = sigmoid(biasO[o] + sum_j h_j * weightsHO[j][o])], where
    [h_j = sigmoid(biasH[j] + sum_i x_i * weightsIH[i][j])]; [sigmoid]
    applies [1 / (1 + exp (- c))] to the argument [c] clamped to
    [-500, 500]; the three caches are replaced by exactly [x], [h] and [y],
    so that afterwards the cached hidden and output vectors are these
    functions of the cached input and of the parameters of the new state. *)
Theorem forwardPass_computes_layers (nn : NeuralNetwork.t) (x : list R) :
  in_bounds nn = true ->
  length x = NeuralNetwork.inputSize nn ->
  exists (nn' : NeuralNetwork.t) (h y : list R),
    NeuralNetwork.forwardPass nn x = Ok (nn', y) /\
    length h = NeuralNetwork.hiddenSize nn /\
    length y = NeuralNetwork.outputSize nn /\
    (forall j, (j < NeuralNetwork.hiddenSize nn)%nat ->
       at_ h j =
       NeuralNetwork.sigmoid
         (at_ (NeuralNetwork.biasH nn) j +
          sigma (NeuralNetwork.inputSize nn)
                (fun i => at_ x i * entry (NeuralNetwork.weightsIH nn) i j))) /\
    (forall o, (o < NeuralNetwork.outputSize nn)%nat ->
       at_ y o =
       NeuralNetwork.sigmoid
         (at_ (NeuralNetwork.biasO nn) o +
          sigma (NeuralNetwork.hiddenSize nn)
                (fun j => at_ h j * entry (NeuralNetwork.weightsHO nn) j o))) /\
    (forall z, NeuralNetwork.sigmoid z = 1 / (1 + exp (- clamp z)) /\
               -500 <= clamp z <= 500) /\
    NeuralNetwork.lastInputs nn' = Some x /\
    NeuralNetwork.lastHidden nn' = Some h /\
    NeuralNetwork.lastOutput nn' = Some y /\
    (forall j, (j < NeuralNetwork.hiddenSize nn')%nat ->
       at_ h j =
       NeuralNetwork.sigmoid
         (at_ (NeuralNetwork.biasH nn') j +
          sigma (NeuralNetwork.inputSize nn')
                (fun i => at_ x i * entry (NeuralNetwork.weightsIH nn') i j))) /\
    (forall o, (o < NeuralNetwork.outputSize nn')%nat ->
       at_ y o =
       NeuralNetwork.sigmoid
         (at_ (NeuralNetwork.biasO nn') o +
          sigma (NeuralNetwork.hiddenSize nn')
                (fun j => at_ h j * entry (NeuralNetwork.weightsHO nn') j o))).
Proof.
  intros Hnn Hx.
  exists (with_caches nn x (hidden_layer nn x) (output_layer nn x)),
         (hidden_layer nn x), (output_layer nn x).
  assert (Hh : forall j, (j < NeuralNetwork.hiddenSize nn)%nat ->
            at_ (hidden_layer nn x) j =
            unit_value (NeuralNetwork.inputSize nn) x
              (NeuralNetwork.weightsIH nn) (NeuralNetwork.biasH nn) j).
  { intros j Hj. unfold at_, hidden_layer. apply nth_map_range, Hj. }
  assert (Hy : forall o, (o < NeuralNetwork.outputSize nn)%nat ->
            at_ (output_layer nn x) o =
            unit_value (NeuralNetwork.hiddenSize nn) (hidden_layer nn x)
              (NeuralNetwork.weightsHO nn) (NeuralNetwork.biasO nn) o).
  { intros o Ho. unfold at_, output_layer. apply nth_map_range, Ho. }
  split; [apply forwardPass_Ok; assumption |].
  split; [apply length_hidden_layer |].
  split; [apply length_output_layer |].
  split; [exact Hh |]. split; [exact Hy |].
  split.
  { intros z. split; [|apply clamp_range].
    unfold NeuralNetwork.sigmoid. rewrite sigmoid_clamp. reflexivity. }
  simpl. repeat split; assumption.
Qed.

Lemma forwardPass_computes_layers_witness :
  exists (nn' : NeuralNetwork.t) (y : list R),
    NeuralNetwork.forwardPass zero_network [0; 0; 0; 0] = Ok (nn', y) /\
    NeuralNetwork.lastInputs nn' = Some [0; 0; 0; 0] /\
    NeuralNetwork.lastOutput nn' = Some y.
Proof.
  destruct (forwardPass_computes_layers zero_network [0; 0; 0; 0])
    as (nn' & h & y & H & _ & _ & _ & _ & _ & Hx & _ & Hy & _).
  - reflexivity.
  - reflexivity.
  - exists nn', y. repeat split; assumption.
Defined.

(** ** C5: length and range of the output *)

Lemma output_layer_range (nn : NeuralNetwork.t) (x : list R) (v : R) :
  v ∈ output_layer nn x -> 0 < v < 1.
Proof.
  unfold output_layer. intros Hv.
  apply list_elem_of_fmap in Hv as (o & -> & _).
  apply sigmoid_range.
Qed.

Lemma buildM_inv {A B} (f : A -> outcome B) (xs : list A) (ys : list B) :
  buildM f xs = Ok ys ->
  length ys = length xs /\
  forall y, y ∈ ys -> exists x, x ∈ xs /\ f x = Ok y.
Proof.
  revert ys. induction xs as [|x xs IH]; intros ys; simpl.
  - intros [= <-]. split; [reflexivity |].
    intros y Hy. apply elem_of_nil in Hy. contradiction.
  - destruct (f x) as [y0| | |] eqn:Hx; simpl; try discriminate.
    destruct (buildM f xs) as [ys0| | |]; simpl; try discriminate.
    intros [= <-]. destruct (IH ys0 eq_refl) as [Hlen Hall].
    split; [simpl; rewrite Hlen; reflexivity |].
    intros y Hy. apply elem_of_cons in Hy as [->|Hy].
    + exists x. split; [left | exact Hx].
    + destruct (Hall y Hy) as (x' & Hx' & Hfx').
      exists x'. split; [right; exact Hx' | exact Hfx'].
Qed.

Lemma unit_activation_range (n : nat) (xs : list R) (w : list (list R))
    (bias : list R) (u : nat) (v : R) :
  NeuralNetwork.unit_activation n xs w bias u = Ok v -> 0 < v < 1.
Proof.
  unfold NeuralNetwork.unit_activation.
  destruct (read bias u); simpl; try discriminate.
  destruct (foldM _ _ _); simpl; try discriminate.
  intros [= <-]. apply sigmoid_range.
Qed.

Lemma forwardPass_range (nn nn' : NeuralNetwork.t) (x y : list R) :
  NeuralNetwork.forwardPass nn x = Ok (nn', y) ->
  length y = NeuralNetwork.outputSize nn /\ forall v, v ∈ y -> 0 < v < 1.
Proof.
  unfold NeuralNetwork.forwardPass.
  destruct (negb _); [discriminate |].
  destruct (buildM _ _) as [h| | |]; simpl; try discriminate.
  destruct (buildM _ _) as [y'| | |] eqn:Hy; simpl; try discriminate.
  intros [= <- <-]. apply buildM_inv in Hy as [Hlen Hall].
  split; [rewrite Hlen; apply length_range |].
  intros v Hv. destruct (Hall v Hv) as (o & _ & Ho).
  eapply unit_activation_range. exact Ho.
Qed.

(** *** Rounding to 53 significant bits *)

Lemma ln_2_pos : 0 < ln 2.
Proof. rewrite <- ln_1. apply ln_increasing; lra. Qed.

Lemma powerRZ_2_exp (e : Z) : powerRZ 2 e = exp (IZR e * ln 2).
Proof. rewrite powerRZ_Rpower by lra. reflexivity. Qed.

Lemma powerRZ_2_pos (e : Z) : 0 < powerRZ 2 e.
Proof. apply powerRZ_lt. lra. Qed.

Lemma powerRZ_2_lt (a b : Z) : (a < b)%Z -> powerRZ 2 a < powerRZ 2 b.
Proof.
  intros H. rewrite !powerRZ_2_exp. apply exp_increasing.
  apply Rmult_lt_compat_r; [apply ln_2_pos | apply IZR_lt, H].
Qed.

Lemma powerRZ_2_le (a b : Z) : (a <= b)%Z -> powerRZ 2 a <= powerRZ 2 b.
Proof.
  intros H. destruct (Z.eq_dec a b) as [->|Hne]; [lra |].
  left. apply powerRZ_2_lt. lia.
Qed.

Lemma powerRZ_2_lt_inv (a b : Z) : powerRZ 2 a < powerRZ 2 b -> (a < b)%Z.
Proof.
  intros H. destruct (Z.lt_ge_cases a b) as [Hlt|Hge]; [exact Hlt |].
  apply powerRZ_2_le in Hge. lra.
Qed.

Lemma powerRZ_2_split (a b : Z) :
  powerRZ 2 (a + b) = powerRZ 2 a * powerRZ 2 b.
Proof. apply powerRZ_add. lra. Qed.

Lemma exponent_spec (x : R) :
  x <> 0 ->
  powerRZ 2 (Binary64.exponent x) <= Rabs x
  < powerRZ 2 (Binary64.exponent x + 1).
Proof.
  intros Hx. unfold Binary64.exponent.
  assert (Ha : 0 < Rabs x) by (apply Rabs_pos_lt, Hx).
  set (t := ln (Rabs x) / ln 2).
  destruct (base_Int_part t) as [Hlo Hhi].
  pose proof ln_2_pos as Hl.
  assert (Ht : Rabs x = exp (t * ln 2)).
  { unfold t. replace (ln (Rabs x) / ln 2 * ln 2) with (ln (Rabs x))
      by (field; lra).
    symmetry. apply exp_ln, Ha. }
  rewrite !powerRZ_2_exp, Ht, plus_IZR. split.
  - destruct Hlo as [Hlo|Hlo].
    + left. apply exp_increasing. apply Rmult_lt_compat_r; assumption.
    + right. rewrite Hlo. reflexivity.
  - apply exp_increasing. apply Rmult_lt_compat_r; [assumption | lra].
Qed.

Lemma exponent_unique (x : R) (e : Z) :
  powerRZ 2 e <= Rabs x < powerRZ 2 (e + 1) -> Binary64.exponent x = e.
Proof.
  intros [Hlo Hhi].
  assert (Hx : x <> 0).
  { intros ->. rewrite Rabs_R0 in Hlo. pose proof (powerRZ_2_pos e). lra. }
  destruct (exponent_spec x Hx) as [Hlo' Hhi'].
  assert (H1 : (e < Binary64.exponent x + 1)%Z)
    by (apply powerRZ_2_lt_inv; lra).
  assert (H2 : (Binary64.exponent x < e + 1)%Z)
    by (apply powerRZ_2_lt_inv; lra).
  lia.
Qed.

Lemma Int_part_IZR (n : Z) : Int_part (IZR n) = n.
Proof. symmetry. apply Int_part_spec. lra. Qed.

Lemma nearest_even_IZR (n : Z) : Binary64.nearest_even (IZR n) = n.
Proof.
  unfold Binary64.nearest_even. rewrite Int_part_IZR.
  destruct (Rlt_dec _ _); [reflexivity | lra].
Qed.

Lemma nearest_even_floor (m : R) :
  (Int_part m <= Binary64.nearest_even m <= Int_part m + 1)%Z.
Proof.
  unfold Binary64.nearest_even.
  destruct (Rlt_dec _ _); [lia |].
  destruct (Rlt_dec _ _); [lia |].
  destruct (Z.even _); lia.
Qed.

Lemma nearest_even_ge (m : R) (a : Z) :
  IZR a <= m -> (a <= Binary64.nearest_even m)%Z.
Proof.
  intros H. destruct (base_Int_part m) as [Hlo Hhi].
  assert (Ha : (a < Int_part m + 1)%Z)
    by (apply lt_IZR; rewrite plus_IZR; lra).
  pose proof (nearest_even_floor m). lia.
Qed.

Lemma nearest_even_le (m : R) (b : Z) :
  m <= IZR b -> (Binary64.nearest_even m <= b)%Z.
Proof.
  intros H. destruct (base_Int_part m) as [Hlo Hhi].
  unfold Binary64.nearest_even.
  assert (Hf : (Int_part m <= b)%Z) by (apply le_IZR; lra).
  assert (Hup : IZR (Int_part m) < m -> (Int_part m + 1 <= b)%Z).
  { intros Hlt.
    assert ((Int_part m < b)%Z) by (apply lt_IZR; lra). lia. }
  destruct (Rlt_dec _ _); [exact Hf |].
  destruct (Rlt_dec _ _); [apply Hup; lra |].
  destruct (Z.even _); [exact Hf | apply Hup; lra].
Qed.

Lemma round_0 : Binary64.round 0 = 0.
Proof.
  unfold Binary64.round. destruct (Req_dec_T 0 0); [reflexivity | lra].
Qed.

(** A positive number and its scaled significand. *)
Lemma significand_range (x : R) :
  0 < x ->
  powerRZ 2 52 <= x * powerRZ 2 (52 - Binary64.exponent x) < powerRZ 2 53.
Proof.
  intros Hx.
  destruct (exponent_spec x) as [Hlo Hhi]; [lra |].
  rewrite Rabs_pos_eq in Hlo, Hhi by lra.
  set (e := Binary64.exponent x) in *.
  pose proof (powerRZ_2_pos (52 - e)) as Hp.
  replace (powerRZ 2 52) with (powerRZ 2 e * powerRZ 2 (52 - e))
    by (rewrite <- powerRZ_2_split; f_equal; lia).
  replace (powerRZ 2 53) with (powerRZ 2 (e + 1) * powerRZ 2 (52 - e))
    by (rewrite <- powerRZ_2_split; f_equal; lia).
  split.
  - apply Rmult_le_compat_r; lra.
  - apply Rmult_lt_compat_r; lra.
Qed.

Lemma IZR_pow2 (n : Z) : (0 <= n)%Z -> IZR (2 ^ n) = powerRZ 2 n.
Proof.
  intros Hn. rewrite <- (Z2Nat.id n) by exact Hn.
  rewrite <- pow_powerRZ, <- pow_IZR. reflexivity.
Qed.

Lemma round_pos_bounds (x : R) :
  0 < x ->
  powerRZ 2 (Binary64.exponent x) <= Binary64.round x
  <= powerRZ 2 (Binary64.exponent x + 1).
Proof.
  intros Hx. destruct (significand_range x Hx) as [Hlo Hhi].
  unfold Binary64.round. destruct (Req_dec_T x 0); [lra |].
  set (e := Binary64.exponent x) in *.
  set (m := x * powerRZ 2 (52 - e)) in *.
  pose proof (powerRZ_2_pos (e - 52)) as Hp.
  assert (H1 : (2 ^ 52 <= Binary64.nearest_even m)%Z)
    by (apply nearest_even_ge; rewrite IZR_pow2 by lia; exact Hlo).
  assert (H2 : (Binary64.nearest_even m <= 2 ^ 53)%Z)
    by (apply nearest_even_le; rewrite IZR_pow2 by lia; lra).
  apply IZR_le in H1, H2. rewrite IZR_pow2 in H1, H2 by lia.
  replace (powerRZ 2 e) with (powerRZ 2 52 * powerRZ 2 (e - 52))
    by (rewrite <- powerRZ_2_split; f_equal; lia).
  replace (powerRZ 2 (e + 1)) with (powerRZ 2 53 * powerRZ 2 (e - 52))
    by (rewrite <- powerRZ_2_split; f_equal; lia).
  split; apply Rmult_le_compat_r; lra.
Qed.

Lemma round_pos (x : R) : 0 < x -> 0 < Binary64.round x.
Proof.
  intros Hx. destruct (round_pos_bounds x Hx) as [H _].
  pose proof (powerRZ_2_pos (Binary64.exponent x)). lra.
Qed.

Lemma round_ge_pow2 (x : R) (k : Z) :
  powerRZ 2 k <= x -> powerRZ 2 k <= Binary64.round x.
Proof.
  intros H. pose proof (powerRZ_2_pos k) as Hk.
  assert (Hx : 0 < x) by lra.
  destruct (round_pos_bounds x Hx) as [Hlo _].
  destruct (exponent_spec x) as [_ Hhi]; [lra |].
  rewrite Rabs_pos_eq in Hhi by lra.
  assert (Hke : (k < Binary64.exponent x + 1)%Z)
    by (apply powerRZ_2_lt_inv; lra).
  assert (powerRZ 2 k <= powerRZ 2 (Binary64.exponent x))
    by (apply powerRZ_2_le; lia).
  lra.
Qed.

Lemma round_pow2 (k : Z) : Binary64.round (powerRZ 2 k) = powerRZ 2 k.
Proof.
  pose proof (powerRZ_2_pos k) as Hk.
  assert (He : Binary64.exponent (powerRZ 2 k) = k).
  { apply exponent_unique. rewrite Rabs_pos_eq by lra.
    split; [lra | apply powerRZ_2_lt; lia]. }
  unfold Binary64.round. destruct (Req_dec_T _ 0); [lra |].
  rewrite He, <- powerRZ_2_split.
  replace (k + (52 - k))%Z with 52%Z by lia.
  rewrite <- IZR_pow2 by lia. rewrite nearest_even_IZR.
  rewrite IZR_pow2 by lia. rewrite <- powerRZ_2_split. f_equal. lia.
Qed.

Lemma round_le_pow2 (x : R) (k : Z) :
  0 < x <= powerRZ 2 k -> Binary64.round x <= powerRZ 2 k.
Proof.
  intros [Hx [Hlt| ->]]; [|right; apply round_pow2].
  destruct (round_pos_bounds x Hx) as [_ Hhi].
  destruct (exponent_spec x) as [Hlo _]; [lra |].
  rewrite Rabs_pos_eq in Hlo by lra.
  assert (Hke : (Binary64.exponent x < k)%Z)
    by (apply powerRZ_2_lt_inv; lra).
  assert (powerRZ 2 (Binary64.exponent x + 1) <= powerRZ 2 k)
    by (apply powerRZ_2_le; lia).
  lra.
Qed.

Lemma round_near_1 (x : R) :
  1 <= x <= 1 + powerRZ 2 (-53) -> Binary64.round x = 1.
Proof.
  intros [Hlo Hhi].
  assert (H53 : powerRZ 2 (-53) * powerRZ 2 52 = 1 / 2).
  { rewrite <- powerRZ_2_split. simpl. lra. }
  assert (Hsmall : powerRZ 2 (-53) < 1).
  { replace 1 with (powerRZ 2 0) by reflexivity.
    apply powerRZ_2_lt. lia. }
  assert (He : Binary64.exponent x = 0%Z).
  { apply exponent_unique. rewrite Rabs_pos_eq by lra.
    simpl. lra. }
  unfold Binary64.round. destruct (Req_dec_T x 0); [lra |].
  rewrite He. replace (52 - 0)%Z with 52%Z by lia.
  replace (0 - 52)%Z with (-52)%Z by lia.
  set (m := x * powerRZ 2 52).
  pose proof (powerRZ_2_pos 52) as Hp.
  assert (Hm : powerRZ 2 52 <= m <= powerRZ 2 52 + 1 / 2).
  { unfold m. split.
    - rewrite <- (Rmult_1_l (powerRZ 2 52)) at 1.
      apply Rmult_le_compat_r; lra.
    - rewrite <- H53.
      replace (powerRZ 2 52 + powerRZ 2 (-53) * powerRZ 2 52)
        with ((1 + powerRZ 2 (-53)) * powerRZ 2 52) by ring.
      apply Rmult_le_compat_r; lra. }
  assert (Hf : Int_part m = (2 ^ 52)%Z).
  { symmetry. apply Int_part_spec. rewrite IZR_pow2 by lia. lra. }
  assert (Hn : Binary64.nearest_even m = (2 ^ 52)%Z).
  { unfold Binary64.nearest_even. rewrite Hf.
    destruct (Rlt_dec _ _); [reflexivity |].
    destruct (Rlt_dec _ _) as [Hgt|_];
      [rewrite IZR_pow2 in Hgt by lia; lra | reflexivity]. }
  rewrite Hn, IZR_pow2 by lia. rewrite <- powerRZ_2_split. reflexivity.
Qed.


Lemma round_1 : Binary64.round 1 = 1.
Proof. exact (round_pow2 0). Qed.


(** *** The exponential at the ends of the clamp and at -40 *)

Lemma exp_INR (n : nat) (x : R) : exp (INR n * x) = exp x ^ n.
Proof.
  induction n as [|n IH].
  - simpl. rewrite Rmult_0_l. apply exp_0.
  - rewrite S_INR, Rmult_plus_distr_r, Rmult_1_l, exp_plus, IH.
    simpl. ring.
Qed.


Lemma exp_40_ge : powerRZ 2 54 <= exp 40.
Proof.
  replace 40 with (INR 512 * (5 / 64)).
  2:{ rewrite INR_IZR_INZ. change (Z.of_nat 512) with 512%Z. lra. }
  rewrite exp_INR.
  apply Rle_trans with ((IZR 69 / IZR 64) ^ 512).
  - unfold Rdiv. rewrite Rpow_mult_distr, pow_inv, !pow_IZR.
    rewrite <- IZR_pow2 by lia.
    apply (Rmult_le_reg_r (IZR (64 ^ Z.of_nat 512))).
    { apply IZR_lt. apply Z.pow_pos_nonneg; lia. }
    rewrite Rmult_assoc, Rinv_l, Rmult_1_r.
    2:{ apply not_0_IZR. apply Z.pow_nonzero; lia. }
    rewrite <- mult_IZR. apply IZR_le.
    apply Z.leb_le. vm_compute. reflexivity.
  - apply pow_incr. split; [lra |].
    left. replace (69 / 64) with (1 + 5 / 64) by lra.
    apply exp_ineq1. lra.
Qed.

Lemma exp_m40_le : exp (Ropp 40) <= powerRZ 2 (- 54).
Proof.
  rewrite exp_Ropp. change (-54)%Z with (- (54))%Z. rewrite powerRZ_neg'.
  apply Rinv_le_contravar; [apply powerRZ_2_pos | apply exp_40_ge].
Qed.

(** *** The rounded sigmoid *)


Lemma rounded_sigmoid_saturates (x : R) :
  40 <= x -> Binary64.sigmoid x = 1.
Proof.
  intros Hx.
  unfold Binary64.sigmoid, Binary64.div, Binary64.add, Binary64.Math_exp.
  rewrite sigmoid_clamp.
  assert (Hc : 40 <= clamp x)
    by (unfold clamp; repeat destruct (Rlt_dec _ _); lra).
  set (c := clamp x) in *.
  assert (He0 : 0 < Binary64.round (exp (- c)))
    by (apply round_pos, exp_pos).
  assert (He1 : Binary64.round (exp (- c)) <= powerRZ 2 (- 54)).
  { apply round_le_pow2. split; [apply exp_pos |].
    apply Rle_trans with (exp (Ropp 40)); [|apply exp_m40_le].
    destruct Hc as [Hc|Hc].
    - left. apply exp_increasing. lra.
    - right. rewrite Hc. reflexivity. }
  assert (H54 : powerRZ 2 (- 54) <= powerRZ 2 (- 53))
    by (apply powerRZ_2_le; lia).
  rewrite (round_near_1 (1 + Binary64.round (exp (- c)))) by lra.
  replace (1 / 1) with 1 by lra. apply round_1.
Qed.

Lemma rounded_sigmoid_0 : Binary64.sigmoid 0 = 1 / 2.
Proof.
  unfold Binary64.sigmoid, Binary64.div, Binary64.add, Binary64.Math_exp.
  rewrite sigmoid_clamp.
  replace (clamp 0) with 0
    by (unfold clamp; repeat destruct (Rlt_dec _ _); lra).
  rewrite Ropp_0, exp_0, round_1.
  replace (1 + 1) with (powerRZ 2 1) by (simpl; lra).
  rewrite round_pow2.
  replace (1 / powerRZ 2 1) with (powerRZ 2 (- 1)) by (simpl; lra).
  rewrite round_pow2. simpl. lra.
Qed.

Lemma nearest_even_monotone (a b : R) :
  a <= b -> (Binary64.nearest_even a <= Binary64.nearest_even b)%Z.
Proof.
  intros Hab.
  destruct (base_Int_part a) as [Ha0 Ha1].
  destruct (base_Int_part b) as [Hb0 Hb1].
  assert (Hf : (Int_part a <= Int_part b)%Z).
  { assert ((Int_part a < Int_part b + 1)%Z)
      by (apply lt_IZR; rewrite plus_IZR; lra).
    lia. }
  destruct (Z.eq_dec (Int_part a) (Int_part b)) as [Heq|Hne].
  - unfold Binary64.nearest_even. rewrite <- Heq.
    repeat destruct (Rlt_dec _ _); try lia; try lra;
      destruct (Z.even (Int_part a)); lia.
  - pose proof (nearest_even_floor a). pose proof (nearest_even_floor b).
    lia.
Qed.

Lemma round_monotone (x y : R) :
  0 < x -> x <= y -> Binary64.round x <= Binary64.round y.
Proof.
  intros Hx Hxy.
  assert (Hy : 0 < y) by lra.
  destruct (round_pos_bounds x Hx) as [_ Hxhi].
  destruct (round_pos_bounds y Hy) as [Hylo _].
  destruct (exponent_spec x) as [Hx0 Hx1]; [lra |].
  destruct (exponent_spec y) as [Hy0 Hy1]; [lra |].
  rewrite Rabs_pos_eq in Hx0, Hx1, Hy0, Hy1 by lra.
  assert (He : (Binary64.exponent x < Binary64.exponent y + 1)%Z)
    by (apply powerRZ_2_lt_inv; lra).
  destruct (Z.eq_dec (Binary64.exponent x) (Binary64.exponent y))
    as [Heq|Hne].
  - unfold Binary64.round.
    destruct (Req_dec_T x 0); [lra |]. destruct (Req_dec_T y 0); [lra |].
    rewrite Heq.
    pose proof (powerRZ_2_pos (52 - Binary64.exponent y)) as Hp.
    pose proof (powerRZ_2_pos (Binary64.exponent y - 52)) as Hq.
    apply Rmult_le_compat_r; [lra |].
    apply IZR_le, nearest_even_monotone.
    apply Rmult_le_compat_r; lra.
  - assert (powerRZ 2 (Binary64.exponent x + 1)
            <= powerRZ 2 (Binary64.exponent y))
      by (apply powerRZ_2_le; lia).
    lra.
Qed.

Lemma rounded_sigmoid_monotone (x y : R) :
  x <= y -> Binary64.sigmoid x <= Binary64.sigmoid y.
Proof.
  intros Hxy.
  unfold Binary64.sigmoid, Binary64.div, Binary64.add, Binary64.Math_exp.
  rewrite !sigmoid_clamp.
  assert (Hc : clamp x <= clamp y)
    by (unfold clamp; repeat destruct (Rlt_dec _ _); lra).
  set (a := clamp x) in *. set (b := clamp y) in *.
  assert (He : exp (- b) <= exp (- a)).
  { destruct Hc as [Hc|Hc].
    - left. apply exp_increasing. lra.
    - right. rewrite Hc. reflexivity. }
  assert (Hea : 0 < Binary64.round (exp (- a)))
    by (apply round_pos, exp_pos).
  assert (Heb : 0 < Binary64.round (exp (- b)))
    by (apply round_pos, exp_pos).
  assert (Hr : Binary64.round (exp (- b)) <= Binary64.round (exp (- a)))
    by (apply round_monotone; [apply exp_pos | exact He]).
  assert (Hda : 1 <= Binary64.round (1 + Binary64.round (exp (- a))))
    by (apply (round_ge_pow2 _ 0); simpl; lra).
  assert (Hdb : 1 <= Binary64.round (1 + Binary64.round (exp (- b))))
    by (apply (round_ge_pow2 _ 0); simpl; lra).
  assert (Hd : Binary64.round (1 + Binary64.round (exp (- b)))
               <= Binary64.round (1 + Binary64.round (exp (- a))))
    by (apply round_monotone; lra).
  apply round_monotone.
  - apply Rmult_lt_0_compat; [lra | apply Rinv_0_lt_compat; lra].
  - unfold Rdiv. rewrite !Rmult_1_l.
    apply Rinv_le_contravar; lra.
Qed.

Lemma rounded_sigmoid_sides (x : R) :
  (0 <= x -> 1 / 2 <= Binary64.sigmoid x) /\
  (x <= 0 -> Binary64.sigmoid x <= 1 / 2).
Proof.
  rewrite <- rounded_sigmoid_0.
  split; intros H; apply rounded_sigmoid_monotone; exact H.
Qed.

Lemma rounded_sigmoid_clamped (x : R) :
  (500 <= x -> Binary64.sigmoid x = Binary64.sigmoid 500) /\
  (x <= -500 -> Binary64.sigmoid x = Binary64.sigmoid (-500)).
Proof.
  unfold Binary64.sigmoid. rewrite !sigmoid_clamp.
  split; intros H; f_equal; f_equal; f_equal; f_equal;
    unfold clamp; repeat destruct (Rlt_dec _ _); lra.
Qed.

(** *** The rounded forward pass *)









(** ** C9: the forward pass writes the caches only *)

Lemma forwardPass_inv (nn nn' : NeuralNetwork.t) (x y : list R) :
  NeuralNetwork.forwardPass nn x = Ok (nn', y) ->
  exists h, nn' = with_caches nn x h y.
Proof.
  unfold NeuralNetwork.forwardPass.
  destruct (negb _); [discriminate |].
  destruct (buildM _ _) as [h| | |]; simpl; try discriminate.
  destruct (buildM _ _) as [y'| | |]; simpl; try discriminate.
  intros [= <- <-]. exists h. reflexivity.
Qed.

(** C9.  A forward pass on an input of the declared length returns, and
    the state it leaves has the four parameter structures and the three
    declared sizes of the state it started from; whatever state a forward
    pass returns in differs from the one it started from in the three
    caches at most. *)
Theorem forwardPass_frame :
  (forall (nn : NeuralNetwork.t) (x : list R),
     in_bounds nn = true ->
     length x = NeuralNetwork.inputSize nn ->
     exists nn' y, NeuralNetwork.forwardPass nn x = Ok (nn', y)) /\
  (forall (nn nn' : NeuralNetwork.t) (x y : list R),
     NeuralNetwork.forwardPass nn x = Ok (nn', y) ->
     NeuralNetwork.weightsIH nn' = NeuralNetwork.weightsIH nn /\
     NeuralNetwork.weightsHO nn' = NeuralNetwork.weightsHO nn /\
     NeuralNetwork.biasH nn' = NeuralNetwork.biasH nn /\
     NeuralNetwork.biasO nn' = NeuralNetwork.biasO nn /\
     NeuralNetwork.inputSize nn' = NeuralNetwork.inputSize nn /\
     NeuralNetwork.hiddenSize nn' = NeuralNetwork.hiddenSize nn /\
     NeuralNetwork.outputSize nn' = NeuralNetwork.outputSize nn /\
     nn' = NeuralNetwork.mk
             (NeuralNetwork.inputSize nn) (NeuralNetwork.hiddenSize nn)
             (NeuralNetwork.outputSize nn)
             (NeuralNetwork.weightsIH nn) (NeuralNetwork.weightsHO nn)
             (NeuralNetwork.biasH nn) (NeuralNetwork.biasO nn)
             (NeuralNetwork.lastInputs nn') (NeuralNetwork.lastHidden nn')
             (NeuralNetwork.lastOutput nn')).
Proof.
  split.
  - intros nn x Hnn Hx. eexists _, _. apply forwardPass_Ok; assumption.
  - intros nn nn' x y H. apply forwardPass_inv in H as [h ->].
    repeat split.
Qed.

Lemma forwardPass_frame_witness :
  exists nn' y,
    NeuralNetwork.forwardPass zero_network [0; 0; 0; 0] = Ok (nn', y) /\
    NeuralNetwork.weightsIH nn' = NeuralNetwork.weightsIH zero_network /\
    NeuralNetwork.biasO nn' = NeuralNetwork.biasO zero_network.
Proof.
  destruct forwardPass_frame as [Hret Hframe].
  destruct (Hret zero_network [0; 0; 0; 0]) as (nn' & y & H);
    [reflexivity | reflexivity |].
  exists nn', y. split; [exact H |].
  destruct (Hframe _ _ _ _ H) as (H1 & _ & _ & H4 & _).
  split; assumption.
Defined.

(** ** C6: the decision *)

Lemma sigma_zero (n : nat) (f : nat -> R) :
  (forall i, (i < n)%nat -> f i = 0) -> sigma n f = 0.
Proof.
  induction n as [|n IH]; intros H; simpl; [reflexivity |].
  rewrite IH, H by (intros; try apply H; lia). lra.
Qed.

Lemma at_replicate_0 (n i : nat) : at_ (replicate n 0) i = 0.
Proof.
  unfold at_. rewrite nth_lookup.
  destruct (replicate n 0 !! i) as [v|] eqn:E; simpl; [|reflexivity].
  apply lookup_replicate in E as [-> _]. reflexivity.
Qed.

Lemma entry_replicate_0 (rows cols i j : nat) :
  entry (replicate rows (replicate cols 0)) i j = 0.
Proof.
  unfold entry. rewrite (nth_lookup (replicate rows _)).
  destruct (replicate rows _ !! i) as [r|] eqn:E; simpl.
  - apply lookup_replicate in E as [-> _]. apply at_replicate_0.
  - destruct j; reflexivity.
Qed.

Lemma unit_value_zero (n : nat) (xs : list R) (w : list (list R))
    (bias : list R) (u : nat) :
  (forall i, entry w i u = 0) -> at_ bias u = 0 ->
  unit_value n xs w bias u = 1 / 2.
Proof.
  intros Hw Hb. unfold unit_value. rewrite Hb, sigma_zero.
  - rewrite Rplus_0_r. apply sigmoid_0.
  - intros i _. rewrite Hw. lra.
Qed.

Lemma zero_network_hidden (x : list R) :
  hidden_layer zero_network x = replicate 8 (1 / 2).
Proof.
  unfold hidden_layer.
  rewrite (map_ext _ (fun _ => 1 / 2)); [reflexivity |].
  intros u. apply unit_value_zero.
  - intros i. apply entry_replicate_0.
  - apply at_replicate_0.
Qed.

Lemma zero_network_output (x : list R) :
  output_layer zero_network x = [1 / 2].
Proof.
  unfold output_layer.
  rewrite (map_ext _ (fun _ => 1 / 2)); [reflexivity |].
  intros u. apply unit_value_zero.
  - intros i. apply entry_replicate_0.
  - apply at_replicate_0.
Qed.

Lemma gtb_spec (x y : R) : gtb x y = true <-> x > y.
Proof.
  unfold gtb. destruct (Rlt_dec y x); split; intros H;
    try reflexivity; try discriminate; lra.
Qed.

Lemma maxSamples_pos : (1 <= Trainer.maxSamples)%nat.
Proof. apply Nat.leb_le. vm_compute. reflexivity. Qed.

Lemma addSample_newest (this : Trainer.t) (gameState : GameState) (a : R) :
  exists this',
    Trainer.addSample this (Some gameState) a = Ok this' /\
    last (Trainer.trainingData this') =
      Some {| Trainer.inputs := NeuralNetwork.features gameState;
              Trainer.target := [a] |}.
Proof.
  eexists. split; [reflexivity |]. simpl.
  destruct (Trainer.maxSamples <? _)%nat eqn:E; [|apply last_snoc].
  destruct (Trainer.trainingData this) as [|s0 data]; simpl.
  - apply Nat.ltb_lt in E. simpl in E. pose proof maxSamples_pos. lia.
  - apply last_snoc.
Qed.

(** C6.  [predict] throws the invalid-game-state error when there is no
    game state.  Otherwise it runs [forwardPass] on the four features
    [birdY, birdVelocity, pipeDistance, pipeGapY], the vector that
    [Trainer.addSample] stores as the inputs of its sample, and returns
    [true] exactly when the first output is greater than 0.5.  On the
    network of sizes 4/8/1 with all weights and biases zero,
    [forwardPass [0,0,0,0]] leaves eight hidden values 0.5 and returns
    [[0.5]], and [predict] returns [false].  On a network with four inputs
    whose parameters reach as far as its declared sizes [predict]
    returns. *)
Theorem predict_threshold :
  (forall nn, NeuralNetwork.predict nn None
              = Throw (InvalidGameState "prediction")) /\
  (forall nn gs nn' y,
     NeuralNetwork.forwardPass nn
       [birdY gs; birdVelocity gs; pipeDistance gs; pipeGapY gs]
       = Ok (nn', y) ->
     exists b, NeuralNetwork.predict nn (Some gs) = Ok (nn', b) /\
               (b = true <-> exists y0, y !! 0%nat = Some y0 /\ y0 > 0.5)) /\
  (forall this gs a,
     exists this',
       Trainer.addSample this (Some gs) a = Ok this' /\
       last (Trainer.trainingData this') =
         Some {| Trainer.inputs :=
                   [birdY gs; birdVelocity gs; pipeDistance gs; pipeGapY gs];
                 Trainer.target := [a] |}) /\
  (exists nn',
     NeuralNetwork.forwardPass zero_network [0; 0; 0; 0]
       = Ok (nn', [0.5]) /\
     NeuralNetwork.lastHidden nn' = Some (replicate 8 0.5)) /\
  (forall gs, exists nn',
     NeuralNetwork.predict zero_network (Some gs) = Ok (nn', false)) /\
  (forall nn gs,
     in_bounds nn = true -> NeuralNetwork.inputSize nn = 4%nat ->
     exists nn' b, NeuralNetwork.predict nn (Some gs) = Ok (nn', b)).
Proof.
  assert (Hhalf : 1 / 2 = 0.5) by lra.
  split; [reflexivity |]. split; [|split; [|split; [|split]]].
  - intros nn gs nn' y H. unfold NeuralNetwork.predict, NeuralNetwork.features.
    rewrite H. simpl. eexists. split; [reflexivity |].
    destruct (y !! 0%nat) as [y0|].
    + rewrite gtb_spec. split.
      * intros Hy. exists y0. split; [reflexivity | exact Hy].
      * intros (y1 & [= <-] & Hy). exact Hy.
    + split; [discriminate | intros (y1 & [=] & _)].
  - intros this gs a. apply addSample_newest.
  - eexists. split.
    + rewrite forwardPass_Ok by reflexivity.
      rewrite zero_network_output, Hhalf. reflexivity.
    + simpl. rewrite zero_network_hidden, Hhalf. reflexivity.
  - intros gs. eexists. unfold NeuralNetwork.predict.
    rewrite forwardPass_Ok by reflexivity.
    rewrite zero_network_output. simpl.
    replace (gtb (1 / 2) 0.5) with false; [reflexivity |].
    symmetry. apply not_true_is_false. rewrite gtb_spec. lra.
  - intros nn gs Hnn Hi. unfold NeuralNetwork.predict.
    rewrite forwardPass_Ok by (try rewrite Hi; trivial).
    eexists _, _. reflexivity.
Qed.

Lemma predict_threshold_witness :
  exists nn',
    NeuralNetwork.predict zero_network (Some still) = Ok (nn', false).
Proof.
  destruct predict_threshold as (_ & _ & _ & _ & H & _).
  exact (H still).
Defined.

(** ** One training step in closed form *)

Lemma length_output_errors (nn : NeuralNetwork.t) (x targets : list R) :
  length (output_errors nn x targets) = NeuralNetwork.outputSize nn.
Proof. unfold output_errors. rewrite length_map. apply length_range. Qed.

Lemma length_hidden_errors (nn : NeuralNetwork.t) (x targets : list R) :
  length (hidden_errors nn x targets) = NeuralNetwork.hiddenSize nn.
Proof. unfold hidden_errors. rewrite length_map. apply length_range. Qed.

Lemma INR_pos_neq (n : nat) : (0 < n)%nat -> INR n <> 0.
Proof. intros Hn. apply not_0_INR. lia. Qed.

Lemma train_Ok (nn : NeuralNetwork.t) (x targets : list R) (lr : R) :
  in_bounds nn = true ->
  length x = NeuralNetwork.inputSize nn ->
  (NeuralNetwork.outputSize nn <= length targets)%nat ->
  (0 < NeuralNetwork.outputSize nn)%nat ->
  NeuralNetwork.train nn x targets lr
  = Ok (trained nn x targets lr, sample_loss nn x targets).
Proof.
  intros Hnn Hx Ht HO.
  pose proof Hnn as Hb. apply in_bounds_spec in Hb as (Hih & Hho & Hbh & Hbo).
  unfold NeuralNetwork.train.
  rewrite forwardPass_Ok by assumption.
  cbn [mbind outcome_bind with_caches NeuralNetwork.outputSize
       NeuralNetwork.hiddenSize NeuralNetwork.inputSize
       NeuralNetwork.weightsIH NeuralNetwork.weightsHO NeuralNetwork.biasH
       NeuralNetwork.biasO NeuralNetwork.lastInputs NeuralNetwork.lastHidden
       NeuralNetwork.lastOutput].
  set (y := output_layer nn x). set (h := hidden_layer nn x).
  (* output errors *)
  rewrite (foldM_Ok' _
             (fun (s : list R * R) o =>
                (s.1 ++ [(at_ targets o - at_ y o)
                         * NeuralNetwork.sigmoidDerivative (at_ y o)],
                 s.2 + (at_ targets o - at_ y o) * (at_ targets o - at_ y o)))).
  2:{ intros [errs mse] o Ho. apply elem_of_range in Ho.
      rewrite (read_Ok targets) by lia.
      rewrite (read_Ok y) by (unfold y; rewrite length_output_layer; lia).
      reflexivity. }
  rewrite foldl_errors.
  cbn [mbind outcome_bind].
  fold (output_errors nn x targets). set (oes := output_errors nn x targets).
  rewrite divide_Ok by (apply INR_pos_neq, HO).
  cbn [mbind outcome_bind].
  fold (sample_loss nn x targets).
  (* hidden errors *)
  rewrite (buildM_Ok _
             (fun j => sigma (NeuralNetwork.outputSize nn)
                         (fun o => at_ oes o
                                   * entry (NeuralNetwork.weightsHO nn) j o)
                       * NeuralNetwork.sigmoidDerivative (at_ h j))).
  2:{ intros j Hj. apply elem_of_range in Hj.
      rewrite (foldM_Ok' _
                 (fun s o => s + at_ oes o
                                 * entry (NeuralNetwork.weightsHO nn) j o)).
      2:{ intros s o Ho. apply elem_of_range in Ho.
          rewrite (read_Ok oes) by (unfold oes; rewrite length_output_errors; lia).
          cbn [mbind outcome_bind].
          rewrite (covers_read2 _ _ _ _ _ Hho) by assumption.
          reflexivity. }
      cbn [mbind outcome_bind NeuralNetwork.read_cached].
      rewrite (read_Ok h) by (unfold h; rewrite length_hidden_layer; lia).
      cbn [mbind outcome_bind]. rewrite foldl_sum, Rplus_0_l. reflexivity. }
  cbn [mbind outcome_bind].
  fold (hidden_errors nn x targets). set (hes := hidden_errors nn x targets).
  (* weights hidden -> output *)
  rewrite (foldM_block _ (fun j o w => w + lr * at_ oes o * at_ h j)
             _ _ _ Hho).
  2:{ intros m j o Hm Hj Ho.
      rewrite (read_Ok oes) by (unfold oes; rewrite length_output_errors; lia).
      cbn [mbind outcome_bind NeuralNetwork.read_cached].
      rewrite (read_Ok h) by (unfold h; rewrite length_hidden_layer; lia).
      cbn [mbind outcome_bind].
      apply (add_at2_Ok _ _ _ _ _ _ _ Hm Hj Ho). reflexivity. }
  cbn [mbind outcome_bind].
  (* biases output *)
  rewrite (foldM_prefix _ (fun o b => b + lr * at_ oes o) _ _ Hbo).
  2:{ intros a o Ha Ho.
      rewrite (read_Ok oes) by (unfold oes; rewrite length_output_errors; lia).
      cbn [mbind outcome_bind].
      apply add_at_Ok; [lia | reflexivity]. }
  cbn [mbind outcome_bind].
  (* weights input -> hidden *)
  rewrite (foldM_block _ (fun i j w => w + lr * at_ hes j * at_ x i)
             _ _ _ Hih).
  2:{ intros m i j Hm Hi Hj.
      rewrite (read_Ok hes) by (unfold hes; rewrite length_hidden_errors; lia).
      cbn [mbind outcome_bind NeuralNetwork.read_cached].
      rewrite (read_Ok x) by lia.
      cbn [mbind outcome_bind].
      apply (add_at2_Ok _ _ _ _ _ _ _ Hm Hi Hj). reflexivity. }
  cbn [mbind outcome_bind].
  (* biases hidden *)
  rewrite (foldM_prefix _ (fun j b => b + lr * at_ hes j) _ _ Hbh).
  2:{ intros a j Ha Hj.
      rewrite (read_Ok hes) by (unfold hes; rewrite length_hidden_errors; lia).
      cbn [mbind outcome_bind].
      apply add_at_Ok; [lia | reflexivity]. }
  reflexivity.
Qed.

Lemma at_output_errors (nn : NeuralNetwork.t) (x targets : list R) (o : nat) :
  (o < NeuralNetwork.outputSize nn)%nat ->
  at_ (output_errors nn x targets) o
  = output_error targets (output_layer nn x) o.
Proof.
  intros Ho. unfold at_ at 1, output_errors. rewrite nth_map_range by exact Ho.
  unfold output_error, NeuralNetwork.sigmoidDerivative. ring.
Qed.

Lemma at_hidden_errors (nn : NeuralNetwork.t) (x targets : list R) (j : nat) :
  (j < NeuralNetwork.hiddenSize nn)%nat ->
  at_ (hidden_errors nn x targets) j
  = hidden_error nn targets (hidden_layer nn x) (output_layer nn x) j.
Proof.
  intros Hj. unfold at_ at 1, hidden_errors. rewrite nth_map_range by exact Hj.
  unfold hidden_error, NeuralNetwork.sigmoidDerivative.
  rewrite (sigma_ext _ _
             (fun o => output_error targets (output_layer nn x) o
                       * entry (NeuralNetwork.weightsHO nn) j o)).
  - ring.
  - intros o Ho. rewrite at_output_errors by exact Ho. reflexivity.
Qed.

Lemma sample_loss_mean (nn : NeuralNetwork.t) (x targets : list R) :
  sample_loss nn x targets
  = mean_squared_error targets (output_layer nn x)
      (NeuralNetwork.outputSize nn).
Proof.
  unfold sample_loss, mean_squared_error. f_equal.
  apply sigma_ext. intros o _. ring.
Qed.

Lemma mean_squared_error_nonneg (targets y : list R) (n : nat) :
  (0 < n)%nat -> 0 <= mean_squared_error targets y n.
Proof.
  intros Hn. unfold mean_squared_error, Rdiv.
  apply Rle_mult_inv_pos.
  - apply sigma_nonneg. intros o _. apply pow2_ge_0.
  - apply lt_0_INR. lia.
Qed.

(** ** C1: one step of backpropagation *)

(** C1.  For a network whose parameters reach as far as its declared
    sizes, an input of the declared length, a target vector with an entry
    for every output unit and any learning rate, [train] makes one forward
    pass, giving the hidden vector [h] and the output [y], and then adds
    [lr * outputError_o * h_j] to [weightsHO[j][o]], [lr * outputError_o]
    to [biasO[o]], [lr * hiddenError_j * x_i] to [weightsIH[i][j]] and
    [lr * hiddenError_j] to [biasH[j]], where
    [outputError_o = (target_o - y_o) * y_o * (1 - y_o)] and
    [hiddenError_j = (sum_o outputError_o * weightsHO[j][o]) * h_j * (1 - h_j)]
    with the weights of before the update; sizes and array lengths stay, the
    caches are those of the forward pass; the value returned is the mean of
    [(target_o - y_o)^2] over the output units, which is not negative. *)
Theorem train_backpropagation
    (nn : NeuralNetwork.t) (x targets : list R) (lr : R) :
  in_bounds nn = true ->
  length x = NeuralNetwork.inputSize nn ->
  (NeuralNetwork.outputSize nn <= length targets)%nat ->
  (0 < NeuralNetwork.outputSize nn)%nat ->
  exists (nn1 nn' : NeuralNetwork.t) (h y : list R) (mse : R),
    NeuralNetwork.forwardPass nn x = Ok (nn1, y) /\
    NeuralNetwork.lastHidden nn1 = Some h /\
    NeuralNetwork.train nn x targets lr = Ok (nn', mse) /\
    (forall j o,
       (j < NeuralNetwork.hiddenSize nn)%nat ->
       (o < NeuralNetwork.outputSize nn)%nat ->
       entry (NeuralNetwork.weightsHO nn') j o
       = entry (NeuralNetwork.weightsHO nn) j o
         + lr * output_error targets y o * at_ h j) /\
    (forall o,
       (o < NeuralNetwork.outputSize nn)%nat ->
       at_ (NeuralNetwork.biasO nn') o
       = at_ (NeuralNetwork.biasO nn) o + lr * output_error targets y o) /\
    (forall i j,
       (i < NeuralNetwork.inputSize nn)%nat ->
       (j < NeuralNetwork.hiddenSize nn)%nat ->
       entry (NeuralNetwork.weightsIH nn') i j
       = entry (NeuralNetwork.weightsIH nn) i j
         + lr * hidden_error nn targets h y j * at_ x i) /\
    (forall j,
       (j < NeuralNetwork.hiddenSize nn)%nat ->
       at_ (NeuralNetwork.biasH nn') j
       = at_ (NeuralNetwork.biasH nn) j + lr * hidden_error nn targets h y j) /\
    mse = mean_squared_error targets y (NeuralNetwork.outputSize nn) /\
    0 <= mse /\
    (NeuralNetwork.inputSize nn', NeuralNetwork.hiddenSize nn',
     NeuralNetwork.outputSize nn')
    = (NeuralNetwork.inputSize nn, NeuralNetwork.hiddenSize nn,
       NeuralNetwork.outputSize nn) /\
    length <$> NeuralNetwork.weightsIH nn'
      = length <$> NeuralNetwork.weightsIH nn /\
    length <$> NeuralNetwork.weightsHO nn'
      = length <$> NeuralNetwork.weightsHO nn /\
    length (NeuralNetwork.biasH nn') = length (NeuralNetwork.biasH nn) /\
    length (NeuralNetwork.biasO nn') = length (NeuralNetwork.biasO nn) /\
    (NeuralNetwork.lastInputs nn', NeuralNetwork.lastHidden nn',
     NeuralNetwork.lastOutput nn')
    = (NeuralNetwork.lastInputs nn1, NeuralNetwork.lastHidden nn1,
       NeuralNetwork.lastOutput nn1).
Proof.
  intros Hnn Hx Ht HO.
  pose proof Hnn as Hb. apply in_bounds_spec in Hb as (Hih & Hho & Hbh & Hbo).
  exists (with_caches nn x (hidden_layer nn x) (output_layer nn x)),
         (trained nn x targets lr),
         (hidden_layer nn x), (output_layer nn x), (sample_loss nn x targets).
  split; [apply forwardPass_Ok; assumption |].
  split; [reflexivity |].
  split; [apply train_Ok; assumption |].
  split; [|split; [|split; [|split]]].
  - intros j o Hj Ho. simpl.
    rewrite entry_update_block by assumption.
    rewrite at_output_errors by exact Ho. reflexivity.
  - intros o Ho. simpl.
    rewrite at_update_prefix by lia.
    replace (o <? _)%nat with true by (symmetry; apply Nat.ltb_lt; exact Ho).
    rewrite at_output_errors by exact Ho. reflexivity.
  - intros i j Hi Hj. simpl.
    rewrite entry_update_block by assumption.
    rewrite at_hidden_errors by exact Hj. reflexivity.
  - intros j Hj. simpl.
    rewrite at_update_prefix by lia.
    replace (j <? _)%nat with true by (symmetry; apply Nat.ltb_lt; exact Hj).
    rewrite at_hidden_errors by exact Hj. reflexivity.
  - split; [apply sample_loss_mean |].
    split; [rewrite sample_loss_mean; apply mean_squared_error_nonneg, HO |].
    simpl. rewrite !row_lengths_update_block, !length_update_prefix.
    repeat split.
Qed.

Lemma train_backpropagation_witness :
  exists (nn' : NeuralNetwork.t) (mse : R),
    NeuralNetwork.train zero_network [0; 0; 0; 0] [1] 0.1 = Ok (nn', mse) /\
    0 <= mse.
Proof.
  destruct (train_backpropagation zero_network [0; 0; 0; 0] [1] 0.1)
    as (nn1 & nn' & h & y & mse & _ & _ & H & _ & _ & _ & _ & _ & Hmse & _).
  - reflexivity.
  - reflexivity.
  - simpl. lia.
  - simpl. lia.
  - exists nn', mse. split; assumption.
Defined.

(** ** C3: the bounded buffer *)

Lemma addSample_data (this : Trainer.t) (gameState : GameState) (a : R) :
  (length (Trainer.trainingData this) <= Trainer.maxSamples)%nat ->
  exists this',
    Trainer.addSample this (Some gameState) a = Ok this' /\
    Trainer.trainingData this'
    = drop (length (Trainer.trainingData this ++ [sample_of gameState a])
            - Trainer.maxSamples)
           (Trainer.trainingData this ++ [sample_of gameState a]).
Proof.
  intros Hlen. eexists. split; [reflexivity |]. simpl.
  change {| Trainer.inputs := NeuralNetwork.features gameState;
            Trainer.target := [a] |} with (sample_of gameState a).
  set (data := Trainer.trainingData this ++ [sample_of gameState a]).
  assert (Hd : length data = S (length (Trainer.trainingData this))).
  { unfold data. rewrite length_app. simpl. lia. }
  destruct (Nat.ltb_spec Trainer.maxSamples (length data)) as [Hgt|Hle].
  - replace (length data - Trainer.maxSamples)%nat with 1%nat by lia.
    destruct data; reflexivity.
  - replace (length data - Trainer.maxSamples)%nat with 0%nat by lia.
    reflexivity.
Qed.

Lemma addSample_length (this this' : Trainer.t) (gameState : option GameState)
    (a : R) :
  (length (Trainer.trainingData this) <= Trainer.maxSamples)%nat ->
  Trainer.addSample this gameState a = Ok this' ->
  (length (Trainer.trainingData this') <= Trainer.maxSamples)%nat.
Proof.
  intros Hlen H. destruct gameState as [gs|]; [|discriminate].
  destruct (addSample_data this gs a Hlen) as (this1 & H1 & Hdata).
  rewrite H in H1. injection H1 as <-.
  rewrite Hdata, length_drop, length_app. simpl. lia.
Qed.

Lemma train_data (this this' : Trainer.t) (lr loss : R) (epochs k k' : nat)
    (g : source) :
  Trainer.train this lr epochs g k = Ok (this', loss, k') ->
  Trainer.trainingData this' = Trainer.trainingData this.
Proof.
  unfold Trainer.train.
  destruct (_ <? _)%nat; [intros [= <- _ _]; reflexivity |].
  destruct (Trainer.train_epochs _ _ _ _ _) as [[[[net tot] n] k1]| | |];
    simpl; try discriminate.
  destruct (divide _ _); simpl; try discriminate.
  intros [= <- _ _]. reflexivity.
Qed.

Lemma step_length (this this' : Trainer.t) :
  step this this' ->
  (length (Trainer.trainingData this) <= Trainer.maxSamples)%nat ->
  (length (Trainer.trainingData this') <= Trainer.maxSamples)%nat.
Proof.
  intros Hstep Hlen.
  destruct Hstep as [this gs a this' H|this gs this' H
                    |this lr epochs g k this' loss k' H
                    |this lr g k this' k' H| | | |]; simpl; try exact Hlen.
  - eapply addSample_length; eassumption.
  - unfold Trainer.collectFromGameState in H.
    destruct (Trainer.calculateOptimalAction gs); simpl in H; try discriminate.
    eapply addSample_length; eassumption.
  - rewrite (train_data _ _ _ _ _ _ _ _ H). exact Hlen.
  - unfold Trainer.trainStep in H.
    destruct (negb _); [discriminate |].
    destruct (Trainer.train _ _ _ _ _) as [[[this1 loss] k1]| | |] eqn:Ht;
      simpl in H; try discriminate.
    injection H as <- _. rewrite (train_data _ _ _ _ _ _ _ _ Ht). exact Hlen.
  - lia.
Qed.

Lemma add_samples_cons (this : Trainer.t) (gameState : GameState) (a : R)
    (news : list (GameState * R)) :
  add_samples this ((gameState, a) :: news)
  = this1 ← Trainer.addSample this (Some gameState) a ; add_samples this1 news.
Proof. reflexivity. Qed.

Lemma add_samples_data (news : list (GameState * R)) (this : Trainer.t) :
  (length (Trainer.trainingData this) <= Trainer.maxSamples)%nat ->
  exists this',
    add_samples this news = Ok this' /\
    Trainer.trainingData this'
    = drop (length (Trainer.trainingData this) + length news
            - Trainer.maxSamples)
           (Trainer.trainingData this
            ++ map (fun '(gameState, a) => sample_of gameState a) news).
Proof.
  revert this. induction news as [|[gs a] news IH]; intros this Hlen.
  - exists this. split; [reflexivity |]. simpl.
    rewrite app_nil_r.
    replace (_ + 0 - _)%nat with 0%nat by lia. reflexivity.
  - destruct (addSample_data this gs a Hlen) as (this1 & H1 & Hdata).
    assert (Hlen1 : (length (Trainer.trainingData this1)
                     <= Trainer.maxSamples)%nat).
    { eapply addSample_length; eassumption. }
    destruct (IH this1 Hlen1) as (this' & H' & Hdata').
    exists this'. split.
    + rewrite add_samples_cons, H1. exact H'.
    + rewrite Hdata'. rewrite Hdata at 2. rewrite Hdata. cbn [map].
      set (data := Trainer.trainingData this) in *.
      set (s := sample_of gs a).
      set (rest := map _ news).
      rewrite length_drop, !length_app. simpl length.
      assert (Hrest : length rest = length news) by apply length_map.
      destruct (decide (length data + 1 <= Trainer.maxSamples)%nat) as [Hle|Hgt].
      * replace (length data + 1 - Trainer.maxSamples)%nat with 0%nat by lia.
        rewrite drop_0, <- app_assoc. simpl. f_equal. lia.
      * replace (length data + 1 - Trainer.maxSamples)%nat with 1%nat by lia.
        replace (data ++ s :: rest) with ((data ++ [s]) ++ rest)
          by (rewrite <- app_assoc; reflexivity).
        rewrite <- (drop_app_le (data ++ [s]) rest 1)
          by (rewrite length_app; simpl; lia).
        rewrite drop_drop. f_equal. lia.
Qed.

(** C3.  The capacity is 10000.  A call of [addSample] on a buffer within
    the capacity leaves a buffer within the capacity: below the capacity
    the sample is appended; at the capacity the element at index 0, the
    one inserted first, is dropped, and the others keep their order with
    the new sample last.  Samples added one after the other to a buffer
    within the capacity leave the newest [maxSamples] of them in the order
    of insertion.  Every state reached from a new trainer by its operations
    has a buffer within the capacity. *)
#[warnings="-abstract-large-number"] Theorem buffer_fifo_bounded :
  Trainer.maxSamples = 10000%nat /\
  (forall this gameState a,
     (length (Trainer.trainingData this) <= Trainer.maxSamples)%nat ->
     exists this',
       Trainer.addSample this (Some gameState) a = Ok this' /\
       (length (Trainer.trainingData this') <= Trainer.maxSamples)%nat /\
       ((length (Trainer.trainingData this) < Trainer.maxSamples)%nat ->
        Trainer.trainingData this'
        = Trainer.trainingData this ++ [sample_of gameState a]) /\
       (length (Trainer.trainingData this) = Trainer.maxSamples ->
        exists oldest rest,
          Trainer.trainingData this = oldest :: rest /\
          Trainer.trainingData this' = rest ++ [sample_of gameState a])) /\
  (forall this news,
     (length (Trainer.trainingData this) <= Trainer.maxSamples)%nat ->
     exists this',
       add_samples this news = Ok this' /\
       Trainer.trainingData this'
       = drop (length (Trainer.trainingData this) + length news
               - Trainer.maxSamples)
              (Trainer.trainingData this
               ++ map (fun '(gameState, a) => sample_of gameState a) news)) /\
  (forall nn this,
     rtc step (Trainer.new nn) this ->
     (length (Trainer.trainingData this) <= Trainer.maxSamples)%nat).
Proof.
  split; [reflexivity |]. split; [|split].
  - intros this gs a Hlen.
    destruct (addSample_data this gs a Hlen) as (this' & H & Hdata).
    exists this'. split; [exact H |].
    split; [eapply addSample_length; eassumption |].
    rewrite Hdata, length_app. simpl length. split.
    + intros Hlt.
      replace (_ + 1 - _)%nat with 0%nat by lia. reflexivity.
    + intros Heq.
      replace (_ + 1 - _)%nat with 1%nat by lia.
      destruct (Trainer.trainingData this) as [|oldest rest].
      * simpl in Heq. pose proof maxSamples_pos. lia.
      * exists oldest, rest. split; reflexivity.
  - intros this news Hlen. apply add_samples_data, Hlen.
  - intros nn this Hreach.
    assert (Hnew : (length (Trainer.trainingData (Trainer.new nn))
                    <= Trainer.maxSamples)%nat) by (simpl; lia).
    revert Hnew. induction Hreach as [|t1 t2 t3 Hstep _ IH]; intros Hlen.
    + exact Hlen.
    + apply IH. eapply step_length; eassumption.
Qed.

Lemma buffer_fifo_bounded_witness :
  exists this',
    Trainer.addSample (Trainer.new zero_network) (Some still) 1 = Ok this' /\
    Trainer.trainingData this' = [sample_of still 1].
Proof.
  destruct buffer_fifo_bounded as (_ & Hadd & _).
  destruct (Hadd (Trainer.new zero_network) still 1)
    as (this' & H & _ & Hlt & _).
  - simpl. lia.
  - exists this'. split; [exact H |].
    apply Hlt. simpl. pose proof maxSamples_pos. lia.
Defined.

(** ** Sequencing of loops *)

Lemma foldM_app {A S} (body : S -> A -> outcome S) (xs ys : list A) (s : S) :
  foldM body (xs ++ ys) s = s' ← foldM body xs s ; foldM body ys s'.
Proof.
  revert s. induction xs as [|x xs IH]; intros s; simpl; [reflexivity |].
  destruct (body s x); simpl; try reflexivity. apply IH.
Qed.

Lemma bind_ext {A B} (m : outcome A) (f g : A -> outcome B) :
  (forall a, f a = g a) -> m ≫= f = m ≫= g.
Proof. intros H. destruct m; simpl; [apply H | reflexivity ..]. Qed.

Lemma bind_assoc {A B C} (m : outcome A) (f : A -> outcome B)
    (g : B -> outcome C) :
  (m ≫= f) ≫= g = m ≫= (fun a => f a ≫= g).
Proof. destruct m; reflexivity. Qed.

(** ** The batches of an epoch *)

Lemma train_batches_unfold (lr : R) (l : list Trainer.sample) (i : nat)
    (st : NeuralNetwork.t * R * nat) :
  Trainer.train_batches lr l i st
  = if decide (i < length l)%nat then
      st' ← Trainer.train_batch lr
              (Trainer.slice l i (i + Trainer.batchSize)) st ;
      Trainer.train_batches lr l (i + Trainer.batchSize) st'
    else Ok st.
Proof.
  simp train_batches.
  destruct (decide (i < length l)%nat); simpl; [|reflexivity].
  destruct (Trainer.train_batch _ _ _); reflexivity.
Qed.

Lemma slice_take_drop {A} (l : list A) (i size : nat) :
  Trainer.slice l i (i + size) = take size (drop i l).
Proof. unfold Trainer.slice. f_equal. lia. Qed.

(** The batches of one epoch, taken together, are one pass over the
    shuffled array from position [i] on. *)
Lemma train_batches_pass (lr : R) (l : list Trainer.sample) (n : nat) :
  forall (i : nat) (st : NeuralNetwork.t * R * nat),
    (length l - i <= n)%nat ->
    Trainer.train_batches lr l i st = Trainer.train_batch lr (drop i l) st.
Proof.
  induction n as [|n IH]; intros i st Hn; rewrite train_batches_unfold.
  - destruct (decide (i < length l)%nat); [lia |].
    rewrite drop_ge by lia. reflexivity.
  - destruct (decide (i < length l)%nat) as [Hi|Hi].
    + rewrite slice_take_drop.
      rewrite <- (take_drop Trainer.batchSize (drop i l)) at 2.
      unfold Trainer.train_batch at 2. rewrite foldM_app.
      apply bind_ext. intros st'. rewrite drop_drop.
      apply IH. unfold Trainer.batchSize. lia.
    + rewrite drop_ge by lia. reflexivity.
Qed.

(** The batches are the contiguous chunks of [batchSize] samples. *)
Lemma train_batches_chunks_from (lr : R) (l : list Trainer.sample) (n : nat) :
  forall (b : nat) (st : NeuralNetwork.t * R * nat),
    (length l - b * Trainer.batchSize <= n)%nat ->
    Trainer.train_batches lr l (b * Trainer.batchSize) st
    = foldM (fun st batch => Trainer.train_batch lr batch st)
            (map (fun b => take Trainer.batchSize
                             (drop (b * Trainer.batchSize) l))
                 (seq b ((length l + Trainer.batchSize - 1)
                         / Trainer.batchSize - b)))
            st.
Proof.
  assert (Hdiv : forall b, (b * Trainer.batchSize < length l)%nat <->
            (b < (length l + Trainer.batchSize - 1) / Trainer.batchSize)%nat).
  { intros b. unfold Trainer.batchSize.
    pose proof (Nat.div_mod_eq (length l + 32 - 1) 32) as Hq.
    pose proof (Nat.mod_upper_bound (length l + 32 - 1) 32) as Hr.
    lia. }
  induction n as [|n IH]; intros b st Hn; rewrite train_batches_unfold.
  - destruct (decide _) as [Hi|Hi]; [lia |].
    rewrite Hdiv in Hi.
    replace (_ / _ - b)%nat with 0%nat by lia. reflexivity.
  - destruct (decide _) as [Hi|Hi].
    + pose proof (proj1 (Hdiv b) Hi) as Hb.
      replace (_ / _ - b)%nat
        with (S ((length l + Trainer.batchSize - 1) / Trainer.batchSize - S b))
        by lia.
      simpl seq. simpl map. simpl foldM.
      rewrite slice_take_drop. apply bind_ext. intros st'.
      replace (b * Trainer.batchSize + Trainer.batchSize)%nat
        with (S b * Trainer.batchSize)%nat by lia.
      apply IH. unfold Trainer.batchSize in *. lia.
    + rewrite Hdiv in Hi.
      replace (_ / _ - b)%nat with 0%nat by lia. reflexivity.
Qed.

Lemma train_batches_chunks (lr : R) (l : list Trainer.sample)
    (st : NeuralNetwork.t * R * nat) :
  Trainer.train_batches lr l 0 st
  = foldM (fun st batch => Trainer.train_batch lr batch st)
          (chunks Trainer.batchSize l) st.
Proof.
  unfold chunks, range.
  rewrite <- (Nat.sub_0_r (_ / _)).
  apply (train_batches_chunks_from lr l (length l) 0). simpl. lia.
Qed.

Lemma concat_chunks_upto {A} (size : nat) (l : list A) (n : nat) :
  concat (map (fun b => take size (drop (b * size) l)) (range n))
  = take (n * size) l.
Proof.
  induction n as [|n IH].
  - reflexivity.
  - rewrite range_S, map_app, concat_app, IH. simpl.
    rewrite app_nil_r, take_take_drop. f_equal. lia.
Qed.

(** The chunks of [batchSize] put end to end are the list; every chunk but
    the last has [batchSize] elements, the last has between 1 and
    [batchSize]. *)
Lemma chunks_batchSize {A} (l : list A) :
  concat (chunks Trainer.batchSize l) = l /\
  forall b c,
    chunks Trainer.batchSize l !! b = Some c ->
    c = take Trainer.batchSize (drop (b * Trainer.batchSize) l) /\
    (1 <= length c <= Trainer.batchSize)%nat /\
    ((S b < length (chunks Trainer.batchSize l))%nat ->
     length c = Trainer.batchSize).
Proof.
  unfold chunks, Trainer.batchSize.
  pose proof (Nat.div_mod_eq (length l + 32 - 1) 32) as Hq.
  pose proof (Nat.mod_upper_bound (length l + 32 - 1) 32) as Hr.
  set (n := ((length l + 32 - 1) / 32)%nat) in *.
  split.
  - rewrite concat_chunks_upto. apply take_ge. lia.
  - intros b c Hc. rewrite length_map, length_range.
    unfold range in Hc. rewrite list_lookup_fmap in Hc.
    destruct (seq 0 n !! b) as [b'|] eqn:Hb; [|discriminate].
    apply lookup_seq in Hb as [-> Hb]. simpl in Hc. injection Hc as <-.
    split; [reflexivity |].
    rewrite length_take, length_drop. lia.
Qed.

(** ** The shuffle *)

Lemma floor_index (r : R) (i : nat) :
  0 <= r < 1 -> (Trainer.floor (r * INR (i + 1)) <= i)%nat.
Proof.
  intros [H0 H1]. unfold Trainer.floor.
  set (x := r * INR (i + 1)).
  assert (Hi : 0 < INR (i + 1)) by (apply lt_0_INR; lia).
  assert (Hx0 : 0 <= x) by (apply Rmult_le_pos; lra).
  assert (Hx1 : x < INR (i + 1)).
  { unfold x. rewrite <- (Rmult_1_l (INR (i + 1))) at 2.
    apply Rmult_lt_compat_r; assumption. }
  destruct (base_Int_part x) as [Hle Hgt].
  assert (Hz : (Int_part x < Z.of_nat (i + 1))%Z).
  { apply lt_IZR. rewrite <- INR_IZR_INZ. lra. }
  lia.
Qed.

Lemma swap_Permutation {A} (l : list A) (i j : nat) :
  Trainer.swap l i j ≡ₚ l.
Proof.
  unfold Trainer.swap.
  destruct (l !! i) as [x|] eqn:Hi; [|reflexivity].
  destruct (l !! j) as [y|] eqn:Hj; [|reflexivity].
  apply Permutation_insert_swap; assumption.
Qed.

Lemma shuffle_from_Permutation {A} (g : source) (i : nat) :
  forall (l : list A) (k : nat), (Trainer.shuffle_from g i l k).1 ≡ₚ l.
Proof.
  induction i as [|i IH]; intros l k; simpl; [reflexivity |].
  rewrite IH. apply swap_Permutation.
Qed.

Lemma shuffle_Permutation {A} (g : source) (l : list A) (k : nat) :
  (Trainer.shuffle g l k).1 ≡ₚ l.
Proof. apply shuffle_from_Permutation. Qed.

(** Wherever the shuffle swaps, both positions exist. *)
Lemma shuffle_swaps_inside {A} (g : source) (l : list A) (i k : nat) :
  (i < length l)%nat ->
  is_Some (l !! i) /\
  is_Some (l !! Trainer.floor (draw g k * INR (i + 1))).
Proof.
  intros Hi. pose proof (floor_index (draw g k) i (draw_unit g k)).
  split; apply lookup_lt_is_Some_2; lia.
Qed.

Lemma epoch_orders_spec (g : source) (data : list Trainer.sample)
    (epochs : nat) :
  forall k,
    length (epoch_orders g data k epochs).1 = epochs /\
    Forall (fun order => order ≡ₚ data) (epoch_orders g data k epochs).1.
Proof.
  induction epochs as [|e IH]; intros k; simpl.
  - split; [reflexivity | constructor].
  - pose proof (shuffle_Permutation g data k) as Hp.
    destruct (Trainer.shuffle g data k) as [sh k1].
    destruct (IH k1) as [Hlen Hall].
    destruct (epoch_orders g data k1 e) as [orders k2]. simpl in *.
    split; [lia |]. constructor; assumption.
Qed.

Lemma length_concat_orders (data : list Trainer.sample)
    (orders : list (list Trainer.sample)) :
  Forall (fun order => order ≡ₚ data) orders ->
  length (concat orders) = (length orders * length data)%nat.
Proof.
  induction 1 as [|o orders Ho _ IH]; simpl; [reflexivity |].
  rewrite length_app, IH, (Permutation_length Ho). reflexivity.
Qed.

(** ** The epochs of a training run *)

Lemma train_epoch_pass (lr : R) (data : list Trainer.sample) (g : source)
    (st : NeuralNetwork.t * R * nat) (k : nat) :
  Trainer.train_epoch lr data g (st, k)
  = st' ← Trainer.train_batch lr (Trainer.shuffle g data k).1 st ;
    Ok (st', (Trainer.shuffle g data k).2).
Proof.
  unfold Trainer.train_epoch. destruct st as [[net tot] n].
  destruct (Trainer.shuffle g data k) as [sh k1]. simpl.
  rewrite (train_batches_pass lr sh (length sh)) by lia.
  rewrite drop_0.
  destruct (Trainer.train_batch lr sh (net, tot, n)) as [[[net' tot'] n']| | |];
    reflexivity.
Qed.

(** A run of [epochs] epochs is one pass over the shuffled copies of the
    data, one after the other. *)
Lemma train_epochs_pass (lr : R) (data : list Trainer.sample) (g : source)
    (epochs : nat) :
  forall (st : NeuralNetwork.t * R * nat) (k : nat),
    Trainer.train_epochs lr data g epochs (st, k)
    = st' ← Trainer.train_batch lr
              (concat (epoch_orders g data k epochs).1) st ;
      Ok (st', (epoch_orders g data k epochs).2).
Proof.
  unfold Trainer.train_epochs, range. generalize 0%nat as a.
  induction epochs as [|e IH]; intros a st k.
  - reflexivity.
  - cbn [seq foldM]. rewrite train_epoch_pass.
    cbn [epoch_orders].
    destruct (Trainer.shuffle g data k) as [sh k1] eqn:Hsh. simpl fst. simpl snd.
    specialize (IH (S a)).
    destruct (epoch_orders g data k1 e) as [orders k2] eqn:Ho.
    simpl fst in *. simpl snd in *. simpl concat.
    unfold Trainer.train_batch at 2. rewrite foldM_app.
    fold (Trainer.train_batch lr sh st).
    rewrite !bind_assoc. apply bind_ext. intros st1. simpl.
    rewrite IH, Ho. reflexivity.
Qed.

Lemma train_batch_count (lr : R) (l : list Trainer.sample) :
  forall net tot n net' tot' n',
    Trainer.train_batch lr l (net, tot, n) = Ok (net', tot', n') ->
    n' = (n + length l)%nat.
Proof.
  unfold Trainer.train_batch.
  induction l as [|s l IH]; intros net tot n net' tot' n' H; simpl in H.
  - injection H as _ _ <-. simpl. lia.
  - destruct (NeuralNetwork.train net _ _ lr) as [[net1 loss]| | |];
      simpl in H; try discriminate.
    apply IH in H. simpl. lia.
Qed.

Lemma in_bounds_trained (nn : NeuralNetwork.t) (x targets : list R) (lr : R) :
  in_bounds (trained nn x targets lr) = in_bounds nn.
Proof.
  unfold in_bounds, trained. simpl.
  rewrite !length_update_prefix.
  rewrite (covers_row_lengths _ _ _ _ (row_lengths_update_block _ _ _ _)).
  rewrite (covers_row_lengths _ _ _ _ (row_lengths_update_block _ _ _ _)).
  reflexivity.
Qed.

Lemma trainable_spec (nn : NeuralNetwork.t) (data : list Trainer.sample) :
  trainable nn data = true <->
  in_bounds nn = true /\ (0 < NeuralNetwork.outputSize nn)%nat /\
  forall s, s ∈ data ->
    length (Trainer.inputs s) = NeuralNetwork.inputSize nn /\
    (NeuralNetwork.outputSize nn <= length (Trainer.target s))%nat.
Proof.
  unfold trainable. rewrite !andb_true_iff, Nat.ltb_lt, forallb_forall.
  unfold sample_fits.
  split.
  - intros [[Hb HO] Hs]. split; [exact Hb |]. split; [exact HO |].
    intros s Hin. apply list_elem_of_In in Hin. apply Hs in Hin.
    apply andb_true_iff in Hin as [H1 H2].
    split; [apply Nat.eqb_eq, H1 | apply Nat.leb_le, H2].
  - intros (Hb & HO & Hs). split; [split; assumption |].
    intros s Hin. apply list_elem_of_In in Hin. apply Hs in Hin as [H1 H2].
    apply andb_true_iff. split; [apply Nat.eqb_eq, H1 | apply Nat.leb_le, H2].
Qed.

Lemma trainable_trained (nn : NeuralNetwork.t) (x targets : list R) (lr : R)
    (data : list Trainer.sample) :
  trainable (trained nn x targets lr) data = trainable nn data.
Proof. unfold trainable. rewrite in_bounds_trained. reflexivity. Qed.

Lemma trainable_Permutation (nn : NeuralNetwork.t)
    (data data' : list Trainer.sample) :
  data' ≡ₚ data -> trainable nn data = true -> trainable nn data' = true.
Proof.
  intros Hp. rewrite !trainable_spec. intros (Hb & HO & Hs).
  split; [exact Hb |]. split; [exact HO |].
  intros s Hin. apply Hs. rewrite <- Hp. exact Hin.
Qed.

Lemma trainable_app (nn : NeuralNetwork.t) (l1 l2 : list Trainer.sample) :
  trainable nn l1 = true -> trainable nn l2 = true ->
  trainable nn (l1 ++ l2) = true.
Proof.
  rewrite !trainable_spec. intros (Hb & HO & H1) (_ & _ & H2).
  split; [exact Hb |]. split; [exact HO |].
  intros s Hin. apply elem_of_app in Hin as [Hin|Hin];
    [apply H1, Hin | apply H2, Hin].
Qed.

Lemma trainable_concat (nn : NeuralNetwork.t) (data : list Trainer.sample)
    (orders : list (list Trainer.sample)) :
  trainable nn data = true ->
  Forall (fun order => order ≡ₚ data) orders ->
  trainable nn (concat orders) = true.
Proof.
  intros Hd. induction 1 as [|o orders Ho _ IH]; simpl.
  - apply trainable_spec in Hd as (Hb & HO & _).
    apply trainable_spec. split; [exact Hb |]. split; [exact HO |].
    intros s Hin. apply elem_of_nil in Hin. contradiction.
  - apply trainable_app; [|exact IH].
    eapply trainable_Permutation; eassumption.
Qed.

Lemma length_losses_on (lr : R) (l : list Trainer.sample) :
  forall nn, length (losses_on nn lr l) = length l.
Proof. induction l as [|s l IH]; intros nn; simpl; [|rewrite IH]; reflexivity. Qed.

(** A pass over samples that fit is a sequence of training steps, each
    returning: the network goes through [trained_on], the losses returned
    are [losses_on]. *)
Lemma train_batch_Ok (lr : R) (l : list Trainer.sample) :
  forall nn tot n,
    trainable nn l = true ->
    Trainer.train_batch lr l (nn, tot, n)
    = Ok (trained_on nn lr l, tot + total (losses_on nn lr l),
          (n + length l)%nat).
Proof.
  unfold Trainer.train_batch.
  induction l as [|s l IH]; intros nn tot n Hl; simpl.
  - do 2 f_equal; [f_equal; lra | lia].
  - apply trainable_spec in Hl as (Hb & HO & Hs).
    assert (Hl' : trainable nn l = true).
    { apply trainable_spec. split; [exact Hb |]. split; [exact HO |].
      intros s' Hin. apply Hs. right. exact Hin. }
    destruct (Hs s ltac:(left)) as [Hx Ht].
    rewrite train_Ok by assumption. simpl.
    rewrite IH by (rewrite trainable_trained; exact Hl').
    do 2 f_equal; [f_equal; lra | lia].
Qed.

(** ** C4 and C10: a training run *)

Lemma train_short (this : Trainer.t) (lr : R) (epochs : nat) (g : source)
    (k : nat) :
  (length (Trainer.trainingData this) < Trainer.batchSize)%nat ->
  Trainer.train this lr epochs g k = Ok (this, 0, k).
Proof.
  intros Hlen. unfold Trainer.train.
  replace (_ <? _)%nat with true by (symmetry; apply Nat.ltb_lt, Hlen).
  reflexivity.
Qed.

Lemma train_long (this : Trainer.t) (lr : R) (epochs : nat) (g : source)
    (k : nat) :
  (Trainer.batchSize <= length (Trainer.trainingData this))%nat ->
  Trainer.train this lr epochs g k
  = '(net, totalLoss, samplesTrained, k') ←
      Trainer.train_epochs lr (Trainer.trainingData this) g epochs
        (Trainer.nn this, 0, 0%nat, k) ;
    loss ← divide totalLoss (INR samplesTrained) ;
    Ok (Trainer.mk net (Trainer.trainingData this) (Trainer.isTraining this)
          {| Trainer.totalSamples :=
               Trainer.totalSamples (Trainer.trainingStats this);
             Trainer.currentLoss := loss;
             Trainer.trainedEpochs :=
               Trainer.trainedEpochs (Trainer.trainingStats this) + epochs |},
        loss, k').
Proof.
  intros Hlen. unfold Trainer.train.
  replace (_ <? _)%nat with false by (symmetry; apply Nat.ltb_ge, Hlen).
  reflexivity.
Qed.

Lemma train_epochs_count (lr : R) (data : list Trainer.sample) (g : source)
    (epochs k : nat) (nn net : NeuralNetwork.t) (totalLoss : R)
    (samplesTrained k' : nat) :
  Trainer.train_epochs lr data g epochs (nn, 0, 0%nat, k)
  = Ok (net, totalLoss, samplesTrained, k') ->
  samplesTrained = (epochs * length data)%nat.
Proof.
  rewrite train_epochs_pass.
  destruct (epoch_orders_spec g data epochs k) as [Hlen Hall].
  destruct (Trainer.train_batch _ _ _) as [[[net1 tot1] n1]| | |] eqn:Hb;
    simpl; try discriminate.
  intros [= <- <- <- <-].
  apply train_batch_count in Hb. rewrite Hb.
  rewrite (length_concat_orders data) by exact Hall.
  rewrite Hlen. reflexivity.
Qed.

Lemma train_run (this : Trainer.t) (lr : R) (epochs : nat) (g : source)
    (k : nat) :
  (Trainer.batchSize <= length (Trainer.trainingData this))%nat ->
  trainable (Trainer.nn this) (Trainer.trainingData this) = true ->
  (1 <= epochs)%nat ->
  let orders := (epoch_orders g (Trainer.trainingData this) k epochs).1 in
  let k' := (epoch_orders g (Trainer.trainingData this) k epochs).2 in
  let samples := concat orders in
  let losses := losses_on (Trainer.nn this) lr samples in
  Trainer.train_epochs lr (Trainer.trainingData this) g epochs
    (Trainer.nn this, 0, 0%nat, k)
  = Ok (trained_on (Trainer.nn this) lr samples, total losses,
        length samples, k') /\
  length samples = (epochs * length (Trainer.trainingData this))%nat /\
  Trainer.train this lr epochs g k
  = Ok (Trainer.mk (trained_on (Trainer.nn this) lr samples)
          (Trainer.trainingData this) (Trainer.isTraining this)
          {| Trainer.totalSamples :=
               Trainer.totalSamples (Trainer.trainingStats this);
             Trainer.currentLoss := total losses / INR (length samples);
             Trainer.trainedEpochs :=
               Trainer.trainedEpochs (Trainer.trainingStats this) + epochs |},
        total losses / INR (length samples), k').
Proof.
  intros Hlen Ht He orders k' samples losses.
  destruct (epoch_orders_spec g (Trainer.trainingData this) epochs k)
    as [Hn Hall].
  fold orders in Hn, Hall.
  assert (Hs : length samples
               = (epochs * length (Trainer.trainingData this))%nat).
  { unfold samples. rewrite (length_concat_orders _ _ Hall), Hn. reflexivity. }
  assert (Hrun : Trainer.train_epochs lr (Trainer.trainingData this) g epochs
                   (Trainer.nn this, 0, 0%nat, k)
                 = Ok (trained_on (Trainer.nn this) lr samples, total losses,
                       length samples, k')).
  { rewrite train_epochs_pass. fold orders. fold samples.
    rewrite train_batch_Ok by (apply (trainable_concat _ _ _ Ht Hall)).
    simpl. fold losses. rewrite Rplus_0_l. reflexivity. }
  split; [exact Hrun |]. split; [exact Hs |].
  rewrite train_long by exact Hlen. rewrite Hrun. simpl.
  rewrite divide_Ok; [reflexivity |].
  apply INR_pos_neq. rewrite Hs. unfold Trainer.batchSize in Hlen. nia.
Qed.

Lemma shuffle_from_draws {A} (g : source) (i : nat) :
  forall (l : list A) (k : nat),
    (Trainer.shuffle_from g i l k).2 = (k + i)%nat.
Proof.
  induction i as [|i IH]; intros l k; [simpl; lia |].
  cbn [Trainer.shuffle_from]. rewrite IH. lia.
Qed.

Lemma swap_length {A} (l : list A) (i j : nat) :
  length (Trainer.swap l i j) = length l.
Proof.
  unfold Trainer.swap.
  destruct (l !! i); [|reflexivity]. destruct (l !! j); [|reflexivity].
  rewrite !length_insert. reflexivity.
Qed.

Lemma epoch_orders_draws (g : source) (data : list Trainer.sample)
    (epochs : nat) :
  forall k,
    (epoch_orders g data k epochs).2
    = (k + epochs * (length data - 1))%nat.
Proof.
  induction epochs as [|epochs IH]; intros k; [simpl; lia |].
  cbn [epoch_orders].
  pose proof (shuffle_from_draws g (length data - 1) data k) as Hs.
  fold (Trainer.shuffle g data k) in Hs.
  destruct (Trainer.shuffle g data k) as [shuffled k1]. simpl in Hs.
  specialize (IH k1).
  destruct (epoch_orders g data k1 epochs) as [orders k2]. simpl in *.
  lia.
Qed.

(** *** The shuffle, step by step *)

Lemma swap_app_l {A} (front back : list A) (i j : nat) :
  (i < length front)%nat -> (j < length front)%nat ->
  Trainer.swap (front ++ back) i j = Trainer.swap front i j ++ back.
Proof.
  intros Hi Hj. unfold Trainer.swap.
  rewrite !lookup_app_l by assumption.
  destruct (front !! i) as [x|]; [|reflexivity].
  destruct (front !! j) as [y|]; [|reflexivity].
  rewrite insert_app_l by assumption.
  rewrite insert_app_l by (rewrite length_insert; assumption).
  reflexivity.
Qed.

(** The shuffle from position [i] down leaves what is after [i]. *)
Lemma shuffle_from_app {A} (g : source) (i : nat) :
  forall (front back : list A) (k : nat),
    (i < length front)%nat ->
    (Trainer.shuffle_from g i (front ++ back) k).1
    = (Trainer.shuffle_from g i front k).1 ++ back.
Proof.
  induction i as [|i IH]; intros front back k Hi; [reflexivity |].
  cbn [Trainer.shuffle_from].
  pose proof (floor_index (draw g k) (S i) (draw_unit g k)) as Hj.
  rewrite swap_app_l by lia.
  apply IH. rewrite swap_length. lia.
Qed.

Lemma swap_lookup {A} (l : list A) (i j : nat) :
  (i < length l)%nat -> (j < length l)%nat ->
  Trainer.swap l i j !! i = l !! j.
Proof.
  intros Hi Hj. unfold Trainer.swap.
  destruct (lookup_lt_is_Some_2 l i Hi) as [x Hx].
  destruct (lookup_lt_is_Some_2 l j Hj) as [y Hy].
  rewrite Hx, Hy.
  destruct (decide (i = j)) as [->|Hne].
  - rewrite list_lookup_insert_eq by (rewrite length_insert; exact Hj).
    congruence.
  - rewrite list_lookup_insert_ne by congruence.
    rewrite list_lookup_insert_eq by exact Hi. reflexivity.
Qed.

(** The first step of the shuffle settles the last position: it receives
    the element at the position drawn, and the rest of the run is the
    shuffle of what is before it, with the draws that follow. *)
Lemma shuffle_step {A} (g : source) (l : list A) (k : nat) :
  (2 <= length l)%nat ->
  let n := length l in
  let j := Trainer.floor (draw g k * INR n) in
  (j < n)%nat /\
  exists x,
    l !! j = Some x /\
    (Trainer.shuffle g l k).1
    = (Trainer.shuffle g (take (n - 1) (Trainer.swap l (n - 1) j)) (S k)).1
      ++ [x].
Proof.
  intros Hlen n j.
  assert (Hn : (n - 1 + 1)%nat = n) by (unfold n; lia).
  assert (Hj : (j <= n - 1)%nat).
  { unfold j. rewrite <- Hn at 1. apply floor_index, draw_unit. }
  split; [unfold n in *; lia |].
  destruct (lookup_lt_is_Some_2 l j) as [x Hx]; [unfold n in *; lia |].
  exists x. split; [exact Hx |].
  set (l' := Trainer.swap l (n - 1) j).
  assert (Hl' : length l' = n) by apply swap_length.
  assert (Hlast : l' !! (n - 1)%nat = Some x).
  { unfold l'. rewrite swap_lookup by (unfold n in *; lia). exact Hx. }
  assert (Hsplit : l' = take (n - 1) l' ++ [x]).
  { rewrite <- (take_drop (n - 1) l') at 1. f_equal.
    apply list_eq. intros [|m].
    - rewrite lookup_drop, Nat.add_0_r. exact Hlast.
    - rewrite lookup_drop. simpl.
      apply lookup_ge_None_2. lia. }
  unfold Trainer.shuffle at 1. fold n.
  replace (n - 1)%nat with (S (n - 2)) at 1 by (unfold n; lia).
  cbn [Trainer.shuffle_from].
  replace (S (n - 2) + 1)%nat with n by (unfold n; lia).
  replace (S (n - 2)) with (n - 1)%nat by (unfold n; lia).
  fold j. fold l'. rewrite Hsplit at 1.
  rewrite shuffle_from_app by (rewrite length_take; lia).
  f_equal. unfold Trainer.shuffle.
  rewrite length_take. f_equal. f_equal. lia.
Qed.

Lemma shuffle_from_ext {A} (g g' : source) (i : nat) :
  forall (l : list A) (k : nat),
    (forall m, (k <= m)%nat -> draw g m = draw g' m) ->
    Trainer.shuffle_from g i l k = Trainer.shuffle_from g' i l k.
Proof.
  induction i as [|i IH]; intros l k H; [reflexivity |].
  cbn [Trainer.shuffle_from]. rewrite (H k) by lia.
  apply IH. intros m Hm. apply H. lia.
Qed.

Lemma floor_INR (j : nat) : Trainer.floor (INR j) = j.
Proof. unfold Trainer.floor. rewrite Int_part_INR. apply Nat2Z.id. Qed.

(** Every order of the array is the result of the shuffle for some
    numbers drawn. *)
Lemma shuffle_reaches {A} (n : nat) :
  forall (data order : list A) (k : nat),
    length data = n -> order ≡ₚ data ->
    exists g, (Trainer.shuffle g data k).1 = order.
Proof.
  induction n as [|n IH]; intros data order k Hlen Hperm.
  - destruct data; [|discriminate].
    apply Permutation_nil_r in Hperm as ->.
    exists zeros. reflexivity.
  - destruct (decide (n = 0)%nat) as [->|Hn].
    + destruct data as [|a [|b data]]; try discriminate.
      apply Permutation_singleton_r in Hperm as ->.
      exists zeros. reflexivity.
    + destruct (exists_last (l := order)) as (init & x & ->).
      { intros ->. apply Permutation_nil_l in Hperm.
        subst data. discriminate. }
      assert (Hin : x ∈ data)
        by (rewrite <- Hperm; apply elem_of_app; right; left).
      apply list_elem_of_lookup_1 in Hin as [j Hj].
      assert (Hjn : (j < S n)%nat)
        by (rewrite <- Hlen; eapply lookup_lt_Some; exact Hj).
      set (l' := Trainer.swap data n j).
      assert (Hl' : length l' = S n)
        by (unfold l'; rewrite swap_length; exact Hlen).
      assert (Hlast : l' !! n = Some x).
      { unfold l'. rewrite swap_lookup by lia. exact Hj. }
      assert (Hsplit : l' = take n l' ++ [x]).
      { rewrite <- (take_drop n l') at 1. f_equal.
        apply list_eq. intros [|m].
        - rewrite lookup_drop, Nat.add_0_r. exact Hlast.
        - rewrite lookup_drop. simpl. apply lookup_ge_None_2. lia. }
      assert (Hfront : init ≡ₚ take n l').
      { apply (Permutation_app_inv_r [x]).
        rewrite <- Hsplit. rewrite Hperm. symmetry.
        apply swap_Permutation. }
      destruct (IH (take n l') init (S k)) as [g' Hg'];
        [rewrite length_take; lia | exact Hfront |].
      assert (Hr : 0 <= INR j / INR (S n) < 1).
      { assert (H0 : 0 <= INR j) by apply pos_INR.
        assert (H1 : INR j < INR (S n)) by (apply lt_INR; exact Hjn).
        split.
        - apply Rmult_le_pos; [exact H0 |].
          left. apply Rinv_0_lt_compat. lra.
        - apply (Rmult_lt_reg_r (INR (S n))); [lra |].
          unfold Rdiv. rewrite Rmult_assoc, Rinv_l by lra. lra. }
      exists (with_draw g' k (INR j / INR (S n)) Hr).
      destruct (shuffle_step (with_draw g' k (INR j / INR (S n)) Hr)
                  data k) as (_ & y & Hy & Hs); [lia |].
      rewrite Hlen in Hy, Hs.
      assert (Hfloor : Trainer.floor
                (draw (with_draw g' k (INR j / INR (S n)) Hr) k
                 * INR (S n)) = j).
      { cbn [draw with_draw]. rewrite Nat.eqb_refl.
        unfold Rdiv. rewrite Rmult_assoc, Rinv_l, Rmult_1_r.
        - apply floor_INR.
        - apply not_0_INR. lia. }
      rewrite Hfloor in Hy, Hs.
      replace (S n - 1)%nat with n in Hs by lia. fold l' in Hs.
      rewrite Hs. f_equal; [|congruence].
      rewrite <- Hg'. unfold Trainer.shuffle. f_equal.
      apply shuffle_from_ext. intros m Hm. cbn [draw with_draw].
      replace (m =? k)%nat with false
        by (symmetry; apply Nat.eqb_neq; lia).
      reflexivity.
Qed.

(** The passes of a run are the shuffles of the buffer with the numbers
    drawn one after the other. *)
Lemma epoch_orders_lookup (g : source) (data : list Trainer.sample)
    (epochs : nat) :
  forall k e,
    (e < epochs)%nat ->
    (epoch_orders g data k epochs).1 !! e
    = Some (Trainer.shuffle g data (k + e * (length data - 1))).1.
Proof.
  induction epochs as [|epochs IH]; intros k e He; [lia |].
  cbn [epoch_orders].
  pose proof (shuffle_from_draws g (length data - 1) data k) as Hs.
  fold (Trainer.shuffle g data k) in Hs.
  destruct (Trainer.shuffle g data k) as [shuffled k1] eqn:Hsh.
  simpl in Hs.
  specialize (IH k1).
  destruct (epoch_orders g data k1 epochs) as [orders k2].
  destruct e as [|e]; cbn [fst lookup list_lookup].
  - rewrite Nat.mul_0_l, Nat.add_0_r, Hsh. reflexivity.
  - simpl in IH. rewrite IH by lia. f_equal. f_equal. f_equal. lia.
Qed.

(** C4.  The batch size is 32.  With fewer than 32 samples in the buffer,
    [train] returns 0 and the trainer as it was: no error, the same
    statistics, the same buffer, no random number drawn.  With at least 32
    samples that fit the network and at least one epoch, the run shuffles a
    copy of the buffer once per epoch, so every pass runs over a
    permutation of the whole buffer; the batches of a pass are its
    contiguous chunks of 32, the last possibly shorter, and training on
    them is training on every sample of the pass once, in order; the run
    returns, leaves the buffer as it was, adds [epochs] to [trainedEpochs],
    and sets and returns [currentLoss], the sum of the losses of all the
    steps divided by their number, [epochs] times the length of the
    buffer.  The pass of epoch [e] is the Fisher-Yates shuffle of the
    buffer with the next [length - 1] numbers drawn: its first number [r]
    picks the position [floor(r * length)], whose sample becomes the last
    of the pass, and the samples before it are the shuffle, with the
    numbers that follow, of the buffer with the sample picked and the last
    sample exchanged and the last position left out; and every order of
    the buffer is the pass for some numbers drawn. *)
Theorem train_schedule :
  Trainer.batchSize = 32%nat /\
  (forall this lr epochs g k,
     (length (Trainer.trainingData this) < Trainer.batchSize)%nat ->
     Trainer.train this lr epochs g k = Ok (this, 0, k)) /\
  (forall lr (order : list Trainer.sample) st,
     Trainer.train_batches lr order 0 st
     = foldM (fun st batch => Trainer.train_batch lr batch st)
             (chunks Trainer.batchSize order) st /\
     Trainer.train_batches lr order 0 st = Trainer.train_batch lr order st) /\
  (forall order : list Trainer.sample,
     concat (chunks Trainer.batchSize order) = order /\
     forall b c,
       chunks Trainer.batchSize order !! b = Some c ->
       c = take Trainer.batchSize (drop (b * Trainer.batchSize) order) /\
       (1 <= length c <= Trainer.batchSize)%nat /\
       ((S b < length (chunks Trainer.batchSize order))%nat ->
        length c = Trainer.batchSize)) /\
  (forall this lr epochs g k,
     (Trainer.batchSize <= length (Trainer.trainingData this))%nat ->
     trainable (Trainer.nn this) (Trainer.trainingData this) = true ->
     (1 <= epochs)%nat ->
     exists orders k',
       epoch_orders g (Trainer.trainingData this) k epochs = (orders, k') /\
       length orders = epochs /\
       Forall (fun order => order ≡ₚ Trainer.trainingData this) orders /\
       let samples := concat orders in
       let losses := losses_on (Trainer.nn this) lr samples in
       length samples = (epochs * length (Trainer.trainingData this))%nat /\
       length losses = length samples /\
       Trainer.train_batch lr samples (Trainer.nn this, 0, 0%nat)
       = Ok (trained_on (Trainer.nn this) lr samples, total losses,
             length samples) /\
       Trainer.train this lr epochs g k
       = Ok (Trainer.mk (trained_on (Trainer.nn this) lr samples)
               (Trainer.trainingData this) (Trainer.isTraining this)
               {| Trainer.totalSamples :=
                    Trainer.totalSamples (Trainer.trainingStats this);
                  Trainer.currentLoss := total losses / INR (length samples);
                  Trainer.trainedEpochs :=
                    Trainer.trainedEpochs (Trainer.trainingStats this)
                    + epochs |},
             total losses / INR (length samples), k')) /\
  (forall (g : source) (data : list Trainer.sample) (k epochs e : nat),
     (e < epochs)%nat ->
     (epoch_orders g data k epochs).1 !! e
     = Some (Trainer.shuffle g data (k + e * (length data - 1))).1) /\
  (forall (g : source) (data : list Trainer.sample) (k : nat),
     (2 <= length data)%nat ->
     let n := length data in
     let j := Trainer.floor (draw g k * INR n) in
     (j < n)%nat /\
     exists picked,
       data !! j = Some picked /\
       (Trainer.shuffle g data k).1
       = (Trainer.shuffle g (take (n - 1) (Trainer.swap data (n - 1) j))
            (S k)).1
         ++ [picked]) /\
  (forall (g : source) (data : list Trainer.sample) (k : nat),
     (length data <= 1)%nat -> (Trainer.shuffle g data k).1 = data) /\
  (forall (data order : list Trainer.sample) (k : nat),
     order ≡ₚ data ->
     exists g, (Trainer.shuffle g data k).1 = order).
Proof.
  split; [reflexivity |]. split; [exact train_short |].
  split; [|split; [exact chunks_batchSize |]].
  - intros lr order st. split; [apply train_batches_chunks |].
    rewrite (train_batches_pass lr order (length order)) by lia.
    rewrite drop_0. reflexivity.
  - split; [|split; [|split; [|split]]].
    + intros this lr epochs g k Hlen Ht He.
      destruct (train_run this lr epochs g k Hlen Ht He)
        as (Hrun & Hs & Htrain).
      destruct (epoch_orders_spec g (Trainer.trainingData this) epochs k)
        as [Hn Hall].
      destruct (epoch_orders g (Trainer.trainingData this) k epochs)
        as [orders k'] eqn:Ho.
      simpl in Hrun, Hs, Htrain, Hn, Hall.
      exists orders, k'. split; [reflexivity |].
      split; [exact Hn |]. split; [exact Hall |].
      split; [exact Hs |]. split; [apply length_losses_on |].
      split; [|exact Htrain].
      rewrite train_batch_Ok by (apply (trainable_concat _ _ _ Ht Hall)).
      rewrite Rplus_0_l. reflexivity.
    + intros g data k epochs e He. apply epoch_orders_lookup, He.
    + intros g data k Hlen. apply shuffle_step, Hlen.
    + intros g data k Hlen. unfold Trainer.shuffle.
      replace (length data - 1)%nat with 0%nat by lia. reflexivity.
    + intros data order k Hperm.
      apply (shuffle_reaches (length data)); [reflexivity | exact Hperm].
Qed.

(** C10.  Nothing guards the division [totalLoss / samplesTrained].  When
    the epochs of a run complete, [samplesTrained] is [epochs] times the
    length of the buffer; with at least 32 samples and at least one epoch
    this is positive, the division is defined and [train] sets and returns
    its quotient.  With at least 32 samples and [epochs = 0] the loop makes
    no pass, [totalLoss] and [samplesTrained] are both 0, and [train]
    reaches the division with the divisor 0. *)
Theorem train_division :
  (forall this lr epochs g k net totalLoss samplesTrained k',
     Trainer.train_epochs lr (Trainer.trainingData this) g epochs
       (Trainer.nn this, 0, 0%nat, k)
     = Ok (net, totalLoss, samplesTrained, k') ->
     samplesTrained = (epochs * length (Trainer.trainingData this))%nat /\
     ((Trainer.batchSize <= length (Trainer.trainingData this))%nat ->
      (1 <= epochs)%nat ->
      (0 < samplesTrained)%nat /\
      divide totalLoss (INR samplesTrained)
      = Ok (totalLoss / INR samplesTrained) /\
      exists this',
        Trainer.train this lr epochs g k
        = Ok (this', totalLoss / INR samplesTrained, k') /\
        Trainer.currentLoss (Trainer.trainingStats this')
        = totalLoss / INR samplesTrained)) /\
  (forall this lr epochs g k,
     (Trainer.batchSize <= length (Trainer.trainingData this))%nat ->
     trainable (Trainer.nn this) (Trainer.trainingData this) = true ->
     (1 <= epochs)%nat ->
     exists this' loss k',
       Trainer.train this lr epochs g k = Ok (this', loss, k')) /\
  (forall this lr g k,
     (Trainer.batchSize <= length (Trainer.trainingData this))%nat ->
     Trainer.train_epochs lr (Trainer.trainingData this) g 0
       (Trainer.nn this, 0, 0%nat, k)
     = Ok (Trainer.nn this, 0, 0%nat, k) /\
     divide 0 (INR 0) = DivisionByZero /\
     Trainer.train this lr 0 g k = DivisionByZero).
Proof.
  split; [|split].
  - intros this lr epochs g k net totalLoss samplesTrained k' Hrun.
    pose proof (train_epochs_count _ _ _ _ _ _ _ _ _ _ Hrun) as Hn.
    split; [exact Hn |]. intros Hlen He.
    assert (Hpos : (0 < samplesTrained)%nat).
    { rewrite Hn. unfold Trainer.batchSize in Hlen. nia. }
    split; [exact Hpos |].
    assert (Hdiv : divide totalLoss (INR samplesTrained)
                   = Ok (totalLoss / INR samplesTrained)).
    { apply divide_Ok, INR_pos_neq, Hpos. }
    split; [exact Hdiv |].
    rewrite train_long by exact Hlen. rewrite Hrun. simpl. rewrite Hdiv. simpl.
    eexists. split; reflexivity.
  - intros this lr epochs g k Hlen Ht He.
    destruct (train_run this lr epochs g k Hlen Ht He) as (_ & _ & Htrain).
    eexists _, _, _. exact Htrain.
  - intros this lr g k Hlen.
    assert (Hdiv : divide 0 (INR 0) = DivisionByZero).
    { unfold divide. simpl. destruct (Req_dec_T 0 0); [reflexivity | lra]. }
    split; [reflexivity |]. split; [exact Hdiv |].
    rewrite train_long by exact Hlen.
    unfold Trainer.train_epochs, range. cbn [seq foldM mbind outcome_bind].
    rewrite Hdiv. reflexivity.
Qed.

Lemma train_schedule_witness :
  (exists this' loss k',
     Trainer.train full_buffer_trainer 0.1 1 zeros 0 = Ok (this', loss, k') /\
     Trainer.trainedEpochs (Trainer.trainingStats this') = 1%nat /\
     Trainer.currentLoss (Trainer.trainingStats this') = loss) /\
  (exists g,
     (Trainer.shuffle g [sample_of still 0; sample_of still 1] 0).1
     = [sample_of still 1; sample_of still 0]).
Proof.
  destruct train_schedule as (_ & _ & _ & _ & Hrun & _ & _ & _ & Hreach).
  split.
  - destruct (Hrun full_buffer_trainer 0.1 1%nat zeros 0%nat)
      as (orders & k' & _ & _ & _ & _ & _ & _ & H).
    + unfold Trainer.batchSize, full_buffer_trainer. simpl. lia.
    + reflexivity.
    + lia.
    + eexists _, _, _. split; [exact H |]. split; reflexivity.
  - apply Hreach. apply perm_swap.
Defined.

Lemma train_division_witness :
  Trainer.train full_buffer_trainer 0.1 0 zeros 0 = DivisionByZero /\
  exists this' loss k',
    Trainer.train full_buffer_trainer 0.1 1 zeros 0 = Ok (this', loss, k').
Proof.
  destruct train_division as (_ & Hpos & Hzero).
  split.
  - apply Hzero. unfold Trainer.batchSize, full_buffer_trainer. simpl. lia.
  - apply Hpos.
    + unfold Trainer.batchSize, full_buffer_trainer. simpl. lia.
    + reflexivity.
    + lia.
Defined.

(** ** C7: export and import *)

Lemma as_vector_json (a : list R) :
  NeuralNetwork.as_vector (Some (NeuralNetwork.json_vector a)) = Ok a.
Proof.
  unfold NeuralNetwork.as_vector, NeuralNetwork.json_vector.
  induction a as [|x a IH]; simpl; [reflexivity |].
  rewrite IH. reflexivity.
Qed.

Lemma as_matrix_json (m : list (list R)) :
  NeuralNetwork.as_matrix (Some (NeuralNetwork.json_matrix m)) = Ok m.
Proof.
  unfold NeuralNetwork.as_matrix, NeuralNetwork.json_matrix.
  induction m as [|r m IH]; cbn [map buildM]; [reflexivity |].
  rewrite as_vector_json. cbn [mbind outcome_bind].
  rewrite IH. reflexivity.
Qed.

Lemma fromJSON_toJSON (src dst : NeuralNetwork.t) :
  NeuralNetwork.fromJSON dst (NeuralNetwork.toJSON src)
  = Ok (with_parameters dst src).
Proof.
  unfold NeuralNetwork.fromJSON, NeuralNetwork.toJSON.
  change (NeuralNetwork.member "weightsIH" _)
    with (Some (NeuralNetwork.json_matrix (NeuralNetwork.weightsIH src))).
  change (NeuralNetwork.member "weightsHO" _)
    with (Some (NeuralNetwork.json_matrix (NeuralNetwork.weightsHO src))).
  change (NeuralNetwork.member "biasH" _)
    with (Some (NeuralNetwork.json_vector (NeuralNetwork.biasH src))).
  change (NeuralNetwork.member "biasO" _)
    with (Some (NeuralNetwork.json_vector (NeuralNetwork.biasO src))).
  rewrite !as_matrix_json. cbn [mbind outcome_bind].
  rewrite !as_vector_json. reflexivity.
Qed.

(** C7.  Importing what a network exports gives the receiving network the
    four parameter arrays of the exporting one, element for element, and
    leaves its declared sizes and caches; importing a network's own export
    leaves it as it was.  The import checks no dimension: the export of a
    1/1/1 network is accepted by a 4/8/1 network, whose parameters
    afterwards do not reach as far as its declared sizes, and whose next
    forward pass fails. *)
Theorem json_round_trip :
  (forall src dst,
     exists nn',
       NeuralNetwork.fromJSON dst (NeuralNetwork.toJSON src) = Ok nn' /\
       NeuralNetwork.weightsIH nn' = NeuralNetwork.weightsIH src /\
       NeuralNetwork.weightsHO nn' = NeuralNetwork.weightsHO src /\
       NeuralNetwork.biasH nn' = NeuralNetwork.biasH src /\
       NeuralNetwork.biasO nn' = NeuralNetwork.biasO src /\
       nn' = with_parameters dst src) /\
  (forall nn,
     NeuralNetwork.fromJSON nn (NeuralNetwork.toJSON nn) = Ok nn) /\
  (exists nn',
     NeuralNetwork.fromJSON zero_network (NeuralNetwork.toJSON tiny_network)
     = Ok nn' /\
     NeuralNetwork.inputSize nn' = 4%nat /\
     NeuralNetwork.weightsIH nn' = [[0]] /\
     in_bounds nn' = false /\
     NeuralNetwork.forwardPass nn' [0; 0; 0; 0] = Undefined).
Proof.
  split; [|split].
  - intros src dst. exists (with_parameters dst src).
    split; [apply fromJSON_toJSON |]. repeat split.
  - intros nn. rewrite fromJSON_toJSON. destruct nn. reflexivity.
  - exists (with_parameters zero_network tiny_network).
    split; [apply fromJSON_toJSON |]. repeat split.
Qed.

(** ** C8: the copy *)

Lemma random_row_length (g : source) (cols : nat) :
  forall k, length (NeuralNetwork.random_row g cols k).1 = cols.
Proof.
  induction cols as [|c IH]; intros k; simpl; [reflexivity |].
  specialize (IH (S k)).
  destruct (NeuralNetwork.random_row g c (S k)) as [r k']. simpl in *.
  rewrite IH. reflexivity.
Qed.

Lemma initializeWeights_exact (g : source) (rows cols : nat) :
  forall k, exact rows cols (NeuralNetwork.initializeWeights g rows cols k).1.
Proof.
  induction rows as [|n IH]; intros k; simpl.
  - split; [reflexivity | constructor].
  - pose proof (random_row_length g cols k) as Hr.
    destruct (NeuralNetwork.random_row g cols k) as [r k1].
    destruct (IH k1) as [Hlen Hall].
    destruct (NeuralNetwork.initializeWeights g n cols k1) as [w k2].
    simpl in *. split; [simpl; rewrite Hlen; reflexivity |].
    constructor; assumption.
Qed.

Lemma exact_covers (rows cols : nat) (m : list (list R)) :
  exact rows cols m -> covers rows cols m = true.
Proof.
  intros [Hlen Hall]. apply covers_spec. intros i Hi.
  destruct (lookup_lt_is_Some_2 m i) as [r Hr]; [lia |].
  exists r. split; [exact Hr |].
  rewrite Forall_lookup in Hall. rewrite (Hall i r Hr). lia.
Qed.

Lemma length_block (rows cols : nat) (m : list (list R)) :
  length (block rows cols m) = rows.
Proof. unfold block. rewrite length_map. apply length_range. Qed.

Lemma lookup_block (rows cols : nat) (m : list (list R)) (i : nat) :
  (i < rows)%nat ->
  block rows cols m !! i = Some (map (fun j => entry m i j) (range cols)).
Proof.
  intros Hi. unfold block, range.
  rewrite list_lookup_fmap, lookup_seq_lt by exact Hi. reflexivity.
Qed.

Lemma entry_block (rows cols : nat) (m : list (list R)) (i j : nat) :
  (i < rows)%nat -> (j < cols)%nat ->
  entry (block rows cols m) i j = entry m i j.
Proof.
  intros Hi Hj. unfold entry at 1.
  rewrite (nth_lookup_Some _ i [] _ (lookup_block rows cols m i Hi)).
  apply nth_map_range, Hj.
Qed.

Lemma update_block_overwrite (rows cols : nat) (src dst : list (list R)) :
  exact rows cols dst ->
  update_block rows cols (fun i j _ => entry src i j) dst
  = block rows cols src.
Proof.
  intros [Hlen Hall]. apply list_eq. intros i.
  unfold update_block. rewrite list_lookup_imap.
  destruct (decide (i < rows)%nat) as [Hi|Hi].
  - rewrite lookup_block by exact Hi.
    destruct (lookup_lt_is_Some_2 dst i) as [r Hr]; [lia |].
    rewrite Hr. simpl.
    replace (i <? rows)%nat with true by (symmetry; apply Nat.ltb_lt, Hi).
    f_equal. rewrite Forall_lookup in Hall. specialize (Hall i r Hr).
    apply list_eq. intros j. unfold update_prefix, range.
    rewrite list_lookup_imap, list_lookup_fmap.
    destruct (decide (j < cols)%nat) as [Hj|Hj].
    + rewrite lookup_seq_lt by exact Hj.
      destruct (lookup_lt_is_Some_2 r j) as [v Hv]; [lia |].
      rewrite Hv. simpl.
      replace (j <? cols)%nat with true by (symmetry; apply Nat.ltb_lt, Hj).
      reflexivity.
    + rewrite lookup_seq_ge by lia.
      rewrite (lookup_ge_None_2 r j) by lia. reflexivity.
  - rewrite (lookup_ge_None_2 dst i) by lia.
    rewrite (lookup_ge_None_2 (block rows cols src) i)
      by (rewrite length_block; lia).
    reflexivity.
Qed.

Lemma block_exact (rows cols : nat) (m : list (list R)) :
  exact rows cols m -> block rows cols m = m.
Proof.
  intros [Hlen Hall]. apply list_eq. intros i.
  destruct (decide (i < rows)%nat) as [Hi|Hi].
  - rewrite lookup_block by exact Hi.
    destruct (lookup_lt_is_Some_2 m i) as [r Hr]; [lia |].
    rewrite Hr. f_equal.
    rewrite Forall_lookup in Hall. specialize (Hall i r Hr).
    apply list_eq. intros j. unfold range.
    rewrite list_lookup_fmap.
    destruct (decide (j < cols)%nat) as [Hj|Hj].
    + rewrite lookup_seq_lt by exact Hj. simpl.
      destruct (lookup_lt_is_Some_2 r j) as [v Hv]; [lia |].
      rewrite Hv. f_equal. unfold entry.
      rewrite (nth_lookup_Some m i [] r Hr).
      apply nth_lookup_Some, Hv.
    + rewrite lookup_seq_ge by lia.
      rewrite (lookup_ge_None_2 r j) by lia. reflexivity.
  - rewrite (lookup_ge_None_2 m i) by lia.
    apply lookup_ge_None_2. rewrite length_block. lia.
Qed.

Lemma copy_entries_Ok (rows cols : nat) (src dst : list (list R)) :
  covers rows cols src = true -> exact rows cols dst ->
  NeuralNetwork.copy_entries rows cols src dst = Ok (block rows cols src).
Proof.
  intros Hsrc Hdst. unfold NeuralNetwork.copy_entries.
  rewrite (foldM_block _ (fun i j _ => entry src i j)).
  - rewrite update_block_overwrite by exact Hdst. reflexivity.
  - apply exact_covers, Hdst.
  - intros m i j Hm Hi Hj.
    rewrite (covers_read2 rows cols) by assumption.
    cbn [mbind outcome_bind].
    apply (write2_Ok _ _ _ _ _ _ _ Hm Hi Hj). reflexivity.
Qed.

Lemma copy_Ok (nn : NeuralNetwork.t) (g : source) (k : nat) :
  in_bounds nn = true ->
  NeuralNetwork.copy nn g k = Ok (clone_of nn, draws_after nn g k).
Proof.
  intros Hnn. apply in_bounds_spec in Hnn as (Hih & Hho & _ & _).
  unfold NeuralNetwork.copy, NeuralNetwork.new, draws_after.
  pose proof (initializeWeights_exact g (NeuralNetwork.inputSize nn)
                (NeuralNetwork.hiddenSize nn) k) as H1.
  destruct (NeuralNetwork.initializeWeights g (NeuralNetwork.inputSize nn) _ k)
    as [wih k1].
  cbn [snd].
  pose proof (initializeWeights_exact g (NeuralNetwork.hiddenSize nn)
                (NeuralNetwork.outputSize nn) k1) as H2.
  destruct (NeuralNetwork.initializeWeights g (NeuralNetwork.hiddenSize nn) _ k1)
    as [who k2].
  simpl in *. rewrite copy_entries_Ok by assumption. simpl.
  rewrite copy_entries_Ok by assumption. reflexivity.
Qed.

Lemma unit_value_ext (n : nat) (xs xs' : list R) (w w' : list (list R))
    (bias bias' : list R) (u : nat) :
  (forall i, (i < n)%nat -> at_ xs i = at_ xs' i) ->
  (forall i, (i < n)%nat -> entry w i u = entry w' i u) ->
  at_ bias u = at_ bias' u ->
  unit_value n xs w bias u = unit_value n xs' w' bias' u.
Proof.
  intros Hxs Hw Hb. unfold unit_value. rewrite Hb. do 2 f_equal.
  apply sigma_ext. intros i Hi. rewrite Hxs, Hw by exact Hi. reflexivity.
Qed.

Lemma map_range_ext {B} (f f' : nat -> B) (n : nat) :
  (forall i, (i < n)%nat -> f i = f' i) -> map f (range n) = map f' (range n).
Proof.
  intros H. apply map_ext_in. intros i Hi.
  apply H, elem_of_range, list_elem_of_In, Hi.
Qed.

Lemma hidden_layer_clone (nn : NeuralNetwork.t) (x : list R) :
  hidden_layer (clone_of nn) x = hidden_layer nn x.
Proof.
  unfold hidden_layer. simpl. apply map_range_ext. intros j Hj.
  apply unit_value_ext; try reflexivity.
  intros i Hi. apply entry_block; assumption.
Qed.

Lemma output_layer_clone (nn : NeuralNetwork.t) (x : list R) :
  output_layer (clone_of nn) x = output_layer nn x.
Proof.
  unfold output_layer. rewrite hidden_layer_clone. simpl.
  apply map_range_ext. intros o Ho.
  apply unit_value_ext; try reflexivity.
  intros j Hj. apply entry_block; assumption.
Qed.

Lemma in_bounds_clone (nn : NeuralNetwork.t) :
  in_bounds nn = true -> in_bounds (clone_of nn) = true.
Proof.
  intros Hnn. apply in_bounds_spec in Hnn as (Hih & Hho & Hbh & Hbo).
  apply in_bounds_spec. simpl. repeat split; try assumption;
    apply covers_spec; intros i Hi; eexists;
    (split; [apply lookup_block, Hi |]);
    rewrite length_map, length_range; lia.
Qed.

(** *** The arrays of the copy *)

Lemma alloc_rows_spec (m : list (list R)) :
  forall sto,
    Heap.alloc_rows sto m
    = (seq (length sto) (length m), sto ++ (Heap.Numbers <$> m)).
Proof.
  induction m as [|a m IH]; intros sto; simpl.
  - rewrite app_nil_r. reflexivity.
  - rewrite IH, length_app. simpl.
    rewrite Nat.add_1_r, <- app_assoc. reflexivity.
Qed.

Lemma initializeWeights_layout (g : source) (rows cols k : nat)
    (sto : Heap.store) :
  Heap.initializeWeights g rows cols k sto
  = (length sto, (NeuralNetwork.initializeWeights g rows cols k).2,
     layout sto (NeuralNetwork.initializeWeights g rows cols k).1 []).
Proof.
  unfold Heap.initializeWeights, Heap.alloc.
  destruct (NeuralNetwork.initializeWeights g rows cols k) as [m k'].
  rewrite alloc_rows_spec. simpl. f_equal.
  unfold layout. rewrite length_app. simpl. rewrite Nat.add_1_r, app_nil_r.
  rewrite <- app_assoc. simpl.
  rewrite insert_app_r_alt, Nat.sub_diag by lia. reflexivity.
Qed.

Lemma length_layout (pre post : Heap.store) (m : list (list R)) :
  length (layout pre m post) = (length pre + S (length m) + length post)%nat.
Proof.
  unfold layout. rewrite length_app. simpl.
  rewrite length_app, length_fmap. lia.
Qed.

Lemma layout_app (pre post more : Heap.store) (m : list (list R)) :
  layout pre m post ++ more = layout pre m (post ++ more).
Proof.
  unfold layout. rewrite <- !app_assoc. simpl. rewrite <- !app_assoc.
  reflexivity.
Qed.

Lemma row_refs_layout (pre post : Heap.store) (m : list (list R)) :
  Heap.row_refs (layout pre m post) (length pre)
  = Some (seq (S (length pre)) (length m)).
Proof.
  unfold Heap.row_refs, layout. rewrite list_lookup_middle by reflexivity.
  reflexivity.
Qed.

Lemma vector_layout (pre post : Heap.store) (m : list (list R)) (i : nat)
    (a : list R) :
  m !! i = Some a ->
  Heap.vector (layout pre m post) (S (length pre + i)) = Some a.
Proof.
  intros Ha. unfold Heap.vector, layout.
  rewrite lookup_app_r by lia.
  replace (S (length pre + i) - length pre)%nat with (S i) by lia. simpl.
  rewrite lookup_app_l by (rewrite length_fmap; eapply lookup_lt_Some; exact Ha).
  rewrite list_lookup_fmap, Ha. reflexivity.
Qed.

Lemma matrix_layout (pre post : Heap.store) (m : list (list R)) :
  Heap.matrix (layout pre m post) (length pre) = Some m.
Proof.
  unfold Heap.matrix. rewrite row_refs_layout. simpl.
  apply mapM_Some, Forall2_lookup. intros i.
  destruct (m !! i) as [a|] eqn:Ha.
  - rewrite lookup_seq_lt by (eapply lookup_lt_Some; exact Ha).
    constructor. apply vector_layout, Ha.
  - rewrite lookup_seq_ge by (apply lookup_ge_None; exact Ha).
    constructor.
Qed.

(** What a reference leads to does not change when arrays are added. *)
Lemma vector_app (sto more : Heap.store) (r : Heap.ref) (a : list R) :
  Heap.vector sto r = Some a -> Heap.vector (sto ++ more) r = Some a.
Proof.
  unfold Heap.vector. destruct (sto !! r) as [c|] eqn:Hc; [|discriminate].
  rewrite (lookup_app_l_Some _ _ _ _ Hc). trivial.
Qed.

Lemma row_refs_app (sto more : Heap.store) (w : Heap.ref) (rs : list Heap.ref) :
  Heap.row_refs sto w = Some rs -> Heap.row_refs (sto ++ more) w = Some rs.
Proof.
  unfold Heap.row_refs. destruct (sto !! w) as [c|] eqn:Hc; [|discriminate].
  rewrite (lookup_app_l_Some _ _ _ _ Hc). trivial.
Qed.

Lemma matrix_app (sto more : Heap.store) (w : Heap.ref) (m : list (list R)) :
  Heap.matrix sto w = Some m -> Heap.matrix (sto ++ more) w = Some m.
Proof.
  unfold Heap.matrix.
  destruct (Heap.row_refs sto w) as [rs|] eqn:Hrs; [|discriminate].
  rewrite (row_refs_app _ more _ _ Hrs). simpl.
  rewrite !mapM_Some. intros H.
  eapply Forall2_impl; [exact H |].
  intros r a Hr. apply vector_app, Hr.
Qed.

Lemma cache_app (sto more : Heap.store) (c : option Heap.ref)
    (x : option (list R)) :
  Heap.cache sto c = Some x -> Heap.cache (sto ++ more) c = Some x.
Proof.
  destruct c as [r|]; simpl; [|trivial].
  destruct (Heap.vector sto r) as [a|] eqn:Ha; [|discriminate].
  rewrite (vector_app _ more _ _ Ha). trivial.
Qed.

Lemma value_app (sto more : Heap.store) (o : Heap.object)
    (v : NeuralNetwork.t) :
  Heap.value sto o = Some v -> Heap.value (sto ++ more) o = Some v.
Proof.
  unfold Heap.value.
  destruct (Heap.matrix sto (Heap.weightsIH o)) as [wih|] eqn:H1; [|discriminate].
  destruct (Heap.matrix sto (Heap.weightsHO o)) as [who|] eqn:H2; [|discriminate].
  destruct (Heap.vector sto (Heap.biasH o)) as [bh|] eqn:H3; [|discriminate].
  destruct (Heap.vector sto (Heap.biasO o)) as [bo|] eqn:H4; [|discriminate].
  destruct (Heap.cache sto (Heap.lastInputs o)) as [li|] eqn:H5; [|discriminate].
  destruct (Heap.cache sto (Heap.lastHidden o)) as [lh|] eqn:H6; [|discriminate].
  destruct (Heap.cache sto (Heap.lastOutput o)) as [lo|] eqn:H7; [|discriminate].
  rewrite (matrix_app _ more _ _ H1), (matrix_app _ more _ _ H2),
    (vector_app _ more _ _ H3), (vector_app _ more _ _ H4),
    (cache_app _ more _ _ H5), (cache_app _ more _ _ H6),
    (cache_app _ more _ _ H7).
  trivial.
Qed.

Lemma read2_matrix (sto : Heap.store) (w : Heap.ref) (m : list (list R))
    (rows cols i j : nat) :
  Heap.matrix sto w = Some m -> covers rows cols m = true ->
  (i < rows)%nat -> (j < cols)%nat ->
  Heap.read2 sto w i j = Ok (entry m i j).
Proof.
  intros Hm Hc Hi Hj.
  destruct (proj1 (covers_spec _ _ _) Hc i Hi) as (a & Ha & Hl).
  unfold Heap.matrix in Hm. unfold Heap.read2.
  destruct (Heap.row_refs sto w) as [rs|]; [|discriminate]. simpl in *.
  apply mapM_Some in Hm.
  destruct (Forall2_lookup_r _ _ _ _ _ Hm Ha) as (r & Hr & Hv).
  rewrite Hr. simpl. rewrite Hv. simpl.
  rewrite read_Ok by lia. unfold entry.
  rewrite (nth_lookup_Some m i [] a Ha). reflexivity.
Qed.

Lemma write2_layout (pre post : Heap.store) (m : list (list R))
    (f : nat -> nat -> R -> R) (rows cols i j : nat) (v : R) :
  covers rows cols m = true -> (i < rows)%nat -> (j < cols)%nat ->
  (forall w, f i j w = v) ->
  Heap.write2 (layout pre m post) (length pre) i j v
  = Ok (layout pre (set_entry2 f m i j) post).
Proof.
  intros Hc Hi Hj Hf.
  destruct (proj1 (covers_spec _ _ _) Hc i Hi) as (a & Ha & Hl).
  pose proof (lookup_lt_Some _ _ _ Ha) as Him.
  unfold Heap.write2. rewrite row_refs_layout. simpl.
  rewrite lookup_seq_lt by exact Him. simpl.
  rewrite (vector_layout pre post m i a Ha). simpl.
  unfold write.
  replace (j <? length a)%nat with true by (symmetry; apply Nat.ltb_lt; lia).
  simpl. f_equal.
  unfold set_entry2, set_entry.
  rewrite (nth_lookup_Some m i [] a Ha), Hf.
  unfold layout. rewrite length_insert.
  rewrite insert_app_r_alt by lia.
  replace (S (length pre + i) - length pre)%nat with (S i) by lia.
  simpl. rewrite insert_app_l by (rewrite length_fmap; exact Him).
  rewrite list_fmap_insert. reflexivity.
Qed.

Lemma foldM_via {A S T} (phi : T -> S) (P : T -> Prop)
    (body : S -> A -> outcome S) (step : T -> A -> T) (xs : list A) (t : T) :
  P t ->
  (forall t x, x ∈ xs -> P t ->
     body (phi t) x = Ok (phi (step t x)) /\ P (step t x)) ->
  foldM body xs (phi t) = Ok (phi (foldl step t xs)) /\ P (foldl step t xs).
Proof.
  revert t. induction xs as [|x xs IH]; intros t Ht Hbody; simpl.
  - split; [reflexivity | exact Ht].
  - destruct (Hbody t x) as [-> Ht']; [left | exact Ht |].
    simpl. apply IH; [exact Ht' |].
    intros t0 x0 Hx0. apply Hbody. right. exact Hx0.
Qed.

Lemma copy_entries_layout (pre post : Heap.store) (src : Heap.ref)
    (m_src m : list (list R)) (rows cols : nat) :
  Heap.matrix pre src = Some m_src ->
  covers rows cols m_src = true -> exact rows cols m ->
  Heap.copy_entries rows cols src (length pre) (layout pre m post)
  = Ok (layout pre (block rows cols m_src) post).
Proof.
  intros Hsrc Hc Hm. unfold Heap.copy_entries.
  rewrite <- (update_block_overwrite rows cols m_src m Hm).
  rewrite <- foldl_set_entry2.
  apply (foldM_via (fun m => layout pre m post)
           (fun m => covers rows cols m = true)).
  { apply exact_covers, Hm. }
  intros m1 i Hi Hm1. apply elem_of_range in Hi.
  apply (foldM_via (fun m => layout pre m post)
           (fun m => covers rows cols m = true)); [exact Hm1 |].
  intros m2 j Hj Hm2. apply elem_of_range in Hj.
  split.
  - rewrite (read2_matrix _ src m_src rows cols) by
      (try assumption; unfold layout; apply matrix_app, Hsrc).
    cbn [mbind outcome_bind].
    apply (write2_layout _ _ _ _ rows cols); try assumption. reflexivity.
  - rewrite (covers_row_lengths _ _ m2); [exact Hm2 |].
    apply row_lengths_set_entry2.
Qed.

Lemma layout_nest (pre post : Heap.store) (m m' : list (list R)) :
  layout (layout pre m []) m' post
  = layout pre m
      (Heap.Rows (seq (S (length pre + S (length m))) (length m'))
       :: (Heap.Numbers <$> m') ++ post).
Proof.
  unfold layout at 1. rewrite length_layout. simpl length.
  rewrite Nat.add_0_r. rewrite layout_app. reflexivity.
Qed.

Lemma vector_after_layout (pre post : Heap.store) (m : list (list R))
    (i : nat) (a : list R) :
  post !! i = Some (Heap.Numbers a) ->
  Heap.vector (layout pre m post) (length pre + S (length m) + i) = Some a.
Proof.
  intros Ha. unfold Heap.vector, layout.
  rewrite lookup_app_r by lia.
  replace (length pre + S (length m) + i - length pre)%nat
    with (S (length m + i)) by lia.
  simpl. rewrite lookup_app_r by (rewrite length_fmap; lia).
  rewrite length_fmap.
  replace (length m + i - length m)%nat with i by lia.
  rewrite Ha. reflexivity.
Qed.

Lemma new_layout (g : source) (k i h o : nat) (sto : Heap.store) :
  let init1 := NeuralNetwork.initializeWeights g i h k in
  let init2 := NeuralNetwork.initializeWeights g h o init1.2 in
  Heap.new g k i h o sto
  = (Heap.mk i h o (length sto) (length sto + S i)
       (length sto + S i + S h) (length sto + S i + S h + 1)
       None None None,
     init2.2,
     layout (layout sto init1.1 []) init2.1
       [Heap.Numbers (replicate h 0); Heap.Numbers (replicate o 0)]).
Proof.
  intros init1 init2. unfold Heap.new.
  rewrite initializeWeights_layout. fold init1.
  rewrite initializeWeights_layout. fold init2.
  unfold Heap.alloc.
  destruct (initializeWeights_exact g i h k) as [Hl1 _]. fold init1 in Hl1.
  destruct (initializeWeights_exact g h o init1.2) as [Hl2 _].
  fold init2 in Hl2.
  rewrite length_app, !length_layout, Hl1, Hl2. simpl length.
  rewrite !layout_app. simpl app.
  rewrite !Nat.add_0_r. reflexivity.
Qed.

Lemma clone_cells_layout (pre : Heap.store) (v : NeuralNetwork.t) :
  let i := NeuralNetwork.inputSize v in
  let h := NeuralNetwork.hiddenSize v in
  let o := NeuralNetwork.outputSize v in
  pre ++ clone_cells (length pre) v
  = layout (layout pre (block i h (NeuralNetwork.weightsIH v)) [])
      (block h o (NeuralNetwork.weightsHO v))
      [Heap.Numbers (replicate h 0); Heap.Numbers (replicate o 0);
       Heap.Numbers (NeuralNetwork.biasH v);
       Heap.Numbers (NeuralNetwork.biasO v)].
Proof.
  intros i h o. rewrite layout_nest. unfold layout, clone_cells.
  rewrite !length_block. reflexivity.
Qed.

Lemma value_clone (pre : Heap.store) (v : NeuralNetwork.t) :
  Heap.value (pre ++ clone_cells (length pre) v) (clone_object (length pre) v)
  = Some (clone_of v).
Proof.
  unfold Heap.value, clone_object.
  cbn [Heap.weightsIH Heap.weightsHO Heap.biasH Heap.biasO Heap.lastInputs
       Heap.lastHidden Heap.lastOutput Heap.inputSize Heap.hiddenSize
       Heap.outputSize Heap.cache].
  set (i := NeuralNetwork.inputSize v). set (h := NeuralNetwork.hiddenSize v).
  set (o := NeuralNetwork.outputSize v).
  set (B1 := block i h (NeuralNetwork.weightsIH v)).
  set (B2 := block h o (NeuralNetwork.weightsHO v)).
  assert (Hlen : length (layout pre B1 []) = (length pre + S i)%nat).
  { rewrite length_layout. unfold B1. rewrite length_block. simpl. lia. }
  rewrite clone_cells_layout. fold i h o B1 B2.
  (* the matrix input-hidden *)
  rewrite layout_nest at 1. rewrite matrix_layout. simpl.
  (* the matrix hidden-output *)
  rewrite <- Hlen at 1. rewrite matrix_layout. simpl.
  (* the biases *)
  replace (length pre + S i + S h + 2)%nat
    with (length (layout pre B1 []) + S (length B2) + 2)%nat
    by (rewrite Hlen; unfold B2; rewrite length_block; lia).
  rewrite (vector_after_layout _ _ _ 2 (NeuralNetwork.biasH v)) by reflexivity.
  simpl.
  replace (length pre + S i + S h + 3)%nat
    with (length (layout pre B1 []) + S (length B2) + 3)%nat
    by (rewrite Hlen; unfold B2; rewrite length_block; lia).
  rewrite (vector_after_layout _ _ _ 3 (NeuralNetwork.biasO v)) by reflexivity.
  reflexivity.
Qed.

Lemma value_inv (sto : Heap.store) (o : Heap.object) (v : NeuralNetwork.t) :
  Heap.value sto o = Some v ->
  Heap.matrix sto (Heap.weightsIH o) = Some (NeuralNetwork.weightsIH v) /\
  Heap.matrix sto (Heap.weightsHO o) = Some (NeuralNetwork.weightsHO v) /\
  Heap.vector sto (Heap.biasH o) = Some (NeuralNetwork.biasH v) /\
  Heap.vector sto (Heap.biasO o) = Some (NeuralNetwork.biasO v) /\
  NeuralNetwork.inputSize v = Heap.inputSize o /\
  NeuralNetwork.hiddenSize v = Heap.hiddenSize o /\
  NeuralNetwork.outputSize v = Heap.outputSize o.
Proof.
  unfold Heap.value.
  destruct (Heap.matrix sto (Heap.weightsIH o)) as [wih|]; [|discriminate].
  destruct (Heap.matrix sto (Heap.weightsHO o)) as [who|]; [|discriminate].
  destruct (Heap.vector sto (Heap.biasH o)) as [bh|]; [|discriminate].
  destruct (Heap.vector sto (Heap.biasO o)) as [bo|]; [|discriminate].
  destruct (Heap.cache sto (Heap.lastInputs o)) as [li|]; [|discriminate].
  destruct (Heap.cache sto (Heap.lastHidden o)) as [lh|]; [|discriminate].
  destruct (Heap.cache sto (Heap.lastOutput o)) as [lo|]; [|discriminate].
  simpl. intros [= <-]. simpl. repeat split.
Qed.

Lemma layout_prefix (pre post : Heap.store) (m : list (list R)) :
  layout pre m post
  = pre ++ (Heap.Rows (seq (S (length pre)) (length m))
            :: (Heap.Numbers <$> m) ++ post).
Proof. reflexivity. Qed.

Lemma heap_copy_Ok (sto : Heap.store) (this : Heap.object)
    (v : NeuralNetwork.t) (g : source) (k : nat) :
  Heap.value sto this = Some v -> in_bounds v = true ->
  Heap.copy sto this g k
  = Ok (clone_object (length sto) v, draws_after v g k,
        sto ++ clone_cells (length sto) v).
Proof.
  intros Hv Hb.
  apply value_inv in Hv as (Hwih & Hwho & Hbh & Hbo & Hi & Hh & Ho).
  apply in_bounds_spec in Hb as (Hcih & Hcho & _ & _).
  unfold Heap.copy, draws_after. rewrite <- Hi, <- Hh, <- Ho.
  set (i := NeuralNetwork.inputSize v) in *.
  set (h := NeuralNetwork.hiddenSize v) in *.
  set (o := NeuralNetwork.outputSize v) in *.
  rewrite new_layout.
  set (init1 := NeuralNetwork.initializeWeights g i h k).
  set (init2 := NeuralNetwork.initializeWeights g h o init1.2).
  pose proof (initializeWeights_exact g i h k) as Hm1. fold init1 in Hm1.
  pose proof (initializeWeights_exact g h o init1.2) as Hm2. fold init2 in Hm2.
  set (B1 := block i h (NeuralNetwork.weightsIH v)).
  set (B2 := block h o (NeuralNetwork.weightsHO v)).
  cbn [Heap.weightsIH Heap.weightsHO Heap.inputSize Heap.hiddenSize
       Heap.outputSize Heap.lastInputs Heap.lastHidden Heap.lastOutput].
  (* the weights input-hidden *)
  rewrite layout_nest.
  rewrite (copy_entries_layout sto _ _ (NeuralNetwork.weightsIH v) init1.1 i h)
    by assumption.
  cbn [mbind outcome_bind]. fold B1.
  (* the weights hidden-output *)
  destruct Hm1 as [Hl1 Hr1].
  assert (HB1 : length B1 = i) by apply length_block.
  rewrite Hl1, <- HB1, <- layout_nest.
  assert (Hpre : length (layout sto B1 []) = (length sto + S (length B1))%nat).
  { rewrite length_layout. simpl. lia. }
  rewrite <- Hpre.
  rewrite (copy_entries_layout _ _ _ (NeuralNetwork.weightsHO v) init2.1 h o);
    [|rewrite layout_prefix; apply matrix_app, Hwho | exact Hcho | exact Hm2].
  cbn [mbind outcome_bind]. fold B2.
  (* the biases *)
  set (sto3 := layout (layout sto B1 []) B2
                 [Heap.Numbers (replicate h 0); Heap.Numbers (replicate o 0)]).
  assert (Hsto3 : exists more, sto3 = sto ++ more).
  { unfold sto3. rewrite layout_nest, layout_prefix. eexists. reflexivity. }
  destruct Hsto3 as [more Hmore].
  assert (Hbh3 : Heap.vector sto3 (Heap.biasH this)
                 = Some (NeuralNetwork.biasH v)).
  { rewrite Hmore. apply vector_app, Hbh. }
  rewrite Hbh3. cbn [Heap.of_option mbind outcome_bind Heap.alloc].
  assert (Hbo4 : Heap.vector (sto3 ++ [Heap.Numbers (NeuralNetwork.biasH v)])
                   (Heap.biasO this)
                 = Some (NeuralNetwork.biasO v)).
  { rewrite Hmore, <- app_assoc. apply vector_app, Hbo. }
  rewrite Hbo4. cbn [Heap.of_option mbind outcome_bind Heap.alloc].
  assert (Hl3 : length sto3 = (length sto + S i + S h + 2)%nat).
  { unfold sto3. rewrite length_layout, Hpre, HB1.
    unfold B2. rewrite length_block. simpl. lia. }
  rewrite length_app, Hl3. simpl length.
  rewrite clone_cells_layout. fold i h o B1 B2.
  unfold sto3. rewrite !layout_app. simpl app.
  unfold clone_object. fold i h o.
  replace (length sto + S i + S h + 2 + 1)%nat
    with (length sto + S i + S h + 3)%nat by lia.
  rewrite Hpre, HB1. reflexivity.
Qed.

Lemma vector_lt (sto : Heap.store) (r : Heap.ref) (a : list R) :
  Heap.vector sto r = Some a -> (r < length sto)%nat.
Proof.
  unfold Heap.vector. destruct (sto !! r) as [c|] eqn:Hc; [|discriminate].
  intros _. eapply lookup_lt_Some. exact Hc.
Qed.

Lemma matrix_lt (sto : Heap.store) (w : Heap.ref) (m : list (list R)) :
  Heap.matrix sto w = Some m ->
  (w < length sto)%nat /\
  forall r, r ∈ default [] (Heap.row_refs sto w) -> (r < length sto)%nat.
Proof.
  unfold Heap.matrix, Heap.row_refs.
  destruct (sto !! w) as [[a|rs]|] eqn:Hw; try discriminate. simpl.
  intros Hm. split; [eapply lookup_lt_Some; exact Hw |].
  intros r Hr. apply mapM_Some in Hm.
  apply list_elem_of_lookup in Hr as [i Hi].
  destruct (Forall2_lookup_l _ _ _ _ _ Hm Hi) as (a & _ & Ha).
  eapply vector_lt. exact Ha.
Qed.

Lemma cache_lt (sto : Heap.store) (c : option Heap.ref)
    (x : option (list R)) :
  Heap.cache sto c = Some x ->
  forall r, r ∈ option_list c -> (r < length sto)%nat.
Proof.
  destruct c as [r0|]; simpl.
  - destruct (Heap.vector sto r0) as [a|] eqn:Ha; [|discriminate].
    intros _ r Hr. apply list_elem_of_singleton in Hr as ->.
    eapply vector_lt. exact Ha.
  - intros _ r Hr. apply elem_of_nil in Hr. contradiction.
Qed.

(** Every array an object reaches exists. *)
Lemma footprint_lt (sto : Heap.store) (o : Heap.object) (v : NeuralNetwork.t) :
  Heap.value sto o = Some v ->
  forall r, r ∈ Heap.footprint sto o -> (r < length sto)%nat.
Proof.
  unfold Heap.value, Heap.footprint.
  destruct (Heap.matrix sto (Heap.weightsIH o)) as [wih|] eqn:H1; [|discriminate].
  destruct (Heap.matrix sto (Heap.weightsHO o)) as [who|] eqn:H2; [|discriminate].
  destruct (Heap.vector sto (Heap.biasH o)) as [bh|] eqn:H3; [|discriminate].
  destruct (Heap.vector sto (Heap.biasO o)) as [bo|] eqn:H4; [|discriminate].
  destruct (Heap.cache sto (Heap.lastInputs o)) as [li|] eqn:H5; [|discriminate].
  destruct (Heap.cache sto (Heap.lastHidden o)) as [lh|] eqn:H6; [|discriminate].
  destruct (Heap.cache sto (Heap.lastOutput o)) as [lo|] eqn:H7; [|discriminate].
  intros _ r Hr.
  apply matrix_lt in H1 as [Hw1 Hr1]. apply matrix_lt in H2 as [Hw2 Hr2].
  apply vector_lt in H3, H4.
  rewrite !elem_of_app, !elem_of_cons in Hr.
  destruct Hr as [[->|[->|[->|[->|Hr]]]]|[Hr|[Hr|[Hr|[Hr|Hr]]]]];
    try assumption.
  - apply elem_of_nil in Hr. contradiction.
  - apply Hr1, Hr.
  - apply Hr2, Hr.
  - eapply cache_lt; [exact H5 | exact Hr].
  - eapply cache_lt; [exact H6 | exact Hr].
  - eapply cache_lt; [exact H7 | exact Hr].
Qed.

Lemma footprint_app (sto more : Heap.store) (o : Heap.object)
    (v : NeuralNetwork.t) :
  Heap.value sto o = Some v ->
  Heap.footprint (sto ++ more) o = Heap.footprint sto o.
Proof.
  intros Hv. apply value_inv in Hv as (H1 & H2 & _).
  unfold Heap.footprint. unfold Heap.matrix in H1, H2.
  destruct (Heap.row_refs sto (Heap.weightsIH o)) as [rs1|] eqn:Hr1;
    [|discriminate].
  destruct (Heap.row_refs sto (Heap.weightsHO o)) as [rs2|] eqn:Hr2;
    [|discriminate].
  rewrite (row_refs_app _ more _ _ Hr1), (row_refs_app _ more _ _ Hr2).
  reflexivity.
Qed.

(** Every array the clone reaches was made by the copy. *)
Lemma footprint_clone (pre : Heap.store) (v : NeuralNetwork.t) :
  forall r,
    r ∈ Heap.footprint (pre ++ clone_cells (length pre) v)
          (clone_object (length pre) v) ->
    (length pre <= r)%nat.
Proof.
  intros r. unfold Heap.footprint, clone_object.
  cbn [Heap.weightsIH Heap.weightsHO Heap.biasH Heap.biasO Heap.lastInputs
       Heap.lastHidden Heap.lastOutput option_list].
  set (i := NeuralNetwork.inputSize v). set (h := NeuralNetwork.hiddenSize v).
  set (o := NeuralNetwork.outputSize v).
  set (B1 := block i h (NeuralNetwork.weightsIH v)).
  set (B2 := block h o (NeuralNetwork.weightsHO v)).
  assert (Hlen : length (layout pre B1 []) = (length pre + S i)%nat).
  { rewrite length_layout. unfold B1. rewrite length_block. simpl. lia. }
  rewrite clone_cells_layout. fold i h o B1 B2.
  rewrite <- Hlen at 4. rewrite row_refs_layout.
  rewrite layout_nest, row_refs_layout. simpl default.
  rewrite !elem_of_app, !elem_of_cons, !elem_of_seq, Hlen.
  intros [[->|[->|[->|[->|Hr]]]]|[Hr|[Hr|Hr]]]; try lia.
  - apply elem_of_nil in Hr. contradiction.
  - destruct Hr as [Hr|[Hr|Hr]]; simpl in Hr;
      apply elem_of_nil in Hr; contradiction.
Qed.

(** C8.  The copy of a network whose parameters reach as far as its
    declared sizes returns a network that gives, on every input of the
    declared length, the forward output of the source; it has the declared
    sizes of the source, equal bias arrays, equal weights at every position
    within the declared sizes (equal weight matrices when the source's have
    exactly the declared shape), and no cached activation; it is the same
    whatever random numbers its constructor drew.  In the store of arrays,
    the copy is made of new arrays only: it reaches none of the arrays that
    existed before, the source reaches none of the new ones, so a write to
    an array of one leaves the network the other stands for as it is. *)
Theorem copy_clone (nn : NeuralNetwork.t) (g : source) (k : nat) :
  in_bounds nn = true ->
  exists (clone : NeuralNetwork.t) (k' : nat),
    NeuralNetwork.copy nn g k = Ok (clone, k') /\
    (forall x, length x = NeuralNetwork.inputSize nn ->
       exists nn1 clone1 y,
         NeuralNetwork.forwardPass nn x = Ok (nn1, y) /\
         NeuralNetwork.forwardPass clone x = Ok (clone1, y)) /\
    (NeuralNetwork.inputSize clone, NeuralNetwork.hiddenSize clone,
     NeuralNetwork.outputSize clone)
    = (NeuralNetwork.inputSize nn, NeuralNetwork.hiddenSize nn,
       NeuralNetwork.outputSize nn) /\
    NeuralNetwork.biasH clone = NeuralNetwork.biasH nn /\
    NeuralNetwork.biasO clone = NeuralNetwork.biasO nn /\
    (forall i j,
       (i < NeuralNetwork.inputSize nn)%nat ->
       (j < NeuralNetwork.hiddenSize nn)%nat ->
       entry (NeuralNetwork.weightsIH clone) i j
       = entry (NeuralNetwork.weightsIH nn) i j) /\
    (forall j o,
       (j < NeuralNetwork.hiddenSize nn)%nat ->
       (o < NeuralNetwork.outputSize nn)%nat ->
       entry (NeuralNetwork.weightsHO clone) j o
       = entry (NeuralNetwork.weightsHO nn) j o) /\
    (exact (NeuralNetwork.inputSize nn) (NeuralNetwork.hiddenSize nn)
       (NeuralNetwork.weightsIH nn) ->
     NeuralNetwork.weightsIH clone = NeuralNetwork.weightsIH nn) /\
    (exact (NeuralNetwork.hiddenSize nn) (NeuralNetwork.outputSize nn)
       (NeuralNetwork.weightsHO nn) ->
     NeuralNetwork.weightsHO clone = NeuralNetwork.weightsHO nn) /\
    (NeuralNetwork.lastInputs clone, NeuralNetwork.lastHidden clone,
     NeuralNetwork.lastOutput clone) = (None, None, None) /\
    (forall g2 k2, exists k2',
       NeuralNetwork.copy nn g2 k2 = Ok (clone, k2')) /\
    (forall (sto : Heap.store) (this : Heap.object),
       Heap.value sto this = Some nn ->
       exists (obj : Heap.object) (sto' : Heap.store),
         Heap.copy sto this g k = Ok (obj, k', sto') /\
         Heap.value sto' obj = Some clone /\
         Heap.value sto' this = Some nn /\
         (forall r, r ∈ Heap.footprint sto' obj -> (length sto <= r)%nat) /\
         (forall r, r ∈ Heap.footprint sto' this -> (r < length sto)%nat) /\
         (forall r c, (r < length sto)%nat ->
            Heap.value (<[r := c]> sto') obj = Some clone) /\
         (forall r c, (length sto <= r)%nat ->
            Heap.value (<[r := c]> sto') this = Some nn)).
Proof.
  intros Hnn. exists (clone_of nn), (draws_after nn g k).
  split; [apply copy_Ok, Hnn |].
  split.
  { intros x Hx. eexists _, _, _. split.
    - apply forwardPass_Ok; assumption.
    - rewrite forwardPass_Ok by (try apply in_bounds_clone; assumption).
      rewrite output_layer_clone. reflexivity. }
  split; [reflexivity |]. split; [reflexivity |]. split; [reflexivity |].
  split; [intros i j Hi Hj; apply entry_block; assumption |].
  split; [intros j o Hj Ho; apply entry_block; assumption |].
  split; [apply block_exact |]. split; [apply block_exact |].
  split; [reflexivity |].
  split; [intros g2 k2; eexists; apply copy_Ok, Hnn |].
  intros sto this Hv.
  exists (clone_object (length sto) nn), (sto ++ clone_cells (length sto) nn).
  split; [apply heap_copy_Ok; assumption |].
  split; [apply value_clone |].
  split; [apply value_app, Hv |].
  split; [apply footprint_clone |].
  split.
  { intros r. rewrite (footprint_app _ _ _ _ Hv). eapply footprint_lt, Hv. }
  split.
  - intros r c Hr. rewrite insert_app_l by exact Hr.
    rewrite <- (length_insert sto r c). apply value_clone.
  - intros r c Hr. rewrite insert_app_r_alt by exact Hr.
    apply value_app, Hv.
Qed.

Lemma copy_clone_witness :
  exists clone k',
    NeuralNetwork.copy zero_network zeros 0 = Ok (clone, k') /\
    NeuralNetwork.biasH clone = NeuralNetwork.biasH zero_network.
Proof.
  destruct (copy_clone zero_network zeros 0)
    as (clone & k' & H & _ & _ & Hb & _).
  - reflexivity.
  - exists clone, k'. split; assumption.
Defined.

(** ** The hypotheses hold in the application *)

(** The constructor makes a network whose parameters have exactly the
    declared shape. *)
Lemma new_in_bounds (g : source) (k i h o : nat) :
  in_bounds (NeuralNetwork.new g k i h o).1 = true.
Proof.
  unfold NeuralNetwork.new.
  pose proof (initializeWeights_exact g i h k) as H1.
  destruct (NeuralNetwork.initializeWeights g i h k) as [wih k1].
  pose proof (initializeWeights_exact g h o k1) as H2.
  destruct (NeuralNetwork.initializeWeights g h o k1) as [who k2].
  simpl in *. apply in_bounds_spec. simpl.
  rewrite !length_replicate.
  repeat split; try apply exact_covers; try assumption; lia.
Qed.

(** Every sample of a buffer filled by the trainer has four inputs and one
    target. *)
Lemma step_samples (this this' : Trainer.t) :
  step this this' ->
  Forall (fun s => length (Trainer.inputs s) = 4%nat /\
                   length (Trainer.target s) = 1%nat)
         (Trainer.trainingData this) ->
  Forall (fun s => length (Trainer.inputs s) = 4%nat /\
                   length (Trainer.target s) = 1%nat)
         (Trainer.trainingData this').
Proof.
  assert (Hadd : forall this gs a this',
            Trainer.addSample this gs a = Ok this' ->
            Forall (fun s => length (Trainer.inputs s) = 4%nat /\
                             length (Trainer.target s) = 1%nat)
                   (Trainer.trainingData this) ->
            Forall (fun s => length (Trainer.inputs s) = 4%nat /\
                             length (Trainer.target s) = 1%nat)
                   (Trainer.trainingData this')).
  { intros t gs a t' H Hall. destruct gs as [gs|]; [|discriminate].
    injection H as <-. simpl.
    assert (Hnew : Forall (fun s => length (Trainer.inputs s) = 4%nat /\
                                    length (Trainer.target s) = 1%nat)
                     (Trainer.trainingData t
                      ++ [{| Trainer.inputs := NeuralNetwork.features gs;
                             Trainer.target := [a] |}])).
    { apply Forall_app. split; [exact Hall |].
      constructor; [split; reflexivity | constructor]. }
    destruct (_ <? _)%nat; [|exact Hnew].
    destruct (Trainer.trainingData t ++ _) as [|s0 rest]; [constructor |].
    simpl. inversion Hnew; assumption. }
  intros Hstep Hall.
  destruct Hstep as [this gs a this' H|this gs this' H
                    |this lr epochs g k this' loss k' H
                    |this lr g k this' k' H| | | |]; simpl; try exact Hall.
  - eapply Hadd; eassumption.
  - unfold Trainer.collectFromGameState in H.
    destruct (Trainer.calculateOptimalAction gs); simpl in H; try discriminate.
    eapply Hadd; eassumption.
  - rewrite (train_data _ _ _ _ _ _ _ _ H). exact Hall.
  - unfold Trainer.trainStep in H.
    destruct (negb _); [discriminate |].
    destruct (Trainer.train _ _ _ _ _) as [[[this1 loss] k1]| | |] eqn:Ht;
      simpl in H; try discriminate.
    injection H as <- _. rewrite (train_data _ _ _ _ _ _ _ _ Ht). exact Hall.
  - constructor.
Qed.

(** A trainer reached from a new one is trainable as soon as its network
    has four inputs, one output and parameters that reach as far as its
    declared sizes, as the networks the application constructs have. *)
Lemma reachable_trainable (nn0 : NeuralNetwork.t) (this : Trainer.t) :
  rtc step (Trainer.new nn0) this ->
  in_bounds (Trainer.nn this) = true ->
  NeuralNetwork.inputSize (Trainer.nn this) = 4%nat ->
  NeuralNetwork.outputSize (Trainer.nn this) = 1%nat ->
  trainable (Trainer.nn this) (Trainer.trainingData this) = true.
Proof.
  intros Hreach Hb Hi Ho.
  assert (Hall : Forall (fun s => length (Trainer.inputs s) = 4%nat /\
                                  length (Trainer.target s) = 1%nat)
                   (Trainer.trainingData this)).
  { assert (Hnew : Forall (fun s => length (Trainer.inputs s) = 4%nat /\
                                    length (Trainer.target s) = 1%nat)
                     (Trainer.trainingData (Trainer.new nn0)))
      by constructor.
    revert Hnew. clear Hb Hi Ho.
    induction Hreach as [|t1 t2 t3 Hstep _ IH]; intros Hall; [exact Hall |].
    apply IH. eapply step_samples; eassumption. }
  apply trainable_spec. split; [exact Hb |]. split; [lia |].
  intros s Hs. rewrite Forall_forall in Hall.
  destruct (Hall s Hs) as [H1 H2]. rewrite Hi, Ho, H1, H2. split; lia.
Qed.

(** * Further properties *)

(** ** The constructor *)

Lemma random_row_spec (g : source) (cols : nat) :
  forall k,
    (NeuralNetwork.random_row g cols k).2 = (k + cols)%nat /\
    (NeuralNetwork.random_row g cols k).1
    = map (fun b => draw g (k + b) * 2 - 1) (range cols).
Proof.
  induction cols as [|c IH]; intros k; simpl.
  - split; [lia | reflexivity].
  - destruct (IH (S k)) as [Hk Hr].
    destruct (NeuralNetwork.random_row g c (S k)) as [r k']. simpl in *.
    split; [lia |]. rewrite Nat.add_0_r. f_equal.
    rewrite Hr. unfold range. rewrite <- seq_shift, map_map.
    apply map_ext. intros b. do 3 f_equal. lia.
Qed.

Lemma initializeWeights_spec (g : source) (rows cols : nat) :
  forall k,
    (NeuralNetwork.initializeWeights g rows cols k).2
    = (k + rows * cols)%nat /\
    (NeuralNetwork.initializeWeights g rows cols k).1
    = map (fun a => map (fun b => draw g (k + a * cols + b) * 2 - 1)
                        (range cols))
          (range rows).
Proof.
  induction rows as [|n IH]; intros k; simpl.
  - split; [lia | reflexivity].
  - destruct (random_row_spec g cols k) as [Hk1 Hr].
    destruct (NeuralNetwork.random_row g cols k) as [r k1]. simpl in *.
    destruct (IH k1) as [Hk2 Hw].
    destruct (NeuralNetwork.initializeWeights g n cols k1) as [w k2].
    simpl in *. split; [lia |]. f_equal.
    + rewrite Hr. apply map_ext. intros b. do 3 f_equal. lia.
    + rewrite Hw. rewrite <- seq_shift, map_map.
      apply map_ext. intros a. apply map_ext. intros b. do 3 f_equal. lia.
Qed.

Lemma initial_weight_range (g : source) (k : nat) : -1 <= draw g k * 2 - 1 < 1.
Proof. pose proof (draw_unit g k). lra. Qed.

(** X1.  The constructor makes a network of the sizes asked for, with
    weight matrices of exactly the declared shapes whose entries are the
    random numbers drawn, in row order, scaled from [0, 1) to [-1, 1); with
    biases all zero and no cached activation.  It draws one number per
    weight. *)
Theorem new_network (g : source) (k i h o : nat) :
  let nn := (NeuralNetwork.new g k i h o).1 in
  (NeuralNetwork.inputSize nn, NeuralNetwork.hiddenSize nn,
   NeuralNetwork.outputSize nn) = (i, h, o) /\
  exact i h (NeuralNetwork.weightsIH nn) /\
  exact h o (NeuralNetwork.weightsHO nn) /\
  (forall a b, (a < i)%nat -> (b < h)%nat ->
     entry (NeuralNetwork.weightsIH nn) a b = draw g (k + a * h + b) * 2 - 1 /\
     -1 <= entry (NeuralNetwork.weightsIH nn) a b < 1) /\
  (forall a b, (a < h)%nat -> (b < o)%nat ->
     entry (NeuralNetwork.weightsHO nn) a b
     = draw g (k + i * h + a * o + b) * 2 - 1 /\
     -1 <= entry (NeuralNetwork.weightsHO nn) a b < 1) /\
  NeuralNetwork.biasH nn = replicate h 0 /\
  NeuralNetwork.biasO nn = replicate o 0 /\
  (NeuralNetwork.lastInputs nn, NeuralNetwork.lastHidden nn,
   NeuralNetwork.lastOutput nn) = (None, None, None) /\
  in_bounds nn = true /\
  (NeuralNetwork.new g k i h o).2 = (k + i * h + h * o)%nat.
Proof.
  intros nn. pose proof (new_in_bounds g k i h o) as Hb. fold nn in Hb.
  unfold nn in *. clear nn. unfold NeuralNetwork.new in *.
  pose proof (initializeWeights_exact g i h k) as He1.
  destruct (initializeWeights_spec g i h k) as [Hk1 Hw1].
  destruct (NeuralNetwork.initializeWeights g i h k) as [wih k1].
  pose proof (initializeWeights_exact g h o k1) as He2.
  destruct (initializeWeights_spec g h o k1) as [Hk2 Hw2].
  destruct (NeuralNetwork.initializeWeights g h o k1) as [who k2].
  simpl in *. subst k1.
  split; [reflexivity |]. split; [exact He1 |]. split; [exact He2 |].
  assert (Hentry : forall rows cols k0 a b,
            (a < rows)%nat -> (b < cols)%nat ->
            entry (map (fun a => map (fun b => draw g (k0 + a * cols + b) * 2 - 1)
                                     (range cols)) (range rows)) a b
            = draw g (k0 + a * cols + b) * 2 - 1).
  { intros rows cols k0 a b Ha Hb'. unfold entry.
    rewrite (nth_map_range _ rows a []) by exact Ha.
    exact (nth_map_range (fun b => draw g (k0 + a * cols + b) * 2 - 1)
             cols b 0 Hb'). }
  split; [|split].
  - intros a b Ha Hb'. rewrite Hw1, Hentry by assumption.
    split; [reflexivity | apply initial_weight_range].
  - intros a b Ha Hb'. rewrite Hw2, Hentry by assumption.
    split; [reflexivity | apply initial_weight_range].
  - repeat split; assumption.
Qed.

(** ** The activations shown *)

Lemma forwardPass_lengths (nn nn' : NeuralNetwork.t) (x y : list R) :
  NeuralNetwork.forwardPass nn x = Ok (nn', y) ->
  exists h,
    nn' = with_caches nn x h y /\
    length x = NeuralNetwork.inputSize nn /\
    length h = NeuralNetwork.hiddenSize nn /\
    length y = NeuralNetwork.outputSize nn.
Proof.
  unfold NeuralNetwork.forwardPass.
  destruct (length x =? NeuralNetwork.inputSize nn)%nat eqn:Hx;
    [|discriminate]. simpl.
  apply Nat.eqb_eq in Hx.
  destruct (buildM (NeuralNetwork.unit_activation (NeuralNetwork.inputSize nn)
                      x (NeuralNetwork.weightsIH nn) (NeuralNetwork.biasH nn))
                   (range (NeuralNetwork.hiddenSize nn)))
    as [h| | |] eqn:Hh; simpl; try discriminate.
  destruct (buildM (NeuralNetwork.unit_activation (NeuralNetwork.hiddenSize nn)
                      h (NeuralNetwork.weightsHO nn) (NeuralNetwork.biasO nn))
                   (range (NeuralNetwork.outputSize nn)))
    as [y'| | |] eqn:Hy; simpl; try discriminate.
  intros [= <- <-]. exists h.
  apply buildM_inv in Hh as [Hlh _]. apply buildM_inv in Hy as [Hly _].
  rewrite length_range in Hlh, Hly. repeat split; assumption.
Qed.

(** X2.  Until the first forward pass [getActivations] returns vectors of
    zeros of the declared sizes.  After a forward pass it returns the input
    of that pass, the hidden vector the pass has cached and the output the
    pass returned, of the declared lengths; on a network whose parameters
    reach as far as its declared sizes these are the two layers computed
    from the input, every hidden entry
    [sigmoid(biasH[j] + sum_i x[i] * weightsIH[i][j])]. *)
Theorem getActivations_shows :
  (forall nn,
     (NeuralNetwork.lastInputs nn, NeuralNetwork.lastHidden nn,
      NeuralNetwork.lastOutput nn) = (None, None, None) ->
     NeuralNetwork.getActivations nn
     = (replicate (NeuralNetwork.inputSize nn) 0,
        replicate (NeuralNetwork.hiddenSize nn) 0,
        replicate (NeuralNetwork.outputSize nn) 0)) /\
  (forall nn nn' x y,
     NeuralNetwork.forwardPass nn x = Ok (nn', y) ->
     exists h,
       NeuralNetwork.lastHidden nn' = Some h /\
       NeuralNetwork.getActivations nn' = (x, h, y) /\
       length x = NeuralNetwork.inputSize nn' /\
       length h = NeuralNetwork.hiddenSize nn' /\
       length y = NeuralNetwork.outputSize nn' /\
       (in_bounds nn = true ->
        h = hidden_layer nn x /\ y = output_layer nn x /\
        forall j, (j < NeuralNetwork.hiddenSize nn)%nat ->
          at_ h j
          = NeuralNetwork.sigmoid
              (at_ (NeuralNetwork.biasH nn) j
               + sigma (NeuralNetwork.inputSize nn)
                   (fun i => at_ x i
                             * entry (NeuralNetwork.weightsIH nn) i j)))) /\
  (forall nn x,
     in_bounds nn = true -> length x = NeuralNetwork.inputSize nn ->
     exists nn',
       NeuralNetwork.forwardPass nn x = Ok (nn', output_layer nn x) /\
       NeuralNetwork.getActivations nn'
       = (x, hidden_layer nn x, output_layer nn x)).
Proof.
  split; [|split].
  - intros nn [= H1 H2 H3]. unfold NeuralNetwork.getActivations.
    rewrite H1, H2, H3. reflexivity.
  - intros nn nn' x y H.
    destruct (forwardPass_lengths _ _ _ _ H) as (h & Hnn' & Hx & Hh & Hy).
    exists h. subst nn'.
    split; [reflexivity |]. split; [reflexivity |].
    split; [exact Hx |]. split; [exact Hh |]. split; [exact Hy |].
    intros Hnn.
    assert (Hlen : length x = NeuralNetwork.inputSize nn) by exact Hx.
    rewrite (forwardPass_Ok nn x Hnn Hlen) in H.
    injection H as H1 H2.
    assert (Hh' : h = hidden_layer nn x) by congruence.
    split; [exact Hh' |]. split; [symmetry; exact H2 |].
    intros j Hj. rewrite Hh'. unfold at_ at 1, hidden_layer.
    rewrite nth_map_range by exact Hj. reflexivity.
  - intros nn x Hnn Hx. eexists.
    split; [apply forwardPass_Ok; assumption | reflexivity].
Qed.

Lemma getActivations_shows_witness :
  NeuralNetwork.getActivations
    (with_caches zero_network [0; 0; 0; 0]
       (hidden_layer zero_network [0; 0; 0; 0])
       (output_layer zero_network [0; 0; 0; 0]))
  = ([0; 0; 0; 0], hidden_layer zero_network [0; 0; 0; 0],
     output_layer zero_network [0; 0; 0; 0]) /\
  at_ (hidden_layer zero_network [0; 0; 0; 0]) 0
  = NeuralNetwork.sigmoid
      (at_ (replicate 8 0) 0
       + sigma 4 (fun i => at_ [0; 0; 0; 0] i
                           * entry (replicate 4 (replicate 8 0)) i 0)).
Proof.
  destruct getActivations_shows as (_ & H & _).
  destruct (H zero_network _ [0; 0; 0; 0] _
              (forwardPass_Ok zero_network [0; 0; 0; 0] eq_refl eq_refl))
    as (h & _ & Hg & _ & _ & _ & Hin).
  destruct (Hin eq_refl) as (Hh & _ & Hunit).
  split.
  - rewrite Hg, Hh. reflexivity.
  - rewrite <- Hh. apply (Hunit 0%nat). simpl. lia.
Defined.

(** ** The shape of the sigmoid *)

Lemma clamp_monotone (x y : R) : x <= y -> clamp x <= clamp y.
Proof. intros H. unfold clamp. repeat destruct (Rlt_dec _ _); lra. Qed.

Lemma sigmoid_alt (x : R) :
  NeuralNetwork.sigmoid x = / (1 + exp (- clamp x)).
Proof.
  unfold NeuralNetwork.sigmoid. rewrite sigmoid_clamp. unfold Rdiv.
  apply Rmult_1_l.
Qed.

Lemma exp_monotone (a b : R) : a <= b -> exp a <= exp b.
Proof.
  intros [H| ->]; [left; apply exp_increasing, H | right; reflexivity].
Qed.

Lemma sigmoid_monotone (x y : R) :
  x <= y -> NeuralNetwork.sigmoid x <= NeuralNetwork.sigmoid y.
Proof.
  intros Hxy. rewrite !sigmoid_alt.
  apply Rinv_le_contravar.
  - pose proof (exp_pos (- clamp y)). lra.
  - apply Rplus_le_compat_l, exp_monotone.
    pose proof (clamp_monotone x y Hxy). lra.
Qed.

(** X3.  [sigmoid] never decreases; it is constant from 500 upwards and
    from -500 downwards; it is 1/2 at 0, at least 1/2 from 0 upwards and
    at most 1/2 from 0 downwards.  This holds in exact arithmetic and as
    the machine computes it; as the machine computes it, [sigmoid] is
    moreover exactly 1 from 40 upwards. *)
Theorem sigmoid_shape :
  ((forall x y, x <= y ->
      NeuralNetwork.sigmoid x <= NeuralNetwork.sigmoid y) /\
   (forall x, 500 <= x ->
      NeuralNetwork.sigmoid x = NeuralNetwork.sigmoid 500) /\
   (forall x, x <= -500 ->
      NeuralNetwork.sigmoid x = NeuralNetwork.sigmoid (-500)) /\
   NeuralNetwork.sigmoid 0 = 1 / 2 /\
   (forall x, 0 <= x -> 1 / 2 <= NeuralNetwork.sigmoid x) /\
   (forall x, x <= 0 -> NeuralNetwork.sigmoid x <= 1 / 2)) /\
  ((forall x y, x <= y -> Binary64.sigmoid x <= Binary64.sigmoid y) /\
   (forall x, 500 <= x -> Binary64.sigmoid x = Binary64.sigmoid 500) /\
   (forall x, x <= -500 -> Binary64.sigmoid x = Binary64.sigmoid (-500)) /\
   Binary64.sigmoid 0 = 1 / 2 /\
   (forall x, 0 <= x -> 1 / 2 <= Binary64.sigmoid x) /\
   (forall x, x <= 0 -> Binary64.sigmoid x <= 1 / 2) /\
   (forall x, 40 <= x -> Binary64.sigmoid x = 1)).
Proof.
  split.
  - split; [|split; [|split; [|split; [|split]]]].
    + exact sigmoid_monotone.
    + intros x Hx. rewrite !sigmoid_alt. do 4 f_equal.
      unfold clamp. repeat destruct (Rlt_dec _ _); lra.
    + intros x Hx. rewrite !sigmoid_alt. do 4 f_equal.
      unfold clamp. repeat destruct (Rlt_dec _ _); lra.
    + exact sigmoid_0.
    + intros x Hx. rewrite <- sigmoid_0. apply sigmoid_monotone, Hx.
    + intros x Hx. rewrite <- sigmoid_0. apply sigmoid_monotone, Hx.
  - split; [|split; [|split; [|split; [|split; [|split]]]]].
    + exact rounded_sigmoid_monotone.
    + intros x. apply rounded_sigmoid_clamped.
    + intros x. apply rounded_sigmoid_clamped.
    + exact rounded_sigmoid_0.
    + intros x. apply rounded_sigmoid_sides.
    + intros x. apply rounded_sigmoid_sides.
    + exact rounded_sigmoid_saturates.
Qed.

Lemma sigmoid_shape_witness :
  NeuralNetwork.sigmoid 0 <= NeuralNetwork.sigmoid 1 /\
  Binary64.sigmoid 0 <= Binary64.sigmoid 1 /\
  Binary64.sigmoid 41 = 1.
Proof.
  destruct sigmoid_shape as [[H _] [H64 (_ & _ & _ & _ & _ & Hsat)]].
  split; [apply H; lra |]. split; [apply H64; lra | apply Hsat; lra].
Defined.

(** X4.  On a value between 0 and 1 [sigmoidDerivative] is between 0 and
    1/4: it is 1/4 at 1/2, and 0 at 0 and at 1.  So it is between 0 and
    1/4 on every value the sigmoid gives; and on the value 1 that, as the
    machine computes it, the sigmoid gives from 40 upwards, it is 0. *)
Theorem sigmoidDerivative_range :
  (forall y, 0 <= y <= 1 ->
     0 <= NeuralNetwork.sigmoidDerivative y <= 1 / 4) /\
  NeuralNetwork.sigmoidDerivative (1 / 2) = 1 / 4 /\
  NeuralNetwork.sigmoidDerivative 0 = 0 /\
  NeuralNetwork.sigmoidDerivative 1 = 0 /\
  (forall z,
     0 <= NeuralNetwork.sigmoidDerivative (NeuralNetwork.sigmoid z)
     <= 1 / 4) /\
  (forall z, 40 <= z ->
     Binary64.sigmoidDerivative (Binary64.sigmoid z) = 0).
Proof.
  assert (Hrange : forall y, 0 <= y <= 1 ->
            0 <= NeuralNetwork.sigmoidDerivative y <= 1 / 4).
  { intros y [H0 H1]. unfold NeuralNetwork.sigmoidDerivative.
    pose proof (Rle_0_sqr (y - 1 / 2)) as Hsq. unfold Rsqr in Hsq.
    split; nra. }
  split; [exact Hrange |].
  split; [unfold NeuralNetwork.sigmoidDerivative; lra |].
  split; [unfold NeuralNetwork.sigmoidDerivative; lra |].
  split; [unfold NeuralNetwork.sigmoidDerivative; lra |].
  split.
  - intros z. apply Hrange. pose proof (sigmoid_range z). lra.
  - intros z Hz. rewrite (rounded_sigmoid_saturates z Hz).
    unfold Binary64.sigmoidDerivative, Binary64.mul, Binary64.sub.
    replace (1 - 1) with 0 by lra.
    rewrite round_0, Rmult_0_r. apply round_0.
Qed.

Lemma sigmoidDerivative_range_witness :
  0 <= NeuralNetwork.sigmoidDerivative (1 / 3) <= 1 / 4 /\
  Binary64.sigmoidDerivative (Binary64.sigmoid 41) = 0.
Proof.
  destruct sigmoidDerivative_range as (H & _ & _ & _ & _ & Hsat).
  split; [apply H; lra | apply Hsat; lra].
Defined.

(** ** Inputs of the wrong length *)

Lemma forwardPass_mismatch (nn : NeuralNetwork.t) (x : list R) :
  length x <> NeuralNetwork.inputSize nn ->
  NeuralNetwork.forwardPass nn x
  = Throw (DimensionMismatch (NeuralNetwork.inputSize nn) (length x)).
Proof.
  intros Hx. unfold NeuralNetwork.forwardPass.
  replace (length x =? _)%nat with false
    by (symmetry; apply Nat.eqb_neq, Hx).
  reflexivity.
Qed.

(** X6.  On an input whose length is not [inputSize], [forwardPass] and
    [train] throw the dimension error that names the expected and the
    received length; [predict], which always passes four numbers, throws
    it on every game state when the network does not have four inputs;
    and a training run of the trainer, from 32 samples and one epoch on,
    throws it when the samples of its buffer do not have the length the
    network expects. *)
Theorem dimension_mismatch_throws :
  (forall nn x,
     length x <> NeuralNetwork.inputSize nn ->
     NeuralNetwork.forwardPass nn x
     = Throw (DimensionMismatch (NeuralNetwork.inputSize nn) (length x))) /\
  (forall nn x targets lr,
     length x <> NeuralNetwork.inputSize nn ->
     NeuralNetwork.train nn x targets lr
     = Throw (DimensionMismatch (NeuralNetwork.inputSize nn) (length x))) /\
  (forall nn gs,
     NeuralNetwork.inputSize nn <> 4%nat ->
     NeuralNetwork.predict nn (Some gs)
     = Throw (DimensionMismatch (NeuralNetwork.inputSize nn) 4)) /\
  (forall this lr epochs g k n,
     (Trainer.batchSize <= length (Trainer.trainingData this))%nat ->
     (1 <= epochs)%nat ->
     n <> NeuralNetwork.inputSize (Trainer.nn this) ->
     (forall s, s ∈ Trainer.trainingData this ->
        length (Trainer.inputs s) = n) ->
     Trainer.train this lr epochs g k
     = Throw (DimensionMismatch
                (NeuralNetwork.inputSize (Trainer.nn this)) n)).
Proof.
  split; [exact forwardPass_mismatch |]. split; [|split].
  - intros nn x targets lr Hx. unfold NeuralNetwork.train.
    rewrite forwardPass_mismatch by exact Hx. reflexivity.
  - intros nn gs Hi. unfold NeuralNetwork.predict.
    rewrite forwardPass_mismatch by (simpl; congruence). reflexivity.
  - intros this lr epochs g k n Hlen He Hn Hall.
    rewrite train_long by exact Hlen. rewrite train_epochs_pass.
    destruct (epoch_orders_spec g (Trainer.trainingData this) epochs k)
      as [Hlo Hperm].
    destruct (epoch_orders g (Trainer.trainingData this) k epochs).1
      as [|order orders] eqn:Ho; [simpl in Hlo; lia |].
    apply Forall_cons in Hperm as [Hp _].
    destruct order as [|s order].
    { apply Permutation_length in Hp. simpl in Hp.
      unfold Trainer.batchSize in Hlen. lia. }
    assert (Hs : length (Trainer.inputs s) = n).
    { apply Hall. rewrite <- Hp. left. }
    simpl concat. unfold Trainer.train_batch. cbn [app foldM].
    unfold NeuralNetwork.train.
    rewrite forwardPass_mismatch by (rewrite Hs; exact Hn).
    rewrite Hs. reflexivity.
Qed.

Lemma dimension_mismatch_throws_witness :
  NeuralNetwork.forwardPass zero_network [0]
  = Throw (DimensionMismatch 4 1) /\
  NeuralNetwork.predict tiny_network (Some still)
  = Throw (DimensionMismatch 1 4).
Proof.
  destruct dimension_mismatch_throws as (Hf & _ & Hp & _).
  split.
  - apply (Hf zero_network [0]). simpl. lia.
  - apply (Hp tiny_network still). simpl. lia.
Defined.

(** ** The forward pass and the caches *)

Lemma forwardPass_same_parameters (a b : NeuralNetwork.t) (x : list R) :
  same_parameters a b ->
  NeuralNetwork.forwardPass a x = NeuralNetwork.forwardPass b x.
Proof.
  intros (Hi & Hh & Ho & Hwih & Hwho & Hbh & Hbo).
  unfold NeuralNetwork.forwardPass.
  rewrite Hi, Hh, Ho, Hwih, Hwho, Hbh, Hbo. reflexivity.
Qed.

(** X7.  A forward pass reads none of the three caches: networks with the
    same sizes and parameters give the same result, state included,
    whatever they have cached.  So a pass repeated on the same input
    returns the same output and leaves the state of the first pass, and
    the order of earlier passes on other inputs does not matter. *)
Theorem forwardPass_forgets :
  (forall a b x,
     same_parameters a b ->
     NeuralNetwork.forwardPass a x = NeuralNetwork.forwardPass b x) /\
  (forall nn nn' x y,
     NeuralNetwork.forwardPass nn x = Ok (nn', y) ->
     NeuralNetwork.forwardPass nn' x = Ok (nn', y)) /\
  (forall nn nn1 x1 y1 x,
     NeuralNetwork.forwardPass nn x1 = Ok (nn1, y1) ->
     NeuralNetwork.forwardPass nn1 x = NeuralNetwork.forwardPass nn x).
Proof.
  split; [exact forwardPass_same_parameters |]. split.
  - intros nn nn' x y H. rewrite <- H.
    apply forwardPass_same_parameters.
    apply forwardPass_inv in H as [h ->]. repeat split.
  - intros nn nn1 x1 y1 x H.
    apply forwardPass_same_parameters.
    apply forwardPass_inv in H as [h ->]. repeat split.
Qed.

Lemma forwardPass_forgets_witness :
  NeuralNetwork.forwardPass
    (with_caches zero_network [0; 0; 0; 0]
       (hidden_layer zero_network [0; 0; 0; 0])
       (output_layer zero_network [0; 0; 0; 0]))
    [1; 1; 1; 1]
  = NeuralNetwork.forwardPass zero_network [1; 1; 1; 1].
Proof.
  destruct forwardPass_forgets as (_ & _ & H).
  apply (H zero_network _ [0; 0; 0; 0]
           (output_layer zero_network [0; 0; 0; 0]) [1; 1; 1; 1]).
  apply forwardPass_Ok; reflexivity.
Defined.

(** ** Training steps: rate zero, and the direction of a step *)

Lemma update_prefix_id (n : nat) (g : nat -> R -> R) (a : list R) :
  (forall j x, g j x = x) -> update_prefix n g a = a.
Proof.
  intros H. unfold update_prefix. apply list_eq. intros i.
  rewrite list_lookup_imap. destruct (a !! i) as [x|]; [|reflexivity].
  simpl. destruct (i <? n)%nat; [rewrite H|]; reflexivity.
Qed.

Lemma update_block_id (rows cols : nat) (f : nat -> nat -> R -> R)
    (m : list (list R)) :
  (forall i j x, f i j x = x) -> update_block rows cols f m = m.
Proof.
  intros H. unfold update_block. apply list_eq. intros i.
  rewrite list_lookup_imap. destruct (m !! i) as [r|]; [|reflexivity].
  simpl. destruct (i <? rows)%nat; [|reflexivity].
  rewrite update_prefix_id by (intros; apply H). reflexivity.
Qed.

Lemma at_hidden_layer (nn : NeuralNetwork.t) (x : list R) (j : nat) :
  (j < NeuralNetwork.hiddenSize nn)%nat ->
  0 < at_ (hidden_layer nn x) j < 1.
Proof.
  intros Hj. unfold at_, hidden_layer.
  rewrite nth_map_range by exact Hj. apply sigmoid_range.
Qed.

Lemma at_output_layer (nn : NeuralNetwork.t) (x : list R) (o : nat) :
  (o < NeuralNetwork.outputSize nn)%nat ->
  0 < at_ (output_layer nn x) o < 1.
Proof.
  intros Ho. unfold at_, output_layer.
  rewrite nth_map_range by exact Ho. apply sigmoid_range.
Qed.

(** X8.  A training step with learning rate 0 changes no weight and no
    bias: it only overwrites the three caches, as a forward pass does, and
    returns the mean squared error of the sample. *)
Theorem train_rate_zero (nn : NeuralNetwork.t) (x targets : list R) :
  in_bounds nn = true ->
  length x = NeuralNetwork.inputSize nn ->
  (NeuralNetwork.outputSize nn <= length targets)%nat ->
  (0 < NeuralNetwork.outputSize nn)%nat ->
  exists nn1 y,
    NeuralNetwork.forwardPass nn x = Ok (nn1, y) /\
    NeuralNetwork.train nn x targets 0
    = Ok (nn1, mean_squared_error targets y (NeuralNetwork.outputSize nn)).
Proof.
  intros Hnn Hx Ht HO.
  rewrite forwardPass_Ok, train_Ok by assumption.
  eexists _, _. split; [reflexivity |].
  rewrite sample_loss_mean. f_equal. f_equal.
  unfold trained, with_caches. f_equal.
  - apply update_block_id. intros. ring.
  - apply update_block_id. intros. ring.
  - apply update_prefix_id. intros. ring.
  - apply update_prefix_id. intros. ring.
Qed.

Lemma train_rate_zero_witness :
  exists nn1 y,
    NeuralNetwork.forwardPass zero_network [0; 0; 0; 0] = Ok (nn1, y) /\
    NeuralNetwork.train zero_network [0; 0; 0; 0] [1] 0
    = Ok (nn1, mean_squared_error [1] y 1).
Proof.
  apply (train_rate_zero zero_network [0; 0; 0; 0] [1]).
  - reflexivity.
  - reflexivity.
  - simpl. lia.
  - simpl. lia.
Defined.

(** X9.  A training step with a learning rate that is not negative adds
    to the bias of every output unit the rate times the error of the unit,
    [(target - output) * output * (1 - output)], and to every weight into
    the unit the same times the activation of the hidden unit it comes
    from.  So the bias and the weights follow the error: they do not go
    down when the output was at or below the target, do not go up when it
    was at or above the target, and stay when it was on the target. *)
Theorem train_follows_error
    (nn : NeuralNetwork.t) (x targets : list R) (lr : R) :
  in_bounds nn = true ->
  length x = NeuralNetwork.inputSize nn ->
  (NeuralNetwork.outputSize nn <= length targets)%nat ->
  (0 < NeuralNetwork.outputSize nn)%nat ->
  0 <= lr ->
  exists nn' mse,
    NeuralNetwork.train nn x targets lr = Ok (nn', mse) /\
    forall o, (o < NeuralNetwork.outputSize nn)%nat ->
      let y := at_ (output_layer nn x) o in
      let t := at_ targets o in
      at_ (NeuralNetwork.biasO nn') o
      = at_ (NeuralNetwork.biasO nn) o + lr * ((t - y) * (y * (1 - y))) /\
      (forall j, (j < NeuralNetwork.hiddenSize nn)%nat ->
         entry (NeuralNetwork.weightsHO nn') j o
         = entry (NeuralNetwork.weightsHO nn) j o
           + lr * ((t - y) * (y * (1 - y))) * at_ (hidden_layer nn x) j) /\
      (y <= t ->
       at_ (NeuralNetwork.biasO nn) o <= at_ (NeuralNetwork.biasO nn') o /\
       forall j, (j < NeuralNetwork.hiddenSize nn)%nat ->
         entry (NeuralNetwork.weightsHO nn) j o
         <= entry (NeuralNetwork.weightsHO nn') j o) /\
      (t <= y ->
       at_ (NeuralNetwork.biasO nn') o <= at_ (NeuralNetwork.biasO nn) o /\
       forall j, (j < NeuralNetwork.hiddenSize nn)%nat ->
         entry (NeuralNetwork.weightsHO nn') j o
         <= entry (NeuralNetwork.weightsHO nn) j o) /\
      (t = y ->
       at_ (NeuralNetwork.biasO nn') o = at_ (NeuralNetwork.biasO nn) o /\
       forall j, (j < NeuralNetwork.hiddenSize nn)%nat ->
         entry (NeuralNetwork.weightsHO nn') j o
         = entry (NeuralNetwork.weightsHO nn) j o).
Proof.
  intros Hnn Hx Ht HO Hlr.
  pose proof Hnn as Hb. apply in_bounds_spec in Hb as (Hih & Hho & Hbh & Hbo).
  rewrite train_Ok by assumption. eexists _, _. split; [reflexivity |].
  intros o Ho y t.
  assert (Hb : at_ (NeuralNetwork.biasO (trained nn x targets lr)) o
               = at_ (NeuralNetwork.biasO nn) o + lr * ((t - y) * (y * (1 - y)))).
  { simpl. rewrite at_update_prefix by lia.
    replace (o <? _)%nat with true by (symmetry; apply Nat.ltb_lt; exact Ho).
    rewrite at_output_errors by exact Ho. unfold output_error.
    fold y t. ring. }
  assert (Hw : forall j, (j < NeuralNetwork.hiddenSize nn)%nat ->
             entry (NeuralNetwork.weightsHO (trained nn x targets lr)) j o
             = entry (NeuralNetwork.weightsHO nn) j o
               + lr * ((t - y) * (y * (1 - y)))
                 * at_ (hidden_layer nn x) j).
  { intros j Hj. simpl. rewrite entry_update_block by assumption.
    rewrite at_output_errors by exact Ho. unfold output_error.
    fold y t. ring. }
  pose proof (at_output_layer nn x o Ho) as Hy. fold y in Hy.
  assert (Hd : 0 <= y * (1 - y)) by (apply Rmult_le_pos; lra).
  assert (Hl : 0 <= lr * (y * (1 - y))) by (apply Rmult_le_pos; lra).
  split; [exact Hb |]. split; [exact Hw |].
  split; [|split]; intros Hty.
  - assert (Hup : 0 <= lr * ((t - y) * (y * (1 - y)))).
    { replace (lr * ((t - y) * (y * (1 - y))))
        with (lr * (y * (1 - y)) * (t - y)) by ring.
      apply Rmult_le_pos; lra. }
    split; [rewrite Hb; lra |].
    intros j Hj. rewrite (Hw j Hj).
    pose proof (at_hidden_layer nn x j Hj) as [Hh _].
    assert (0 <= lr * ((t - y) * (y * (1 - y))) * at_ (hidden_layer nn x) j)
      by (apply Rmult_le_pos; lra).
    lra.
  - assert (Hdown : 0 <= lr * ((y - t) * (y * (1 - y)))).
    { replace (lr * ((y - t) * (y * (1 - y))))
        with (lr * (y * (1 - y)) * (y - t)) by ring.
      apply Rmult_le_pos; lra. }
    split; [rewrite Hb; lra |].
    intros j Hj. rewrite (Hw j Hj).
    pose proof (at_hidden_layer nn x j Hj) as [Hh _].
    assert (0 <= lr * ((y - t) * (y * (1 - y))) * at_ (hidden_layer nn x) j)
      by (apply Rmult_le_pos; lra).
    lra.
  - split.
    + rewrite Hb, Hty. ring.
    + intros j Hj. rewrite (Hw j Hj), Hty. ring.
Qed.

Lemma train_follows_error_witness :
  exists nn' mse,
    NeuralNetwork.train zero_network [0; 0; 0; 0] [1] 0.1 = Ok (nn', mse) /\
    at_ (NeuralNetwork.biasO zero_network) 0
    <= at_ (NeuralNetwork.biasO nn') 0.
Proof.
  destruct (train_follows_error zero_network [0; 0; 0; 0] [1] 0.1)
    as (nn' & mse & H & Hdir).
  - reflexivity.
  - reflexivity.
  - simpl. lia.
  - simpl. lia.
  - lra.
  - exists nn', mse. split; [exact H |].
    destruct (Hdir 0%nat) as (_ & _ & Hup & _); [simpl; lia |].
    apply Hup.
    pose proof (at_output_layer zero_network [0; 0; 0; 0] 0) as Hy.
    simpl in Hy. unfold at_ at 2. simpl. left. apply Hy. lia.
Defined.

(** ** The label of a sample *)

(** X10.  [calculateOptimalAction] throws on a missing game state and
    otherwise returns 0 or 1.  The line it compares the bird with is the
    gap centre raised by a tenth of the velocity above one half: the label
    is 1 when the bird is lower on the screen than that line and 0 when it
    is higher, in both cases by more than the margin [label_margin], one
    part in [2^40] of the numbers that make the line; at the velocity one
    half it is 1 exactly when the bird is lower than the gap centre.  The
    label never goes from 1 to 0 when the bird is lower, or falls faster,
    with the rest of the state the same. *)
Theorem calculateOptimalAction_label :
  Trainer.calculateOptimalAction None
  = Throw (InvalidGameState "calculating optimal action") /\
  (forall gs, exists a,
     Trainer.calculateOptimalAction (Some gs) = Ok a /\
     (a = 0 \/ a = 1) /\
     (birdY gs
      > pipeGapY gs - (birdVelocity gs - 1 / 2) / 10 + label_margin gs ->
      a = 1) /\
     (birdY gs
      < pipeGapY gs - (birdVelocity gs - 1 / 2) / 10 - label_margin gs ->
      a = 0) /\
     (birdVelocity gs = 1 / 2 -> (a = 1 <-> birdY gs > pipeGapY gs))) /\
  (forall gs1 gs2 a1 a2,
     Trainer.calculateOptimalAction (Some gs1) = Ok a1 ->
     Trainer.calculateOptimalAction (Some gs2) = Ok a2 ->
     pipeGapY gs1 = pipeGapY gs2 ->
     birdY gs1 <= birdY gs2 ->
     birdVelocity gs1 <= birdVelocity gs2 ->
     a1 <= a2).
Proof.
  split; [reflexivity |]. split.
  - intros gs. unfold Trainer.calculateOptimalAction.
    eexists. split; [reflexivity |].
    pose proof (gtb_spec (birdY gs)
                  (pipeGapY gs - (birdVelocity gs - 0.5) * 0.1)) as Hg.
    assert (Hm : 0 <= label_margin gs).
    { unfold label_margin.
      pose proof (Rabs_pos (pipeGapY gs)).
      pose proof (Rabs_pos (birdVelocity gs - 1 / 2)).
      pose proof (powerRZ_2_pos 40).
      apply Rmult_le_pos; [lra |]. left. apply Rinv_0_lt_compat. lra. }
    destruct (gtb _ _).
    + assert (H : birdY gs > pipeGapY gs - (birdVelocity gs - 0.5) * 0.1)
        by (apply Hg; reflexivity).
      split; [right; reflexivity |].
      split; [reflexivity |].
      split; [intros Hlow; exfalso; lra |].
      intros Hv. split; [intros _; rewrite Hv in H; lra | reflexivity].
    + assert (H : ~ birdY gs > pipeGapY gs - (birdVelocity gs - 0.5) * 0.1)
        by (intros H; apply Hg in H; discriminate).
      split; [left; reflexivity |].
      split; [intros Hhigh; exfalso; lra |].
      split; [reflexivity |].
      intros Hv. split; [lra |].
      intros Hy. exfalso. apply H. rewrite Hv. lra.
  - intros gs1 gs2 a1 a2 H1 H2 Hgap Hy Hv.
    unfold Trainer.calculateOptimalAction in H1, H2.
    injection H1 as <-. injection H2 as <-.
    pose proof (gtb_spec (birdY gs1)
                  (pipeGapY gs1 - (birdVelocity gs1 - 0.5) * 0.1)) as Hg1.
    pose proof (gtb_spec (birdY gs2)
                  (pipeGapY gs2 - (birdVelocity gs2 - 0.5) * 0.1)) as Hg2.
    destruct (gtb (birdY gs1) _); destruct (gtb (birdY gs2) _); lra.
Qed.

Lemma calculateOptimalAction_label_witness :
  Trainer.calculateOptimalAction
    (Some {| birdY := 1; birdVelocity := 0; pipeDistance := 0;
             pipeGapY := 0 |})
  = Ok 1 /\
  Trainer.calculateOptimalAction
    (Some {| birdY := 0; birdVelocity := 1 / 2; pipeDistance := 0;
             pipeGapY := 0 |})
  = Ok 0.
Proof.
  destruct calculateOptimalAction_label as (_ & H & _).
  split.
  - destruct (H {| birdY := 1; birdVelocity := 0; pipeDistance := 0;
                   pipeGapY := 0 |}) as (a & Ha & _ & Hlow & _).
    rewrite Ha. f_equal. apply Hlow. unfold label_margin. simpl.
    rewrite Rabs_R0.
    replace (0 - 1 / 2) with (- (1 / 2)) by lra.
    rewrite Rabs_Ropp, Rabs_pos_eq by lra.
    pose proof (powerRZ_2_le 0 40 ltac:(lia)) as Hp.
    change (powerRZ 2 0) with 1 in Hp.
    assert (Hq : (0 + 1 / 2) / powerRZ 2 40 <= 1 / 2).
    { apply Rmult_le_reg_r with (powerRZ 2 40); [lra |].
      unfold Rdiv at 1. rewrite Rmult_assoc, Rinv_l by lra. lra. }
    lra.
  - destruct (H {| birdY := 0; birdVelocity := 1 / 2; pipeDistance := 0;
                   pipeGapY := 0 |}) as (a & Ha & [-> | ->] & _ & _ & Hhalf).
    + exact Ha.
    + exfalso. simpl in Hhalf.
      assert (Hgt : (0 : R) > 0) by (apply Hhalf; reflexivity).
      lra.
Defined.

(** ** Collecting a sample *)

Lemma last_drop_snoc {A} (l : list A) (x : A) (n : nat) :
  (n <= length l)%nat -> last (drop n (l ++ [x])) = Some x.
Proof.
  intros Hn. rewrite drop_app_le by exact Hn. apply last_snoc.
Qed.

(** X11.  [collectFromGameState] on a missing game state throws the error
    of the labelling, so nothing is added.  On a game state it does not
    fail: the newest sample of the buffer is then the four features of the
    state with the label of [calculateOptimalAction], which is 0 or 1, the
    count of samples is the length of the buffer, and the network, the
    training flag, the loss and the epochs are as before. *)
Theorem collectFromGameState_adds :
  (forall this,
     Trainer.collectFromGameState this None
     = Throw (InvalidGameState "calculating optimal action")) /\
  (forall this gs,
     (length (Trainer.trainingData this) <= Trainer.maxSamples)%nat ->
     exists this' a,
       Trainer.collectFromGameState this (Some gs) = Ok this' /\
       Trainer.calculateOptimalAction (Some gs) = Ok a /\
       (a = 0 \/ a = 1) /\
       last (Trainer.trainingData this')
       = Some {| Trainer.inputs := NeuralNetwork.features gs;
                 Trainer.target := [a] |} /\
       Trainer.totalSamples (Trainer.getStats this')
       = length (Trainer.trainingData this') /\
       Trainer.nn this' = Trainer.nn this /\
       Trainer.isTraining this' = Trainer.isTraining this /\
       Trainer.currentLoss (Trainer.getStats this')
       = Trainer.currentLoss (Trainer.getStats this) /\
       Trainer.trainedEpochs (Trainer.getStats this')
       = Trainer.trainedEpochs (Trainer.getStats this)).
Proof.
  split; [reflexivity |].
  intros this gs Hlen.
  unfold Trainer.collectFromGameState, Trainer.calculateOptimalAction.
  cbn [mbind outcome_bind].
  set (a := if gtb _ _ then 1 else 0).
  destruct (addSample_data this gs a Hlen) as (this' & Hadd & Hdata).
  exists this', a. split; [exact Hadd |]. split; [reflexivity |].
  split; [unfold a; destruct (gtb _ _); [right|left]; reflexivity |].
  split.
  { rewrite Hdata. apply last_drop_snoc.
    rewrite length_app. simpl. pose proof maxSamples_pos. lia. }
  unfold Trainer.addSample in Hadd. injection Hadd as <-.
  repeat split.
Qed.

Lemma collectFromGameState_adds_witness :
  exists this',
    Trainer.collectFromGameState (Trainer.new zero_network) (Some still)
    = Ok this' /\
    Trainer.totalSamples (Trainer.getStats this')
    = length (Trainer.trainingData this').
Proof.
  destruct collectFromGameState_adds as [_ H].
  destruct (H (Trainer.new zero_network) still)
    as (this' & a & Hc & _ & _ & _ & Ht & _).
  - simpl. apply Nat.leb_le. vm_compute. reflexivity.
  - exists this'. split; assumption.
Defined.

(** ** The statistics *)

Lemma train_stats (this this' : Trainer.t) (lr loss : R) (epochs k k' : nat)
    (g : source) :
  Trainer.train this lr epochs g k = Ok (this', loss, k') ->
  Trainer.totalSamples (Trainer.trainingStats this')
  = Trainer.totalSamples (Trainer.trainingStats this) /\
  (Trainer.trainedEpochs (Trainer.trainingStats this)
   <= Trainer.trainedEpochs (Trainer.trainingStats this'))%nat /\
  Trainer.isTraining this' = Trainer.isTraining this.
Proof.
  unfold Trainer.train.
  destruct (_ <? _)%nat; [intros [= <- _ _]; repeat split; lia |].
  destruct (Trainer.train_epochs _ _ _ _ _) as [[[[net tot] n] k1]| | |];
    simpl; try discriminate.
  destruct (divide _ _); simpl; try discriminate.
  intros [= <- _ _]. simpl. repeat split; lia.
Qed.

Lemma addSample_stats (this this' : Trainer.t) (gs : option GameState)
    (a : R) :
  Trainer.addSample this gs a = Ok this' ->
  Trainer.totalSamples (Trainer.trainingStats this')
  = length (Trainer.trainingData this') /\
  Trainer.trainedEpochs (Trainer.trainingStats this')
  = Trainer.trainedEpochs (Trainer.trainingStats this).
Proof.
  destruct gs as [gs|]; [|discriminate].
  intros [= <-]. split; reflexivity.
Qed.

(** X12.  In every state a trainer reaches from a new one, by any sequence
    of its methods and of replacements of its network, the count of
    samples that [getStats] reports is the length of the buffer. *)
Theorem stats_follow_buffer (nn0 : NeuralNetwork.t) (this : Trainer.t) :
  rtc step (Trainer.new nn0) this ->
  Trainer.totalSamples (Trainer.getStats this)
  = length (Trainer.trainingData this).
Proof.
  intros Hreach.
  assert (Hnew : Trainer.totalSamples (Trainer.getStats (Trainer.new nn0))
                 = length (Trainer.trainingData (Trainer.new nn0)))
    by reflexivity.
  revert Hnew.
  induction Hreach as [|t1 t2 t3 Hstep _ IH]; intros Hinv; [exact Hinv |].
  apply IH. clear IH. unfold Trainer.getStats in *.
  destruct Hstep as [this gs a this' H|this gs this' H
                    |this lr epochs g k this' loss k' H
                    |this lr g k this' k' H| | | |]; simpl;
    try exact Hinv.
  - apply (addSample_stats _ _ _ _ H).
  - unfold Trainer.collectFromGameState in H.
    destruct (Trainer.calculateOptimalAction gs); simpl in H;
      try discriminate.
    apply (addSample_stats _ _ _ _ H).
  - destruct (train_stats _ _ _ _ _ _ _ _ H) as (-> & _ & _).
    rewrite (train_data _ _ _ _ _ _ _ _ H). exact Hinv.
  - unfold Trainer.trainStep in H.
    destruct (negb _); [discriminate |].
    destruct (Trainer.train _ _ _ _ _) as [[[this1 loss] k1]| | |] eqn:Ht;
      simpl in H; try discriminate.
    injection H as <- _.
    destruct (train_stats _ _ _ _ _ _ _ _ Ht) as (-> & _ & _).
    rewrite (train_data _ _ _ _ _ _ _ _ Ht). exact Hinv.
  - reflexivity.
Qed.

Lemma stats_follow_buffer_witness :
  exists this',
    Trainer.addSample (Trainer.new zero_network) (Some still) 1 = Ok this' /\
    Trainer.totalSamples (Trainer.getStats this') = 1%nat /\
    length (Trainer.trainingData this') = 1%nat.
Proof.
  eexists. split; [reflexivity |].
  split; [|reflexivity].
  rewrite (stats_follow_buffer zero_network); [reflexivity |].
  apply rtc_once.
  apply (step_addSample _ (Some still) 1). reflexivity.
Defined.

(** ** Random numbers drawn by the shuffle and by a training run *)

(** X13.  [shuffle] returns a rearrangement of its argument, of the same
    length, and draws one random number less than the array has elements
    (none for the empty array); an array of at most one element comes
    back as it is.  Every index it computes lies inside the array, so each
    of its swaps exchanges two elements that exist. *)
Theorem shuffle_rearranges {A : Type} (g : source) (array : list A)
    (k : nat) :
  (Trainer.shuffle g array k).1 ≡ₚ array /\
  length (Trainer.shuffle g array k).1 = length array /\
  (Trainer.shuffle g array k).2 = (k + (length array - 1))%nat /\
  ((length array <= 1)%nat -> (Trainer.shuffle g array k).1 = array) /\
  (forall i n, (i < length array)%nat ->
     (Trainer.floor (draw g n * INR (i + 1)) <= i)%nat).
Proof.
  split; [apply shuffle_Permutation |].
  split; [apply Permutation_length, shuffle_Permutation |].
  split; [apply shuffle_from_draws |]. split.
  - intros Hlen. unfold Trainer.shuffle.
    replace (length array - 1)%nat with 0%nat by lia. reflexivity.
  - intros i n _. apply floor_index, draw_unit.
Qed.

Lemma shuffle_rearranges_witness :
  (Trainer.shuffle zeros [1; 2; 3] 0).2 = 2%nat.
Proof.
  apply (shuffle_rearranges zeros [1; 2; 3] 0).
Defined.

(** ** Training runs one after the other *)

Lemma trainable_trained_on (lr : R) (data : list Trainer.sample)
    (l : list Trainer.sample) :
  forall nn, trainable (trained_on nn lr l) data = trainable nn data.
Proof.
  induction l as [|s l IH]; intros nn; [reflexivity |].
  simpl. rewrite IH. apply trainable_trained.
Qed.

Lemma sizes_trained_on (lr : R) (l : list Trainer.sample) :
  forall nn,
    (NeuralNetwork.inputSize (trained_on nn lr l),
     NeuralNetwork.hiddenSize (trained_on nn lr l),
     NeuralNetwork.outputSize (trained_on nn lr l))
    = (NeuralNetwork.inputSize nn, NeuralNetwork.hiddenSize nn,
       NeuralNetwork.outputSize nn).
Proof.
  induction l as [|s l IH]; intros nn; [reflexivity |].
  simpl. rewrite IH. reflexivity.
Qed.

Lemma losses_on_nonneg (lr : R) (l : list Trainer.sample) :
  forall nn, trainable nn l = true -> 0 <= total (losses_on nn lr l).
Proof.
  induction l as [|s l IH]; intros nn Hnn; [simpl; lra |].
  pose proof Hnn as Hs. apply trainable_spec in Hs as (Hb & HO & Hall).
  assert (Hl : trainable nn l = true).
  { apply trainable_spec. split; [exact Hb |]. split; [exact HO |].
    intros s' Hs'. apply Hall. right. exact Hs'. }
  simpl.
  assert (H1 : 0 <= sample_loss nn (Trainer.inputs s) (Trainer.target s))
    by (rewrite sample_loss_mean; apply mean_squared_error_nonneg, HO).
  assert (H2 : 0 <= total (losses_on
                      (trained nn (Trainer.inputs s) (Trainer.target s) lr)
                      lr l))
    by (apply IH; rewrite trainable_trained; exact Hl).
  lra.
Qed.

(** X14.  A training run on at least 32 samples that fit the network, for
    at least one epoch, returns a loss that is not negative, draws
    [epochs * (length - 1)] random numbers, and keeps the sizes of the
    network and the buffer: the samples still fit, so that a second run
    does not fail either, and the epochs of both runs add up. *)
Theorem train_again (this : Trainer.t) (lr : R) (epochs : nat) (g : source)
    (k : nat) :
  (Trainer.batchSize <= length (Trainer.trainingData this))%nat ->
  trainable (Trainer.nn this) (Trainer.trainingData this) = true ->
  (1 <= epochs)%nat ->
  exists this' loss,
    Trainer.train this lr epochs g k
    = Ok (this', loss,
          (k + epochs * (length (Trainer.trainingData this) - 1))%nat) /\
    0 <= loss /\
    Trainer.trainingData this' = Trainer.trainingData this /\
    (NeuralNetwork.inputSize (Trainer.nn this'),
     NeuralNetwork.hiddenSize (Trainer.nn this'),
     NeuralNetwork.outputSize (Trainer.nn this'))
    = (NeuralNetwork.inputSize (Trainer.nn this),
       NeuralNetwork.hiddenSize (Trainer.nn this),
       NeuralNetwork.outputSize (Trainer.nn this)) /\
    trainable (Trainer.nn this') (Trainer.trainingData this') = true /\
    forall lr2 epochs2 g2 k2,
      (1 <= epochs2)%nat ->
      exists this2 loss2 k2',
        Trainer.train this' lr2 epochs2 g2 k2 = Ok (this2, loss2, k2') /\
        Trainer.trainedEpochs (Trainer.getStats this2)
        = (Trainer.trainedEpochs (Trainer.getStats this)
           + epochs + epochs2)%nat.
Proof.
  intros Hlen Hfit He.
  destruct (train_run this lr epochs g k Hlen Hfit He) as (_ & Hn & Ht).
  destruct (epoch_orders_spec g (Trainer.trainingData this) epochs k)
    as [Hlo Hperm].
  rewrite epoch_orders_draws in Ht.
  eexists _, _. split; [exact Ht |].
  set (samples := concat (epoch_orders g (Trainer.trainingData this) k
                            epochs).1) in *.
  assert (Hpos : (0 < length samples)%nat).
  { rewrite Hn. unfold Trainer.batchSize in Hlen. nia. }
  split.
  { apply Rmult_le_pos.
    - apply losses_on_nonneg.
      apply (trainable_concat _ (Trainer.trainingData this)); assumption.
    - left. apply Rinv_0_lt_compat, lt_0_INR, Hpos. }
  split; [reflexivity |].
  split; [apply sizes_trained_on |].
  assert (Hfit' : trainable (trained_on (Trainer.nn this) lr samples)
                    (Trainer.trainingData this) = true)
    by (rewrite trainable_trained_on; exact Hfit).
  split; [exact Hfit' |].
  intros lr2 epochs2 g2 k2 He2.
  set (this' := Trainer.mk _ _ _ _).
  destruct (train_run this' lr2 epochs2 g2 k2 Hlen Hfit' He2) as (_ & _ & H2).
  eexists _, _, _. split; [exact H2 |]. reflexivity.
Qed.

Lemma train_again_witness :
  exists this' loss,
    Trainer.train full_buffer_trainer 0.1 2 zeros 0 = Ok (this', loss, 62%nat)
    /\ 0 <= loss.
Proof.
  destruct (train_again full_buffer_trainer 0.1 2 zeros 0)
    as (this' & loss & H & Hl & _).
  - vm_compute. lia.
  - reflexivity.
  - lia.
  - exists this', loss. split; [exact H | exact Hl].
Defined.

(** ** Clearing the trainer *)

(** X15.  [reset] empties the buffer and zeroes the statistics, and
    touches neither the network nor the training flag.  A training run
    after it returns 0 at once, for any number of epochs, and changes
    nothing; when continuous training was on it stays on, and its frames
    go on without effect. *)
Theorem reset_clears (this : Trainer.t) :
  Trainer.trainingData (Trainer.reset this) = [] /\
  Trainer.getStats (Trainer.reset this)
  = {| Trainer.totalSamples := 0; Trainer.currentLoss := 0;
       Trainer.trainedEpochs := 0 |} /\
  Trainer.nn (Trainer.reset this) = Trainer.nn this /\
  Trainer.isTraining (Trainer.reset this) = Trainer.isTraining this /\
  Trainer.reset (Trainer.reset this) = Trainer.reset this /\
  (forall lr epochs g k,
     Trainer.train (Trainer.reset this) lr epochs g k
     = Ok (Trainer.reset this, 0, k)) /\
  (Trainer.isTraining this = true ->
   forall lr g k,
     Trainer.trainStep (Trainer.reset this) lr g k
     = Ok (Some (Trainer.reset this, k))).
Proof.
  repeat split.
  intros Hon lr g k. unfold Trainer.trainStep.
  cbn [Trainer.reset Trainer.isTraining]. rewrite Hon. reflexivity.
Qed.

Lemma reset_clears_witness :
  Trainer.trainStep
    (Trainer.reset (Trainer.startTraining full_buffer_trainer)) 0.1 zeros 0
  = Ok (Some (Trainer.reset (Trainer.startTraining full_buffer_trainer),
              0%nat)).
Proof.
  apply (reset_clears (Trainer.startTraining full_buffer_trainer)).
  reflexivity.
Defined.

(** ** Continuous training *)



(** ** More on export and import *)

(** X17.  The exported text determines the four arrays: two networks with
    the same export have the same weights and biases.  An import that
    succeeds keeps the declared sizes and the cached activations of the
    receiver, whatever the shape of the arrays it assigns; importing the
    same text again changes nothing, and the arrays assigned do not
    depend on the receiver. *)
Theorem json_import_export :
  (forall a b,
     NeuralNetwork.toJSON a = NeuralNetwork.toJSON b ->
     NeuralNetwork.getWeights a = NeuralNetwork.getWeights b) /\
  (forall nn data nn',
     NeuralNetwork.fromJSON nn data = Ok nn' ->
     (NeuralNetwork.inputSize nn', NeuralNetwork.hiddenSize nn',
      NeuralNetwork.outputSize nn')
     = (NeuralNetwork.inputSize nn, NeuralNetwork.hiddenSize nn,
        NeuralNetwork.outputSize nn) /\
     NeuralNetwork.getActivations nn' = NeuralNetwork.getActivations nn /\
     NeuralNetwork.fromJSON nn' data = Ok nn' /\
     forall other,
       NeuralNetwork.fromJSON other data = Ok (with_parameters other nn')).
Proof.
  split.
  - intros a b H.
    pose proof (fromJSON_toJSON a a) as Ha.
    pose proof (fromJSON_toJSON b a) as Hb.
    rewrite H in Ha. rewrite Ha in Hb.
    injection Hb as H1 H2 H3 H4.
    unfold NeuralNetwork.getWeights. congruence.
  - intros nn data nn'. unfold NeuralNetwork.fromJSON.
    destruct (NeuralNetwork.as_matrix (NeuralNetwork.member "weightsIH" data))
      as [wih| | |]; try discriminate.
    destruct (NeuralNetwork.as_matrix (NeuralNetwork.member "weightsHO" data))
      as [who| | |]; try discriminate.
    destruct (NeuralNetwork.as_vector (NeuralNetwork.member "biasH" data))
      as [bh| | |]; try discriminate.
    destruct (NeuralNetwork.as_vector (NeuralNetwork.member "biasO" data))
      as [bo| | |]; try discriminate.
    cbn [mbind outcome_bind]. intros [= <-]. repeat split.
Qed.

Lemma json_import_export_witness :
  NeuralNetwork.fromJSON tiny_network (NeuralNetwork.toJSON zero_network)
  = Ok (with_parameters tiny_network zero_network).
Proof.
  destruct json_import_export as [_ H].
  destruct (H zero_network (NeuralNetwork.toJSON zero_network) zero_network)
    as (_ & _ & _ & Hother).
  - apply fromJSON_toJSON.
  - apply Hother.
Defined.

(** ** The shape of a copy *)

Lemma exact_block (rows cols : nat) (m : list (list R)) :
  exact rows cols (block rows cols m).
Proof.
  split; [apply length_block |].
  unfold block. apply Forall_fmap, Forall_forall. intros i _. simpl.
  rewrite length_map. unfold range. apply length_seq.
Qed.

(** X18.  The copy of a network whose parameters reach as far as its
    declared sizes has weight matrices of exactly the declared shape,
    even when those of the original are larger, so its own parameters
    reach as far as its sizes; making it draws one random number for every
    weight, all overwritten; and a copy of the copy is the copy again. *)
Theorem copy_shape (nn : NeuralNetwork.t) (g : source) (k : nat) :
  in_bounds nn = true ->
  exists clone,
    NeuralNetwork.copy nn g k
    = Ok (clone,
          (k + NeuralNetwork.inputSize nn * NeuralNetwork.hiddenSize nn
             + NeuralNetwork.hiddenSize nn * NeuralNetwork.outputSize nn)%nat)
    /\ exact (NeuralNetwork.inputSize nn) (NeuralNetwork.hiddenSize nn)
             (NeuralNetwork.weightsIH clone)
    /\ exact (NeuralNetwork.hiddenSize nn) (NeuralNetwork.outputSize nn)
             (NeuralNetwork.weightsHO clone)
    /\ in_bounds clone = true
    /\ forall g2 k2, exists k2',
         NeuralNetwork.copy clone g2 k2 = Ok (clone, k2').
Proof.
  intros Hnn. exists (clone_of nn).
  assert (Hc : in_bounds (clone_of nn) = true).
  { pose proof Hnn as Hb.
    apply in_bounds_spec in Hb as (_ & _ & Hbh & Hbo).
    apply in_bounds_spec. simpl.
    repeat split; try apply exact_covers, exact_block; assumption. }
  split.
  { rewrite copy_Ok by exact Hnn. unfold draws_after.
    rewrite (proj1 (initializeWeights_spec g _ _ _)).
    rewrite (proj1 (initializeWeights_spec g _ _ _)). reflexivity. }
  split; [apply exact_block |]. split; [apply exact_block |].
  split; [exact Hc |].
  intros g2 k2. eexists. rewrite copy_Ok by exact Hc.
  f_equal. f_equal. unfold clone_of. simpl.
  rewrite !(block_exact _ _ (block _ _ _)) by apply exact_block.
  reflexivity.
Qed.

Lemma copy_shape_witness :
  exists clone,
    NeuralNetwork.copy zero_network zeros 0 = Ok (clone, 40%nat) /\
    in_bounds clone = true.
Proof.
  destruct (copy_shape zero_network zeros 0) as (clone & H & _ & _ & Hb & _).
  - reflexivity.
  - exists clone. split; [exact H | exact Hb].
Defined.

(** ** The bird *)

Lemma ltb_spec (x y : R) : ltb x y = true <-> x < y.
Proof.
  unfold ltb. destruct (Rlt_dec x y); split; intros H;
    try reflexivity; try discriminate; lra.
Qed.

Lemma ltb_false (x y : R) : ltb x y = false <-> y <= x.
Proof.
  unfold ltb. destruct (Rlt_dec x y); split; intros H;
    try reflexivity; try discriminate; lra.
Qed.

Lemma gtb_false (x y : R) : gtb x y = false <-> x <= y.
Proof.
  unfold gtb. destruct (Rlt_dec y x); split; intros H;
    try reflexivity; try discriminate; lra.
Qed.

Lemma bird_step_standard (b b' : Bird.t) :
  bird_step b b' ->
  (Bird.gravity b = 0.6 /\ Bird.flapForce b = -8 /\
   -8 <= Bird.velocity b <= 12) ->
  (Bird.gravity b' = 0.6 /\ Bird.flapForce b' = -8 /\
   -8 <= Bird.velocity b' <= 12) /\
  Bird.x b' = Bird.x b /\ Bird.width b' = Bird.width b /\
  Bird.height b' = Bird.height b.
Proof.
  intros Hstep (Hg & Hf & Hv).
  destruct Hstep as [b|b|b].
  - unfold Bird.flap. destruct (Bird.alive b); simpl;
      repeat split; try assumption; lra.
  - unfold Bird.update. destruct (Bird.alive b); simpl;
      repeat split; try assumption; try lra.
    + rewrite Hg. apply Rmin_glb; lra.
    + apply Rmin_r.
  - simpl. repeat split; try assumption; lra.
Qed.

(** X19.  A bird made by the constructor and moved by [flap] and
    [update] in any order never leaves its column, and its velocity stays
    between -8, the force of a flap, and 12, the terminal velocity.  While
    it is alive, an update adds the gravity 0.6 to the velocity, caps it at
    12, and moves the bird down by the new velocity, which is at least
    -7.4; the rotation is then three times the velocity, so the limits
    -30 and 90 of the rotation are never met.  A dead bird is moved by
    neither method. *)
Theorem bird_motion (x0 y0 : R) (b : Bird.t) :
  rtc bird_step (Bird.new x0 y0) b ->
  Bird.x b = x0 /\
  -8 <= Bird.velocity b <= 12 /\
  (Bird.alive b = true ->
   Bird.velocity (Bird.update b) = Rmin (Bird.velocity b + 0.6) 12 /\
   -7.4 <= Bird.velocity (Bird.update b) /\
   Bird.y (Bird.update b) = Bird.y b + Bird.velocity (Bird.update b) /\
   Bird.rotation (Bird.update b) = Bird.velocity (Bird.update b) * 3 /\
   Bird.velocity (Bird.flap b) = -8 /\
   Bird.y (Bird.flap b) = Bird.y b) /\
  (Bird.alive b = false -> Bird.update b = b /\ Bird.flap b = b).
Proof.
  intros Hreach.
  assert (Hinv : (Bird.gravity b = 0.6 /\ Bird.flapForce b = -8 /\
                  -8 <= Bird.velocity b <= 12) /\ Bird.x b = x0).
  { assert (Hnew : (Bird.gravity (Bird.new x0 y0) = 0.6 /\
                    Bird.flapForce (Bird.new x0 y0) = -8 /\
                    -8 <= Bird.velocity (Bird.new x0 y0) <= 12) /\
                   Bird.x (Bird.new x0 y0) = x0)
      by (simpl; repeat split; lra).
    revert Hnew.
    induction Hreach as [|b1 b2 b3 Hstep _ IH]; intros [Hc Hx];
      [split; assumption |].
    apply IH.
    destruct (bird_step_standard b1 b2 Hstep Hc) as (Hc' & Hx' & _).
    split; [exact Hc' | congruence]. }
  destruct Hinv as [(Hg & Hf & Hv) Hx].
  split; [exact Hx |]. split; [exact Hv |]. split.
  - intros Ha. unfold Bird.update, Bird.flap. rewrite Ha. simpl.
    rewrite Hg, Hf.
    assert (Hlo : -7.4 <= Rmin (Bird.velocity b + 0.6) 12)
      by (apply Rmin_glb; lra).
    assert (Hhi : Rmin (Bird.velocity b + 0.6) 12 <= 12) by apply Rmin_r.
    repeat split; try lra.
    rewrite Rmax_left by lra. rewrite Rmin_left by lra. reflexivity.
  - intros Ha. unfold Bird.update, Bird.flap. rewrite Ha. split; reflexivity.
Qed.

Lemma bird_motion_witness :
  Bird.velocity (Bird.update (Bird.new 80 300)) = Rmin (0 + 0.6) 12.
Proof.
  destruct (bird_motion 80 300 (Bird.new 80 300)) as (_ & _ & H & _).
  - apply rtc_refl.
  - apply H. reflexivity.
Defined.

(** ** The pipe *)

(** X20.  The bird hits a pipe exactly when its hit box, the sprite of 34
    by 24 less 4 on every side, overlaps the column of the pipe and
    reaches above the gap or below it.  So a bird whose hit box is inside
    the gap, or beside the pipe, does not hit it. *)
Theorem checkCollision_hitbox (p : Pipe.t) (b : Bird.t) :
  Bird.width b = 34 -> Bird.height b = 24 ->
  (Pipe.checkCollision p b = true <->
   Bird.x b + 4 < Pipe.x p + Pipe.width p /\
   Pipe.x p < Bird.x b + 30 /\
   (Bird.y b + 4 < Pipe.gapY p \/
    Pipe.gapY p + Pipe.gapHeight p < Bird.y b + 20)).
Proof.
  intros Hw Hh. unfold Pipe.checkCollision, Bird.getBounds. simpl.
  rewrite Hw, Hh.
  pose proof (ltb_spec (Bird.x b + 4) (Pipe.x p + Pipe.width p)) as H1.
  pose proof (gtb_spec (Bird.x b + 4 + (34 - 8)) (Pipe.x p)) as H2.
  pose proof (ltb_spec (Bird.y b + 4) (Pipe.gapY p)) as H3.
  pose proof (gtb_spec (Bird.y b + 4 + (24 - 8))
                (Pipe.gapY p + Pipe.gapHeight p)) as H4.
  destruct (ltb (Bird.x b + 4) _); destruct (gtb (Bird.x b + 4 + _) _);
    destruct (ltb (Bird.y b + 4) _); destruct (gtb (Bird.y b + 4 + _) _);
    simpl; split; intros H; try reflexivity; try discriminate.
  all: try (repeat split;
            try (apply H1; reflexivity);
            try (assert (Hx : Bird.x b + 4 + (34 - 8) > Pipe.x p)
                   by (apply H2; reflexivity); lra);
            try (left; apply H3; reflexivity);
            try (right;
                 assert (Hy : Bird.y b + 4 + (24 - 8)
                              > Pipe.gapY p + Pipe.gapHeight p)
                   by (apply H4; reflexivity); lra); fail).
  all: exfalso; destruct H as (Ha & Hb & Hc).
  all: try (assert (Hf : false = true) by (apply H1; lra); discriminate).
  all: try (assert (Hf : false = true) by (apply H2; lra); discriminate).
  all: destruct Hc as [Hc|Hc].
  all: try (assert (Hf : false = true) by (apply H3; lra); discriminate).
  all: try (assert (Hf : false = true) by (apply H4; lra); discriminate).
Qed.

Lemma checkCollision_hitbox_witness :
  Pipe.checkCollision (Pipe.new 100 200 150 600) (Bird.new 80 100) = true.
Proof.
  apply (checkCollision_hitbox (Pipe.new 100 200 150 600) (Bird.new 80 100)).
  - reflexivity.
  - reflexivity.
  - simpl. repeat split; lra.
Defined.

(** ** The state handed to the network *)

Lemma find_first {A} (f : A -> bool) (before : list A) (p : A)
    (after : list A) :
  (forall q, q ∈ before -> f q = false) -> f p = true ->
  find f (before ++ p :: after) = Some p.
Proof.
  intros Hb Hp. induction before as [|q before IH]; simpl.
  - rewrite Hp. reflexivity.
  - rewrite (Hb q) by left. apply IH. intros q' Hq'. apply Hb. right.
    exact Hq'.
Qed.

Lemma find_nowhere {A} (f : A -> bool) (l : list A) :
  (forall q, q ∈ l -> f q = false) -> find f l = None.
Proof.
  intros Hl. induction l as [|q l IH]; simpl; [reflexivity |].
  rewrite (Hl q) by left. apply IH. intros q' Hq'. apply Hl. right.
  exact Hq'.
Qed.

Lemma getGameState_Ok (this : Game.t) (b : Bird.t) :
  Game.bird this = Some b ->
  Game.height this <> 0 -> Game.width this <> 0 ->
  Game.getGameState this
  = Ok (Some
      {| birdY := Bird.y b / Game.height this;
         birdVelocity := (Bird.velocity b + 15) / 30;
         pipeDistance :=
           match find (fun pipe => gtb (Pipe.x pipe + Pipe.width pipe)
                                       (Bird.x b))
                      (Game.pipes this) with
           | Some nextPipe => (Pipe.x nextPipe - Bird.x b) / Game.width this
           | None => 1
           end;
         pipeGapY :=
           match find (fun pipe => gtb (Pipe.x pipe + Pipe.width pipe)
                                       (Bird.x b))
                      (Game.pipes this) with
           | Some nextPipe => Pipe.getGapCenter nextPipe / Game.height this
           | None => 0.5
           end |}).
Proof.
  intros Hb Hh Hw. unfold Game.getGameState. rewrite Hb.
  rewrite (divide_Ok _ _ Hh). cbn [mbind outcome_bind].
  destruct (find _ _) as [nextPipe|].
  - rewrite (divide_Ok _ _ Hw), (divide_Ok _ _ Hh). reflexivity.
  - reflexivity.
Qed.

(** X21.  [getGameState] returns [null] exactly when there is no bird.
    With a bird, on a canvas of height zero the normalisation divides by
    zero; on a canvas with a width and a height it returns the height of
    the bird over the canvas height and the velocity shifted by 15 and
    divided by 30, which lies between 7/30 and 9/10 for a velocity between
    -8 and 12.  The pipe it looks at is the first of the array whose right
    edge is right of the bird's left edge: the state has the distance to
    its left edge over the canvas width and the centre of its gap over the
    canvas height, and the distance 1 and the gap 1/2 when there is no
    such pipe. *)
Theorem getGameState_normalizes (this : Game.t) :
  (Game.getGameState this = Ok None <-> Game.bird this = None) /\
  (forall b,
     Game.bird this = Some b ->
     (Game.height this = 0 -> Game.getGameState this = DivisionByZero) /\
     (Game.height this <> 0 -> Game.width this <> 0 ->
      exists gs,
        Game.getGameState this = Ok (Some gs) /\
        birdY gs = Bird.y b / Game.height this /\
        birdVelocity gs = (Bird.velocity b + 15) / 30 /\
        (-8 <= Bird.velocity b <= 12 ->
         7 / 30 <= birdVelocity gs <= 9 / 10) /\
        ((forall q, q ∈ Game.pipes this ->
            Pipe.x q + Pipe.width q <= Bird.x b) ->
         pipeDistance gs = 1 /\ pipeGapY gs = 1 / 2) /\
        (forall before p after,
           Game.pipes this = before ++ p :: after ->
           (forall q, q ∈ before -> Pipe.x q + Pipe.width q <= Bird.x b) ->
           Bird.x b < Pipe.x p + Pipe.width p ->
           pipeDistance gs = (Pipe.x p - Bird.x b) / Game.width this /\
           pipeGapY gs
           = (Pipe.gapY p + Pipe.gapHeight p / 2) / Game.height this))).
Proof.
  split.
  - unfold Game.getGameState. destruct (Game.bird this) as [b|].
    + split; [|discriminate]. intros H. exfalso.
      destruct (divide _ _); cbn [mbind outcome_bind] in H;
        try discriminate.
      destruct (find _ _); cbn [mbind outcome_bind] in H;
        [|discriminate].
      destruct (divide _ (Game.width this)); cbn [mbind outcome_bind] in H;
        try discriminate.
      destruct (divide _ _); cbn [mbind outcome_bind] in H; discriminate.
    + split; reflexivity.
  - intros b Hb. split.
    + intros Hh. unfold Game.getGameState. rewrite Hb, Hh.
      unfold divide. destruct (Req_dec_T 0 0); [reflexivity | contradiction].
    + intros Hh Hw. rewrite (getGameState_Ok this b Hb Hh Hw).
      eexists. split; [reflexivity |]. simpl.
      split; [reflexivity |]. split; [reflexivity |]. split; [lra |].
      split.
      * intros Hall. rewrite find_nowhere; [split; lra |].
        intros q Hq. apply gtb_false, Hall, Hq.
      * intros before p after Hp Hbefore Hahead.
        rewrite Hp, (find_first _ before p after).
        -- split; reflexivity.
        -- intros q Hq. apply gtb_false, Hbefore, Hq.
        -- apply gtb_spec. lra.
Qed.

Lemma getGameState_normalizes_witness :
  exists gs,
    Game.getGameState game_in_play = Ok (Some gs) /\
    pipeDistance gs = 1 /\ pipeGapY gs = 1 / 2.
Proof.
  destruct (getGameState_normalizes game_in_play) as [_ H].
  destruct (H (Bird.new 80 300)) as [_ H2]; [reflexivity |].
  destruct H2 as (gs & Hgs & _ & _ & _ & Hnone & _).
  - simpl. lra.
  - simpl. lra.
  - exists gs. split; [exact Hgs |]. apply Hnone.
    intros q Hq. simpl in Hq. inversion Hq.
Defined.

(** ** The loop over the pipes *)

Lemma update_pipes_unfold (bird : Bird.t) (i : nat)
    (st : list Pipe.t * nat * nat * list Game.event) :
  Game.update_pipes bird i st
  = match st.1.1.1 !! i with
    | None => (st, false)
    | Some pipe =>
        if (Game.visit bird i pipe st).2 then Game.visit bird i pipe st
        else Game.update_pipes bird (S i) (Game.visit bird i pipe st).1
    end.
Proof.
  funelim (Game.update_pipes bird i st).
  - rewrite Hpipe. reflexivity.
  - match goal with H : _ !! _ = None |- _ => rewrite H end. reflexivity.
Qed.

Lemma visit_calm (bird : Bird.t) (i : nat) (pipe : Pipe.t)
    (pipes : list Pipe.t) (s b : nat) (e : list Game.event) :
  calm bird pipe ->
  Game.visit bird i pipe (pipes, s, b, e)
  = if passes bird pipe
    then ((<[i := moved bird pipe]> pipes, S s, Nat.max b (S s),
           e ++ [Game.onScore (S s)]), false)
    else ((<[i := moved bird pipe]> pipes, s, b, e), false).
Proof.
  intros [Hhit Hoff]. unfold Game.visit. rewrite Hhit.
  unfold moved.
  change (negb (Pipe.passed (Pipe.update pipe))
          && ltb (Pipe.x (Pipe.update pipe) + Pipe.width (Pipe.update pipe))
                 (Bird.x bird))
    with (passes bird pipe).
  destruct (passes bird pipe).
  - change (Pipe.isOffScreen (Pipe.pass (Pipe.update pipe)))
      with (Pipe.isOffScreen (Pipe.update pipe)).
    rewrite Hoff.
    destruct (Nat.ltb_spec b (S s)).
    + rewrite Nat.max_r by lia. reflexivity.
    + rewrite Nat.max_l by lia. reflexivity.
  - rewrite Hoff. reflexivity.
Qed.

Lemma scored_cons (bird : Bird.t) (p : Pipe.t) (l : list Pipe.t) :
  scored bird (p :: l)
  = ((if passes bird p then 1 else 0) + scored bird l)%nat.
Proof.
  unfold scored. simpl. destruct (passes bird p); reflexivity.
Qed.

(** From any position on, over pipes that are not hit and stay on the
    screen, the loop moves every pipe and counts those passed. *)
Lemma update_pipes_calm (bird : Bird.t) (rest : list Pipe.t) :
  forall (done : list Pipe.t) (s b : nat) (e : list Game.event),
    Forall (calm bird) rest -> (s <= b)%nat ->
    Game.update_pipes bird (length done) (done ++ rest, s, b, e)
    = ((done ++ map (moved bird) rest,
        (s + scored bird rest)%nat,
        Nat.max b (s + scored bird rest),
        e ++ map Game.onScore (seq (S s) (scored bird rest))),
       false).
Proof.
  induction rest as [|p rest IH]; intros done s b e Hcalm Hsb;
    rewrite update_pipes_unfold; cbn [fst snd].
  - rewrite app_nil_r, lookup_ge_None_2 by lia.
    unfold scored. simpl. rewrite Nat.add_0_r, !app_nil_r.
    rewrite Nat.max_l by lia. reflexivity.
  - apply Forall_cons in Hcalm as [Hp Hrest].
    rewrite list_lookup_middle by reflexivity.
    rewrite visit_calm by exact Hp.
    rewrite scored_cons.
    assert (Hins : <[length done := moved bird p]> (done ++ p :: rest)
                   = (done ++ [moved bird p]) ++ rest).
    { rewrite insert_app_r_alt by lia.
      rewrite Nat.sub_diag. simpl. rewrite <- app_assoc. reflexivity. }
    assert (Hlen : S (length done) = length (done ++ [moved bird p]))
      by (rewrite length_app; simpl; lia).
    destruct (passes bird p); cbn [fst snd]; rewrite Hins, Hlen.
    + rewrite IH by (try assumption; lia).
      rewrite <- !app_assoc. simpl.
      replace (S (s + scored bird rest))
        with (s + S (scored bird rest))%nat by lia.
      replace (Nat.max (Nat.max b (S s)) (s + S (scored bird rest)))
        with (Nat.max b (s + S (scored bird rest))) by lia.
      reflexivity.
    + rewrite IH by assumption.
      rewrite <- !app_assoc. simpl. reflexivity.
Qed.

(** X22.  In a frame in which the bird hits no pipe and no pipe leaves the
    screen, the loop of [update] visits every pipe once, in order: each
    moves left by its speed, each pipe whose right edge is then left of
    the bird and that had not been passed is marked as passed and counted,
    [onScore] is called with each new score, and the best score follows
    the score when the score exceeds it. *)
Theorem pipes_move (bird : Bird.t) (pipes : list Pipe.t) (s b : nat)
    (e : list Game.event) :
  Forall (calm bird) pipes -> (s <= b)%nat ->
  Game.update_pipes bird 0 (pipes, s, b, e)
  = ((map (moved bird) pipes,
      (s + scored bird pipes)%nat,
      Nat.max b (s + scored bird pipes),
      e ++ map Game.onScore (seq (S s) (scored bird pipes))),
     false) /\
  (forall i p, pipes !! i = Some p ->
     Pipe.x (moved bird p) = Pipe.x p - Pipe.speed p /\
     Pipe.gapY (moved bird p) = Pipe.gapY p /\
     (Pipe.passed (moved bird p) = true <->
      Pipe.passed p = true \/
      Pipe.x p - Pipe.speed p + Pipe.width p < Bird.x bird)).
Proof.
  intros Hcalm Hsb. split.
  - apply (update_pipes_calm bird pipes [] s b e Hcalm Hsb).
  - intros i p _. unfold moved, passes.
    split; [destruct (_ && _); reflexivity |].
    split; [destruct (_ && _); reflexivity |].
    pose proof (ltb_spec (Pipe.x (Pipe.update p) + Pipe.width p)
                  (Bird.x bird)) as Hl.
    simpl in Hl.
    destruct (Pipe.passed p) eqn:Hp; cbn [negb andb].
    + simpl. rewrite Hp. split; [left|]; reflexivity.
    + destruct (ltb _ _); simpl.
      * split; [intros _; right; apply Hl|]; reflexivity.
      * rewrite Hp. split; [discriminate |].
        intros [H|H]; [discriminate |]. apply Hl, H.
Qed.

(** X23.  In the frame in which the first pipe of the array leaves the
    screen it is removed with [shift] while the loop is at position 0; the
    loop goes on at position 1 of the shortened array, so the pipe that
    was second, now at position 0, is not visited: in this frame it does
    not move and is not checked against the bird, whereas the pipes after
    it move as usual. *)
Theorem pipe_after_leaving_is_skipped
    (bird : Bird.t) (p q : Pipe.t) (rest : list Pipe.t) (s b : nat)
    (e : list Game.event) :
  Pipe.checkCollision (Pipe.update p) bird = false ->
  Pipe.isOffScreen (Pipe.update p) = true ->
  Pipe.passed p = true ->
  Forall (calm bird) rest -> (s <= b)%nat ->
  Game.update_pipes bird 0 (p :: q :: rest, s, b, e)
  = ((q :: map (moved bird) rest,
      (s + scored bird rest)%nat,
      Nat.max b (s + scored bird rest),
      e ++ map Game.onScore (seq (S s) (scored bird rest))),
     false).
Proof.
  intros Hhit Hoff Hpassed Hcalm Hsb.
  rewrite update_pipes_unfold. cbn [fst snd lookup list_lookup].
  unfold Game.visit. rewrite Hhit.
  change (Pipe.passed (Pipe.update p)) with (Pipe.passed p).
  rewrite Hpassed. cbn [negb andb]. rewrite Hoff. cbn [fst snd].
  cbn [insert list_insert tail].
  apply (update_pipes_calm bird rest [q] s b e Hcalm Hsb).
Qed.

Lemma checkCollision_beside (p : Pipe.t) (b : Bird.t) :
  Pipe.x p + Pipe.width p <= Bird.x b + 4 ->
  Pipe.checkCollision p b = false.
Proof.
  intros H. unfold Pipe.checkCollision, Bird.getBounds. simpl.
  replace (ltb (Bird.x b + 4) (Pipe.x p + Pipe.width p)) with false
    by (symmetry; apply ltb_false; exact H).
  reflexivity.
Qed.

Lemma checkCollision_ahead (p : Pipe.t) (b : Bird.t) :
  Bird.x b + Bird.width b - 4 <= Pipe.x p ->
  Pipe.checkCollision p b = false.
Proof.
  intros H. unfold Pipe.checkCollision, Bird.getBounds. simpl.
  replace (gtb (Bird.x b + 4 + (Bird.width b - 8)) (Pipe.x p)) with false
    by (symmetry; apply gtb_false; lra).
  rewrite andb_false_r. reflexivity.
Qed.

Lemma pipes_move_witness :
  Game.update_pipes (Bird.new 80 300) 0
    ([Pipe.new 400 200 150 600], 0%nat, 0%nat, [])
  = (([Pipe.update (Pipe.new 400 200 150 600)], 0%nat, 0%nat, []), false).
Proof.
  assert (Hp : passes (Bird.new 80 300) (Pipe.new 400 200 150 600) = false).
  { unfold passes. simpl. apply ltb_false. lra. }
  destruct (pipes_move (Bird.new 80 300) [Pipe.new 400 200 150 600] 0 0 [])
    as [H _].
  - constructor; [|constructor]. split.
    + apply checkCollision_ahead. simpl. lra.
    + apply ltb_false. simpl. lra.
  - lia.
  - rewrite H. unfold scored, moved. simpl. rewrite Hp. reflexivity.
Defined.

Lemma pipe_after_leaving_is_skipped_witness :
  Game.update_pipes (Bird.new 80 300) 0
    ([Pipe.pass (Pipe.new (-58) 200 150 600); Pipe.new 242 200 150 600],
     1%nat, 1%nat, [])
  = (([Pipe.new 242 200 150 600], 1%nat, 1%nat, []), false).
Proof.
  apply (pipe_after_leaving_is_skipped (Bird.new 80 300)
           (Pipe.pass (Pipe.new (-58) 200 150 600))
           (Pipe.new 242 200 150 600) [] 1 1 []).
  - apply checkCollision_beside. simpl. lra.
  - apply ltb_spec. simpl. lra.
  - reflexivity.
  - constructor.
  - lia.
Defined.

(** ** What every state of a game satisfies *)

Lemma standard_pipe_update (w h : R) (p : Pipe.t) :
  standard_pipe w h p ->
  standard_pipe w h (Pipe.update p) /\
  standard_pipe w h (Pipe.pass (Pipe.update p)).
Proof.
  intros (Hw & Hs & Hg & Hc & Hx & Hy).
  split; unfold standard_pipe; simpl; rewrite Hs;
    repeat split; try assumption; try lra; apply Hy; assumption.
Qed.

Lemma Forall_tail_alt {A} (P : A -> Prop) (l : list A) :
  Forall P l -> Forall P (tail l).
Proof.
  intros H. destruct l as [|x l]; [constructor |]. simpl.
  apply Forall_cons in H as [_ H]. exact H.
Qed.

Lemma visit_invariant (w h : R) (bird : Bird.t) (i : nat) (pipe : Pipe.t)
    (pipes : list Pipe.t) (s b : nat) (e : list Game.event) :
  Forall (standard_pipe w h) pipes -> standard_pipe w h pipe ->
  (s <= b)%nat -> Forall is_score e ->
  Forall (standard_pipe w h)
    (Game.visit bird i pipe (pipes, s, b, e)).1.1.1.1 /\
  ((Game.visit bird i pipe (pipes, s, b, e)).1.1.1.2
   <= (Game.visit bird i pipe (pipes, s, b, e)).1.1.2)%nat /\
  Forall is_score (Game.visit bird i pipe (pipes, s, b, e)).1.2.
Proof.
  intros Hpipes Hpipe Hsb He.
  destruct (standard_pipe_update w h pipe Hpipe) as [Hu Hp].
  unfold Game.visit.
  destruct (Pipe.checkCollision _ _); cbn [fst snd].
  - split; [apply Forall_insert; assumption |]. split; assumption.
  - destruct (negb _ && _); cbn [fst snd].
    + split.
      { destruct (Pipe.isOffScreen _);
          [apply Forall_tail_alt |]; apply Forall_insert; assumption. }
      split.
      { destruct (Nat.ltb_spec b (S s)); lia. }
      apply Forall_app. split; [exact He |].
      constructor; [eexists; reflexivity | constructor].
    + split.
      { destruct (Pipe.isOffScreen _);
          [apply Forall_tail_alt |]; apply Forall_insert; assumption. }
      split; assumption.
Qed.

Lemma update_pipes_invariant (w h : R) (bird : Bird.t) (n : nat) :
  forall (i : nat) (pipes : list Pipe.t) (s b : nat) (e : list Game.event),
    (length pipes - i <= n)%nat ->
    Forall (standard_pipe w h) pipes -> (s <= b)%nat -> Forall is_score e ->
    Forall (standard_pipe w h)
      (Game.update_pipes bird i (pipes, s, b, e)).1.1.1.1 /\
    ((Game.update_pipes bird i (pipes, s, b, e)).1.1.1.2
     <= (Game.update_pipes bird i (pipes, s, b, e)).1.1.2)%nat /\
    Forall is_score (Game.update_pipes bird i (pipes, s, b, e)).1.2.
Proof.
  induction n as [|n IH]; intros i pipes s b e Hn Hpipes Hsb He;
    rewrite update_pipes_unfold; cbn [fst snd].
  - rewrite lookup_ge_None_2 by lia. cbn [fst snd].
    split; [|split]; assumption.
  - destruct (pipes !! i) as [pipe|] eqn:Hi;
      [|cbn [fst snd]; split; [|split]; assumption].
    assert (Hpipe : standard_pipe w h pipe).
    { rewrite Forall_forall in Hpipes. apply Hpipes.
      eapply list_elem_of_lookup_2. exact Hi. }
    pose proof (visit_invariant w h bird i pipe pipes s b e
                  Hpipes Hpipe Hsb He) as Hv.
    assert (Hlen : (length (Game.visit bird i pipe (pipes, s, b, e)).1.1.1.1
                    <= length pipes)%nat).
    { unfold Game.visit.
      destruct (Pipe.checkCollision _ _); cbn [fst snd];
        [rewrite length_insert; lia |].
      destruct (negb _ && _); cbn [fst snd];
        destruct (Pipe.isOffScreen _);
        rewrite ?length_tl, ?length_insert; lia. }
    apply lookup_lt_Some in Hi.
    destruct (Game.visit bird i pipe (pipes, s, b, e))
      as [[[[pipes1 s1] b1] e1] hit]. cbn [fst snd] in *.
    destruct hit; [exact Hv |].
    destruct Hv as (H1 & H2 & H3).
    apply IH; try assumption. lia.
Qed.

Lemma standard_bird_update (b : Bird.t) :
  standard_bird b -> standard_bird (Bird.update b).
Proof.
  intros (Hx & Hw & Hh & Hg & Hf & Hv).
  destruct (bird_step_standard b _ (bird_update b))
    as ((Hg' & Hf' & Hv') & Hx' & Hw' & Hh');
    [repeat split; assumption || lra |].
  unfold standard_bird. rewrite Hx', Hw', Hh'.
  repeat split; assumption || lra.
Qed.

Lemma standard_bird_flap (b : Bird.t) :
  standard_bird b -> standard_bird (Bird.flap b).
Proof.
  intros (Hx & Hw & Hh & Hg & Hf & Hv).
  destruct (bird_step_standard b _ (bird_flap b))
    as ((Hg' & Hf' & Hv') & Hx' & Hw' & Hh');
    [repeat split; assumption || lra |].
  unfold standard_bird. rewrite Hx', Hw', Hh'.
  repeat split; assumption || lra.
Qed.

Lemma standard_pipe_new (w h : R) (r : R) :
  0 <= r < 1 ->
  standard_pipe w h
    (Pipe.new w (r * (h - 50 - Game.gapHeight - 80 - 80) + 80)
       Game.gapHeight h).
Proof.
  intros [Hr0 Hr1]. unfold standard_pipe, Game.gapHeight. simpl.
  repeat split; try lra; intros; nra.
Qed.

(** The clauses of [game_invariant] for a state given field by field: the
    size, the ground line and the score are settled, the clauses on the
    bird, on a game in play, on a game that is over and on the pipes are
    left. *)
Ltac game_invariant_clauses :=
  unfold game_invariant; cbn;
  split; [assumption |]; split; [assumption |]; split; [assumption |];
  split; [try assumption; try lia |]; split; [|split; [|split]].

Lemma capture_not_score (e : list Game.event) (state : option GameState) :
  Forall is_score e -> Game.onStateCapture state ∈ e -> False.
Proof.
  intros He Hin. rewrite Forall_forall in He.
  destruct (He _ Hin) as [n Hn]. discriminate.
Qed.

(** One call of [update] keeps what every state of a game satisfies, and
    makes the callback [onStateCapture] only in a frame that the bird
    survives, after it has moved, with the state of the game as the frame
    leaves it. *)
Lemma update_invariant (w h : R) (this this' : Game.t) (g : source)
    (k k' : nat) (events : list Game.event) :
  game_invariant w h this ->
  Game.update this g k = Ok (this', k', events) ->
  game_invariant w h this' /\
  (forall state,
     Game.onStateCapture state ∈ events ->
     Game.getGameState this' = Ok state /\
     exists b,
       Game.bird this = Some b /\ Bird.alive b = true /\
       Game.bird this' = Some (Bird.update b) /\
       0 <= Bird.y (Bird.update b) /\
       Bird.y (Bird.update b) + Bird.height (Bird.update b)
       <= Game.groundY this).
Proof.
  intros Hinv H.
  pose proof Hinv as (Hw & Hh & Hgr & Hsb & Hbird & Hplay & Hover & Hpipes).
  unfold Game.update in H.
  destruct (Game.gameState this) eqn:Hgs;
    try (injection H as <- _ <-; split;
         [exact Hinv | intros state Hs; inversion Hs]).
  destruct (Hplay eq_refl) as (b & Hb & Halive). rewrite Hb in H.
  pose proof (standard_bird_update b (Hbird b Hb)) as Hb'.
  assert (Halive' : Bird.alive (Bird.update b) = true)
    by (unfold Bird.update; rewrite Halive; reflexivity).
  assert (Hkill : standard_bird (Bird.kill (Bird.update b)))
    by exact Hb'.
  cbn [Game.groundY Game.pipes Game.score Game.bestScore Game.gameState
       Game.width Game.height Game.bird Game.frameCount] in H.
  destruct (gtb _ _ || ltb _ _) eqn:Hcrash.
  - cbn in H. injection H as <- _ <-. split.
    + game_invariant_clauses.
      * intros bb [= <-]. exact Hkill.
      * discriminate.
      * intros _. eexists. split; reflexivity.
      * assumption.
    + intros state Hs. apply list_elem_of_singleton in Hs. discriminate.
  - apply orb_false_iff in Hcrash as [Hground Hceil].
    apply gtb_false in Hground. apply ltb_false in Hceil.
    assert (Hnil : Forall is_score []) by constructor.
    pose proof (update_pipes_invariant w h (Bird.update b)
                  (length (Game.pipes this)) 0 (Game.pipes this)
                  (Game.score this) (Game.bestScore this) []
                  ltac:(lia) Hpipes Hsb Hnil) as (Hp1 & Hs1 & He1).
    destruct (Game.update_pipes _ _ _) as [[[[pipes1 s1] b1] e1] hit].
    cbn [fst snd] in *.
    destruct hit.
    + cbn in H. injection H as <- _ <-. split.
      * game_invariant_clauses.
        -- intros bb [= <-]. exact Hkill.
        -- discriminate.
        -- intros _. eexists. split; reflexivity.
        -- assumption.
      * intros state Hs. apply elem_of_app in Hs as [Hs|Hs].
        -- exfalso. exact (capture_not_score _ _ He1 Hs).
        -- apply list_elem_of_singleton in Hs. discriminate.
    + destruct (_ =? 0)%nat.
      * unfold Game.spawnPipes in H.
        cbn [Game.groundY Game.pipes Game.score Game.bestScore
             Game.gameState Game.width Game.height Game.bird
             Game.frameCount] in H.
        destruct (Game.getGameState _) as [state0| | |] eqn:Hstate;
          cbn [mbind outcome_bind] in H; try discriminate.
        injection H as <- _ <-. split.
        -- game_invariant_clauses.
           ++ intros bb [= <-]. exact Hb'.
           ++ intros _. eexists. split; [reflexivity | exact Halive'].
           ++ discriminate.
           ++ apply Forall_app. split; [exact Hp1 |].
              constructor; [|constructor].
              rewrite Hw, Hh, Hgr. apply standard_pipe_new, draw_unit.
        -- intros state Hs. apply elem_of_app in Hs as [Hs|Hs].
           ++ exfalso. exact (capture_not_score _ _ He1 Hs).
           ++ apply list_elem_of_singleton in Hs. injection Hs as ->.
              split; [exact Hstate |].
              exists b. repeat split; assumption.
      * destruct (Game.getGameState _) as [state0| | |] eqn:Hstate;
          cbn [mbind outcome_bind] in H; try discriminate.
        injection H as <- _ <-. split.
        -- game_invariant_clauses.
           ++ intros bb [= <-]. exact Hb'.
           ++ intros _. eexists. split; [reflexivity | exact Halive'].
           ++ discriminate.
           ++ assumption.
        -- intros state Hs. apply elem_of_app in Hs as [Hs|Hs].
           ++ exfalso. exact (capture_not_score _ _ He1 Hs).
           ++ apply list_elem_of_singleton in Hs. injection Hs as ->.
              split; [exact Hstate |].
              exists b. repeat split; assumption.
Qed.

Lemma game_step_invariant (w h : R) (this this' : Game.t) :
  game_step this this' ->
  game_invariant w h this -> game_invariant w h this'.
Proof.
  intros Hstep Hinv.
  pose proof Hinv as (Hw & Hh & Hgr & Hsb & Hbird & Hplay & Hover & Hpipes).
  destruct Hstep as [this|this g k|this|this|this g k this' k' events H].
  - game_invariant_clauses.
    + intros b [= <-]. unfold standard_bird. cbn. repeat split; lra.
    + discriminate.
    + discriminate.
    + constructor.
  - game_invariant_clauses.
    + intros b [= <-]. unfold standard_bird. cbn. repeat split; lra.
    + intros _. eexists. split; reflexivity.
    + discriminate.
    + constructor; [|constructor].
      rewrite Hw, Hh, Hgr. apply standard_pipe_new, draw_unit.
  - unfold Game.flap. destruct (Game.gameState this) eqn:Hgs;
      try exact Hinv.
    destruct (Hplay eq_refl) as (b & Hb & Halive).
    game_invariant_clauses; rewrite ?Hb; cbn.
    + intros bb [= <-]. apply standard_bird_flap, Hbird, Hb.
    + intros _. eexists. split; [reflexivity |].
      unfold Bird.flap. rewrite Halive. reflexivity.
    + discriminate.
    + assumption.
  - unfold Game.gameOver. destruct (Game.bird this) as [b|] eqn:Hb;
      [|exact Hinv].
    game_invariant_clauses.
    + intros bb [= <-]. exact (Hbird b eq_refl).
    + discriminate.
    + intros _. eexists. split; reflexivity.
    + assumption.
  - exact (proj1 (update_invariant w h this this' g k k' events Hinv H)).
Qed.

Lemma reachable_game_invariant (w h : R) (this : Game.t) :
  rtc game_step (Game.new w h) this -> game_invariant w h this.
Proof.
  intros Hreach.
  assert (Hnew : game_invariant w h (Game.new w h)).
  { unfold game_invariant. cbn.
    split; [reflexivity |]. split; [reflexivity |].
    split; [reflexivity |]. split; [lia |].
    split; [discriminate |]. split; [discriminate |].
    split; [discriminate | constructor]. }
  revert Hnew.
  induction Hreach as [|t1 t2 t3 Hstep _ IH]; intros Hinv; [exact Hinv |].
  apply IH. eapply game_step_invariant; eassumption.
Qed.

(** X24.  In every state a game on a canvas of [w] by [h] reaches from
    its construction, by [reset], [start], [flap], [update] and [gameOver]
    in any order: the canvas size and the ground line 50 above the bottom
    are as constructed; the score is at most the best score; a game in
    play has a bird and it is alive, a game that is over has a bird and it
    is dead; the bird is at x = 80, is 34 by 24, and has a velocity between
    -8 and 12; every pipe is 60 wide, moves at speed 3, has a gap 150 high
    and is not right of the canvas, and on a canvas at least 360 high its
    gap starts between 80 and [h - 280], so that all of the gap is at
    least 80 away from the top and from the ground. *)
Theorem game_invariants (w h : R) (this : Game.t) :
  rtc game_step (Game.new w h) this ->
  game_invariant w h this /\
  (360 <= h ->
   forall p, p ∈ Game.pipes this ->
     80 <= Pipe.gapY p /\
     Pipe.gapY p + Pipe.gapHeight p <= Game.groundY this - 80).
Proof.
  intros Hreach.
  pose proof (reachable_game_invariant w h this Hreach) as Hinv.
  split; [exact Hinv |].
  intros Hh p Hp.
  destruct Hinv as (_ & _ & Hgr & _ & _ & _ & _ & Hpipes).
  rewrite Forall_forall in Hpipes.
  destruct (Hpipes p Hp) as (_ & _ & Hg & _ & _ & Hy).
  specialize (Hy Hh). rewrite Hg, Hgr. lra.
Qed.

Lemma game_invariants_witness :
  game_invariant 400 600 (Game.start (Game.new 400 600) zeros 0).1.
Proof.
  apply (game_invariants 400 600).
  apply rtc_once. apply game_start.
Defined.

(** ** Frames *)

Lemma update_total (w h : R) (this : Game.t) (g : source) (k : nat) :
  game_invariant w h this -> w <> 0 -> h <> 0 ->
  exists this' k' events, Game.update this g k = Ok (this', k', events).
Proof.
  intros (Hw & Hh & _) Hw0 Hh0. unfold Game.update.
  destruct (Game.gameState this); try (eexists _, _, _; reflexivity).
  destruct (Game.bird this) as [b|]; [|eexists _, _, _; reflexivity].
  cbn [Game.groundY Game.pipes Game.score Game.bestScore Game.gameState
       Game.width Game.height Game.bird Game.frameCount].
  destruct (gtb _ _ || ltb _ _); [cbn; eexists _, _, _; reflexivity |].
  destruct (Game.update_pipes _ _ _) as [[[[pipes1 s1] b1] e1] hit].
  destruct hit; [cbn; eexists _, _, _; reflexivity |].
  destruct (_ =? 0)%nat.
  - unfold Game.spawnPipes.
    cbn [Game.groundY Game.pipes Game.score Game.bestScore Game.gameState
         Game.width Game.height Game.bird Game.frameCount].
    erewrite getGameState_Ok;
      [|reflexivity | cbn; rewrite Hh; exact Hh0
       | cbn; rewrite Hw; exact Hw0].
    cbn [mbind outcome_bind]. eexists _, _, _. reflexivity.
  - erewrite getGameState_Ok;
      [|reflexivity | cbn; rewrite Hh; exact Hh0
       | cbn; rewrite Hw; exact Hw0].
    cbn [mbind outcome_bind]. eexists _, _, _. reflexivity.
Qed.

Lemma quotient_between (a h lo hi : R) :
  0 < h -> lo * h <= a -> a <= hi * h -> lo <= a / h <= hi.
Proof.
  intros Hh Hlo Hhi. unfold Rdiv. split.
  - apply (Rmult_le_reg_r h); [exact Hh |].
    replace (a * / h * h) with a by (field; lra). exact Hlo.
  - apply (Rmult_le_reg_r h); [exact Hh |].
    replace (a * / h * h) with a by (field; lra). exact Hhi.
Qed.

Lemma quotient_strictly_between (a h lo hi : R) :
  0 < h -> lo * h < a -> a < hi * h -> lo < a / h < hi.
Proof.
  intros Hh Hlo Hhi. unfold Rdiv. split.
  - apply (Rmult_lt_reg_r h); [exact Hh |].
    replace (a * / h * h) with a by (field; lra). exact Hlo.
  - apply (Rmult_lt_reg_r h); [exact Hh |].
    replace (a * / h * h) with a by (field; lra). exact Hhi.
Qed.

(** X25.  On a canvas with a width and at least 360 high, a frame of a
    game reached from its construction never fails, and the state it
    hands to [onStateCapture], if any, is never [null]: the height of the
    bird is normalised into [0, 1), its velocity into [19/75, 9/10], the
    centre of the gap into (0, 1), and the distance to the pipe is at most
    1 but can be negative, down to [-60 / w], while the bird is inside the
    pipe's column.  So [collectFromGameState] labels and stores every
    captured state without throwing. *)
Theorem update_captures (w h : R) (this : Game.t) (g : source) (k : nat) :
  rtc game_step (Game.new w h) this ->
  0 < w -> 360 <= h ->
  exists this' k' events,
    Game.update this g k = Ok (this', k', events) /\
    forall state,
      Game.onStateCapture state ∈ events ->
      exists gs,
        state = Some gs /\
        0 <= birdY gs < 1 /\
        19 / 75 <= birdVelocity gs <= 9 / 10 /\
        - 60 / w < pipeDistance gs <= 1 /\
        0 < pipeGapY gs < 1 /\
        forall trainer, exists trainer',
          Trainer.collectFromGameState trainer state = Ok trainer'.
Proof.
  intros Hreach Hw0 Hh0.
  pose proof (reachable_game_invariant w h this Hreach) as Hinv.
  destruct (update_total w h this g k Hinv) as (this' & k' & events & Hu);
    [lra | lra |].
  exists this', k', events. split; [exact Hu |].
  intros state Hs.
  destruct (update_invariant w h this this' g k k' events Hinv Hu)
    as [Hinv' Hcap].
  destruct (Hcap state Hs)
    as (Hstate & b & Hb & Halive & Hb' & Hceil & Hground).
  destruct Hinv as (_ & _ & Hgr & _ & Hbird & _).
  destruct Hinv' as (Hw' & Hh' & _ & _ & _ & _ & _ & Hpipes').
  destruct (Hbird b Hb) as (Hx & _ & Hht & Hg & Hf & Hv).
  rewrite (getGameState_Ok this' (Bird.update b) Hb') in Hstate
    by (rewrite ?Hw', ?Hh'; lra).
  injection Hstate as <-. eexists. split; [reflexivity |].
  cbn [birdY birdVelocity pipeDistance pipeGapY].
  rewrite Hw', Hh'.
  assert (Hvel : Bird.velocity (Bird.update b)
                 = Rmin (Bird.velocity b + 0.6) 12).
  { unfold Bird.update. rewrite Halive, Hg. reflexivity. }
  assert (Hvlo : -7.4 <= Bird.velocity (Bird.update b))
    by (rewrite Hvel; apply Rmin_glb; lra).
  assert (Hvhi : Bird.velocity (Bird.update b) <= 12)
    by (rewrite Hvel; apply Rmin_r).
  assert (Hht' : Bird.height (Bird.update b) = 24)
    by (unfold Bird.update; rewrite Halive; exact Hht).
  assert (Hx' : Bird.x (Bird.update b) = 80)
    by (unfold Bird.update; rewrite Halive; exact Hx).
  rewrite Hht', Hgr in Hground.
  split.
  { assert (H1 : 0 <= Bird.y (Bird.update b) / h <= 1)
      by (apply quotient_between; lra).
    assert (H2 : -1 < Bird.y (Bird.update b) / h < 1)
      by (apply quotient_strictly_between; lra).
    lra. }
  split; [lra |].
  assert (Hnext : forall np,
            find (fun pipe => gtb (Pipe.x pipe + Pipe.width pipe)
                                  (Bird.x (Bird.update b)))
                 (Game.pipes this') = Some np ->
            20 < Pipe.x np <= w /\ 80 <= Pipe.gapY np <= h - 280 /\
            Pipe.gapHeight np = 150).
  { intros np Hfind. apply find_some in Hfind as [Hin Hahead].
    apply list_elem_of_In in Hin. rewrite Forall_forall in Hpipes'.
    destruct (Hpipes' np Hin) as (Hpw & _ & Hpg & _ & Hpx & Hpy).
    apply gtb_spec in Hahead. rewrite Hpw, Hx' in Hahead.
    specialize (Hpy Hh0). repeat split; lra. }
  destruct (find _ _) as [np|].
  - destruct (Hnext np eq_refl) as (Hnx & Hny & Hng).
    rewrite Hx'. unfold Pipe.getGapCenter. rewrite Hng. split.
    + assert (H : - 60 / w < (Pipe.x np - 80) / w < 1).
      { apply quotient_strictly_between; [exact Hw0 | | lra].
        unfold Rdiv. replace (- 60 * / w * w) with (- 60) by (field; lra).
        lra. }
      lra.
    + split.
      * apply quotient_strictly_between; lra.
      * intros trainer. eexists. reflexivity.
  - split.
    + split; [|lra].
      assert (H : 0 < 60 * / w)
        by (apply Rmult_lt_0_compat;
            [lra | apply Rinv_0_lt_compat; exact Hw0]).
      unfold Rdiv. lra.
    + split; [lra |]. intros trainer. eexists. reflexivity.
Qed.

Lemma update_captures_witness :
  exists this' k' events,
    Game.update (Game.start (Game.new 400 600) zeros 0).1 zeros 1
    = Ok (this', k', events).
Proof.
  destruct (update_captures 400 600
              (Game.start (Game.new 400 600) zeros 0).1 zeros 1)
    as (this' & k' & events & H & _).
  - apply rtc_once. apply game_start.
  - lra.
  - lra.
  - exists this', k', events. exact H.
Defined.

(** X26.  A frame in which the bird, once moved, is below the ground line
    or above the top ends the game: the state is [gameover], the bird is
    dead where the frame put it, [onGameOver] is called with the score,
    no pipe is moved, no state is captured and no random number is drawn.
    From then on [update] and [flap] change nothing, until [reset] or
    [start]. *)
Theorem crash_ends_game (this : Game.t) (b : Bird.t) (g : source) (k : nat) :
  Game.gameState this = Game.playing ->
  Game.bird this = Some b ->
  Game.groundY this < Bird.y (Bird.update b) + Bird.height (Bird.update b)
  \/ Bird.y (Bird.update b) < 0 ->
  exists this',
    Game.update this g k
    = Ok (this', k, [Game.onGameOver (Game.score this)]) /\
    Game.gameState this' = Game.gameover /\
    Game.bird this' = Some (Bird.kill (Bird.update b)) /\
    Game.pipes this' = Game.pipes this /\
    Game.score this' = Game.score this /\
    Game.bestScore this' = Game.bestScore this /\
    Game.frameCount this' = S (Game.frameCount this) /\
    Game.flap this' = this' /\
    forall g2 k2, Game.update this' g2 k2 = Ok (this', k2, []).
Proof.
  intros Hgs Hb Hcrash. unfold Game.update. rewrite Hgs, Hb.
  cbn [Game.groundY Game.pipes Game.score Game.bestScore Game.gameState
       Game.width Game.height Game.bird Game.frameCount].
  replace (gtb _ _ || ltb _ _) with true.
  - cbn. eexists. split; [reflexivity |]. cbn. repeat split.
  - symmetry. apply orb_true_iff.
    destruct Hcrash as [H|H]; [left; apply gtb_spec | right; apply ltb_spec];
      lra.
Qed.

Lemma crash_ends_game_witness :
  exists this',
    Game.update
      {| Game.bestScore := 0; Game.gameState := Game.playing;
         Game.width := 400; Game.height := 600;
         Game.bird := Some (Bird.new 80 (-1)); Game.pipes := [];
         Game.score := 0; Game.frameCount := 0; Game.groundY := 550 |}
      zeros 0
    = Ok (this', 0%nat, [Game.onGameOver 0]) /\
    Game.gameState this' = Game.gameover.
Proof.
  destruct (crash_ends_game
              {| Game.bestScore := 0; Game.gameState := Game.playing;
                 Game.width := 400; Game.height := 600;
                 Game.bird := Some (Bird.new 80 (-1)); Game.pipes := [];
                 Game.score := 0; Game.frameCount := 0;
                 Game.groundY := 550 |}
              (Bird.new 80 (-1)) zeros 0)
    as (this' & H & Hover & _).
  - reflexivity.
  - reflexivity.
  - right. simpl.
    assert (H : Rmin (0 + 0.6) 12 = 0 + 0.6) by (apply Rmin_left; lra).
    rewrite H. lra.
  - exists this'. split; [exact H | exact Hover].
Defined.

(** ** The colours of the visualizer *)

Lemma hex_digit_lt (c : ascii) (v : nat) :
  Visualizer.hex_digit c = Some v -> (v < 16)%nat.
Proof.
  unfold Visualizer.hex_digit.
  destruct (Nat.leb_spec 48 (nat_of_ascii c));
    destruct (Nat.leb_spec (nat_of_ascii c) 57);
    destruct (Nat.leb_spec 97 (nat_of_ascii c));
    destruct (Nat.leb_spec (nat_of_ascii c) 102);
    destruct (Nat.leb_spec 65 (nat_of_ascii c));
    destruct (Nat.leb_spec (nat_of_ascii c) 70);
    simpl; intros [= <-]; lia.
Qed.

Lemma hexToRgb_digits (digits : list ascii) :
  match Visualizer.hex_digit <$> digits with
  | [Some r1; Some r0; Some g1; Some g0; Some b1; Some b0] =>
      length digits = 6%nat /\
      (r1 < 16 /\ r0 < 16 /\ g1 < 16 /\ g0 < 16 /\ b1 < 16 /\ b0 < 16)%nat
  | _ =>
      length digits <> 6%nat \/
      exists c, c ∈ digits /\ Visualizer.hex_digit c = None
  end.
Proof.
  assert (Hsome : forall v, Some v ∈ Visualizer.hex_digit <$> digits ->
                    (v < 16)%nat).
  { intros v Hv. apply list_elem_of_fmap in Hv as (c & Hc & _).
    eapply hex_digit_lt. symmetry. exact Hc. }
  assert (Hnone : None ∈ Visualizer.hex_digit <$> digits ->
                  exists c, c ∈ digits /\ Visualizer.hex_digit c = None).
  { intros Hv. apply list_elem_of_fmap in Hv as (c & Hc & Hin).
    exists c. split; [exact Hin | symmetry; exact Hc]. }
  assert (Hlen : length (Visualizer.hex_digit <$> digits) = length digits)
    by apply length_fmap.
  destruct (Visualizer.hex_digit <$> digits)
    as [|[r1|] [|[r0|] [|[g1|] [|[g0|] [|[b1|] [|[b0|] [|x rest]]]]]]];
    simpl in Hlen;
    try (left; lia);
    try (right; apply Hnone; repeat constructor).
  split; [lia |].
  repeat split; apply Hsome; repeat constructor.
Qed.

Lemma hexToRgb_range (hex : string) :
  (Visualizer.r (Visualizer.hexToRgb hex) <= 255)%nat /\
  (Visualizer.g (Visualizer.hexToRgb hex) <= 255)%nat /\
  (Visualizer.b (Visualizer.hexToRgb hex) <= 255)%nat.
Proof.
  unfold Visualizer.hexToRgb.
  set (digits := list_ascii_of_string _).
  pose proof (hexToRgb_digits digits) as H.
  destruct (Visualizer.hex_digit <$> digits)
    as [|[r1|] [|[r0|] [|[g1|] [|[g0|] [|[b1|] [|[b0|] [|x rest]]]]]]];
    simpl; lia.
Qed.

(** X27.  [hexToRgb] reads a string of six digits in base 16, in either
    case and with or without a [#] in front, as three channels of two
    digits each; every other string, one that is neither six such digits
    nor a [#] and six such digits, gives black.  Whatever the string, each
    channel is a whole number from 0 to 255.  The two colours of the nodes
    are (189, 195, 199) and (46, 204, 113). *)
Theorem hexToRgb_parses :
  (forall c1 c2 c3 c4 c5 c6 v1 v2 v3 v4 v5 v6,
     Visualizer.hex_digit c1 = Some v1 -> Visualizer.hex_digit c2 = Some v2 ->
     Visualizer.hex_digit c3 = Some v3 -> Visualizer.hex_digit c4 = Some v4 ->
     Visualizer.hex_digit c5 = Some v5 -> Visualizer.hex_digit c6 = Some v6 ->
     let digits := string_of_list_ascii [c1; c2; c3; c4; c5; c6] in
     Visualizer.hexToRgb digits
     = {| Visualizer.r := 16 * v1 + v2; Visualizer.g := 16 * v3 + v4;
          Visualizer.b := 16 * v5 + v6 |} /\
     Visualizer.hexToRgb (String "#" digits) = Visualizer.hexToRgb digits) /\
  (forall hex,
     (forall digits,
        hex = digits \/ hex = String "#" digits ->
        String.length digits = 6%nat ->
        exists c, c ∈ list_ascii_of_string digits /\
                  Visualizer.hex_digit c = None) ->
     Visualizer.hexToRgb hex
     = {| Visualizer.r := 0; Visualizer.g := 0; Visualizer.b := 0 |}) /\
  (forall hex,
     (Visualizer.r (Visualizer.hexToRgb hex) <= 255)%nat /\
     (Visualizer.g (Visualizer.hexToRgb hex) <= 255)%nat /\
     (Visualizer.b (Visualizer.hexToRgb hex) <= 255)%nat) /\
  (forall c, (97 <= nat_of_ascii c <= 102)%nat ->
     Visualizer.hex_digit (ascii_of_nat (nat_of_ascii c - 32))
     = Visualizer.hex_digit c) /\
  Visualizer.hexToRgb "#bdc3c7"
  = {| Visualizer.r := 189; Visualizer.g := 195; Visualizer.b := 199 |} /\
  Visualizer.hexToRgb "#2ecc71"
  = {| Visualizer.r := 46; Visualizer.g := 204; Visualizer.b := 113 |}.
Proof.
  split; [|split; [|split; [|split; [|split]]]].
  - intros c1 c2 c3 c4 c5 c6 v1 v2 v3 v4 v5 v6 H1 H2 H3 H4 H5 H6 digits.
    assert (Hd : Visualizer.hexToRgb digits
                 = {| Visualizer.r := 16 * v1 + v2;
                      Visualizer.g := 16 * v3 + v4;
                      Visualizer.b := 16 * v5 + v6 |}).
    { unfold Visualizer.hexToRgb, digits.
      assert (Hc : c1 <> "#"%char)
        by (intros ->; vm_compute in H1; discriminate).
      cbn [string_of_list_ascii].
      destruct (Ascii.eqb_spec c1 "#"%char) as [He|He]; [contradiction |].
      replace (match String c1 _ with
               | String "#"%char rest => rest
               | _ => String c1 (String c2 (String c3 (String c4
                        (String c5 (String c6 EmptyString)))))
               end)
        with (String c1 (String c2 (String c3 (String c4
                (String c5 (String c6 EmptyString)))))).
      - cbn [list_ascii_of_string fmap list_fmap].
        rewrite H1, H2, H3, H4, H5, H6. reflexivity.
      - destruct c1 as [[] [] [] [] [] [] [] []]; try reflexivity.
        contradiction Hc. reflexivity. }
    split; [exact Hd |].
    rewrite Hd. unfold Visualizer.hexToRgb, digits.
    cbn [string_of_list_ascii list_ascii_of_string fmap list_fmap].
    rewrite H1, H2, H3, H4, H5, H6. reflexivity.
  - intros hex Hbad.
    set (digits := match hex with
                   | String "#"%char rest => rest
                   | _ => hex
                   end).
    assert (Hhex : hex = digits \/ hex = String "#" digits).
    { unfold digits. destruct hex as [|c rest]; [left; reflexivity |].
      destruct c as [[] [] [] [] [] [] [] []];
        try (left; reflexivity).
      right. reflexivity. }
    unfold Visualizer.hexToRgb. fold digits.
    pose proof (hexToRgb_digits (list_ascii_of_string digits)) as H.
    destruct (Visualizer.hex_digit <$> list_ascii_of_string digits)
      as [|[r1|] [|[r0|] [|[g1|] [|[g0|] [|[b1|] [|[b0|] [|x rest]]]]]]]
      eqn:Hmap; try reflexivity.
    exfalso. destruct H as [Hlen _].
    destruct (Hbad digits Hhex) as (c & Hc & Hnone).
    + rewrite <- Hlen.
      clear. induction digits as [|c digits IH]; simpl; [reflexivity |].
      rewrite IH. reflexivity.
    + assert (Hin : Visualizer.hex_digit c
                    ∈ Visualizer.hex_digit <$> list_ascii_of_string digits)
        by (apply list_elem_of_fmap_2; exact Hc).
      rewrite Hmap, Hnone in Hin.
      repeat (apply elem_of_cons in Hin as [Hin|Hin]; [discriminate |]).
      inversion Hin.
  - exact hexToRgb_range.
  - intros c Hc.
    assert (H : exists n, (97 <= n <= 102)%nat /\ c = ascii_of_nat n).
    { exists (nat_of_ascii c). split; [exact Hc |].
      symmetry. apply ascii_nat_embedding. }
    destruct H as (n & Hn & ->).
    assert (Hcases : n = 97%nat \/ n = 98%nat \/ n = 99%nat \/ n = 100%nat
                     \/ n = 101%nat \/ n = 102%nat) by lia.
    destruct Hcases as [->|[->|[->|[->|[->| ->]]]]]; reflexivity.
  - reflexivity.
  - reflexivity.
Qed.

Lemma hexToRgb_parses_witness :
  Visualizer.hexToRgb "ABCDEF"
  = {| Visualizer.r := 171; Visualizer.g := 205; Visualizer.b := 239 |} /\
  Visualizer.hexToRgb "#12345"
  = {| Visualizer.r := 0; Visualizer.g := 0; Visualizer.b := 0 |} /\
  Visualizer.hexToRgb "##abcdef"
  = {| Visualizer.r := 0; Visualizer.g := 0; Visualizer.b := 0 |}.
Proof.
  destruct hexToRgb_parses as (Hsix & Hbad & _).
  split; [|split].
  - apply (Hsix "A" "B" "C" "D" "E" "F"
                10%nat 11%nat 12%nat 13%nat 14%nat 15%nat)%char;
      reflexivity.
  - apply (Hbad "#12345"%string).
    intros digits [<- | H] Hlen.
    + exists "#"%char. split; [repeat constructor | reflexivity].
    + injection H as <-. discriminate Hlen.
  - apply (Hbad "##abcdef"%string).
    intros digits [<- | H] Hlen.
    + discriminate Hlen.
    + injection H as <-. discriminate Hlen.
Defined.

Lemma round_between (x : R) (lo hi : Z) :
  IZR lo <= x <= IZR hi -> (lo <= Visualizer.round x <= hi)%Z.
Proof.
  intros [Hlo Hhi]. unfold Visualizer.round.
  destruct (base_Int_part (x + 0.5)) as [H1 H2].
  split.
  - assert (H : (lo < Int_part (x + 0.5) + 1)%Z).
    { apply lt_IZR. rewrite plus_IZR. lra. }
    lia.
  - assert (H : (Int_part (x + 0.5) < hi + 1)%Z).
    { apply lt_IZR. rewrite plus_IZR. lra. }
    lia.
Qed.

Lemma blend_between (a b : nat) (t : R) :
  0 <= t <= 1 ->
  IZR (Z.of_nat (Nat.min a b))
  <= INR a + (INR b - INR a) * t
  <= IZR (Z.of_nat (Nat.max a b)).
Proof.
  intros Ht. rewrite <- !INR_IZR_INZ.
  destruct (Nat.le_ge_cases a b) as [Hab|Hab].
  - rewrite Nat.min_l, Nat.max_r by exact Hab.
    apply le_INR in Hab. split; nra.
  - rewrite Nat.min_r, Nat.max_l by exact Hab.
    apply le_INR in Hab. split; nra.
Qed.

(** X28.  For [t] between 0 and 1, every channel of [lerpColor] is a whole
    number between the channels of the two colours, so between 0 and 255;
    at [t = 0] the result is the first colour and at [t = 1] the
    second. *)
Theorem lerpColor_between (color1 color2 : string) (t : R) :
  0 <= t <= 1 ->
  exists r g b,
    Visualizer.lerpColor color1 color2 t = Visualizer.Rgb r g b /\
    let c1 := Visualizer.hexToRgb color1 in
    let c2 := Visualizer.hexToRgb color2 in
    (Z.of_nat (Nat.min (Visualizer.r c1) (Visualizer.r c2)) <= r
     <= Z.of_nat (Nat.max (Visualizer.r c1) (Visualizer.r c2)))%Z /\
    (Z.of_nat (Nat.min (Visualizer.g c1) (Visualizer.g c2)) <= g
     <= Z.of_nat (Nat.max (Visualizer.g c1) (Visualizer.g c2)))%Z /\
    (Z.of_nat (Nat.min (Visualizer.b c1) (Visualizer.b c2)) <= b
     <= Z.of_nat (Nat.max (Visualizer.b c1) (Visualizer.b c2)))%Z /\
    (0 <= r <= 255 /\ 0 <= g <= 255 /\ 0 <= b <= 255)%Z /\
    (t = 0 ->
     r = Z.of_nat (Visualizer.r c1) /\ g = Z.of_nat (Visualizer.g c1) /\
     b = Z.of_nat (Visualizer.b c1)) /\
    (t = 1 ->
     r = Z.of_nat (Visualizer.r c2) /\ g = Z.of_nat (Visualizer.g c2) /\
     b = Z.of_nat (Visualizer.b c2)).
Proof.
  intros Ht. unfold Visualizer.lerpColor.
  eexists _, _, _. split; [reflexivity |]. cbv zeta.
  pose proof (hexToRgb_range color1) as (Hr1 & Hg1 & Hb1).
  pose proof (hexToRgb_range color2) as (Hr2 & Hg2 & Hb2).
  set (c1 := Visualizer.hexToRgb color1) in *.
  set (c2 := Visualizer.hexToRgb color2) in *.
  pose proof (round_between _ _ _
                (blend_between (Visualizer.r c1) (Visualizer.r c2) t Ht))
    as Hr.
  pose proof (round_between _ _ _
                (blend_between (Visualizer.g c1) (Visualizer.g c2) t Ht))
    as Hg.
  pose proof (round_between _ _ _
                (blend_between (Visualizer.b c1) (Visualizer.b c2) t Ht))
    as Hb.
  split; [exact Hr |]. split; [exact Hg |]. split; [exact Hb |].
  split; [lia |].
  assert (Hexact : forall n : nat,
            forall x, x = INR n -> Visualizer.round x = Z.of_nat n).
  { intros n x ->.
    assert (H : (Z.of_nat n <= Visualizer.round (INR n) <= Z.of_nat n)%Z)
      by (apply round_between; rewrite <- INR_IZR_INZ; lra).
    lia. }
  split; intros ->; repeat split; apply Hexact; ring.
Qed.

Lemma lerpColor_between_witness :
  exists r g b,
    Visualizer.lerpColor "#bdc3c7" "#2ecc71" (1 / 2) = Visualizer.Rgb r g b /\
    (0 <= r <= 255 /\ 0 <= g <= 255 /\ 0 <= b <= 255)%Z.
Proof.
  destruct (lerpColor_between "#bdc3c7" "#2ecc71" (1 / 2))
    as (r & g & b & H & _ & _ & _ & Hrange & _).
  - lra.
  - exists r, g, b. split; [exact H | exact Hrange].
Defined.
